(** * Well-control and economic-shutdown decisions of [WellInterfaceFluidSystem]

    A shallow embedding of
    [opm/simulators/wells/WellInterfaceFluidSystem.cpp] (the second document of
    [src/flow/flow_ebos_oilwater_polymer_mech_degradation.cpp]) and the
    properties of its constraint checker, group constraint checker, economic
    limit evaluator and worst-offender selector.

    Conventions of the embedding:
    - a C++ [double] is a primitive IEEE-754 binary64 [float]; the comparisons
      are the IEEE ones, so a NaN compares false with everything;
    - an [int] used as an index or an identifier is a [Z]; the phase count
      [number_of_phases_] is a [nat];
    - a [std::vector] is a [list]; reading or writing outside its bounds is
      undefined behaviour in C++ and the failure [OutOfRange] here;
    - [assert] is taken as active: a failed assertion is the failure
      [AssertionFailed]; a [throw] is the failure [Thrown];
    - a method that mutates [WellState], [WellTestState] or the
      [DeferredLogger] returns the new value next to its result.

    The file has four parts: the embedding of the source, concrete
    configurations to evaluate it on, the definitions that follow the words of
    the spec, and the properties. *)

From Stdlib Require Import Floats ZArith Lia Bool.
From stdpp Require Import base decidable option list gmap strings pretty.

Set Warnings "-inexact-float".
Local Open Scope Z_scope.

(** ** Failures and the result monad *)

Inductive Failure : Type :=
| Thrown (msg : string)
| AssertionFailed
| OutOfRange.

Inductive Result (A : Type) : Type :=
| Ok (a : A)
| Abort (f : Failure).

Arguments Ok {A} a.
Arguments Abort {A} f.

Definition bind {A B : Type} (m : Result A) (k : A -> Result B) : Result B :=
  match m with
  | Ok a => k a
  | Abort f => Abort f
  end.

Notation "x <- m ;; k" := (bind m (fun x => k))
  (at level 90, m at level 89, right associativity).

(** A block of a function body either leaves the function with [return r] or
    falls through to the statement after it. *)
Inductive Step (R : Type) : Type :=
| Return (r : R)
| Continue.

Arguments Return {R} r.
Arguments Continue {R}.

Definition and_then {R : Type} (blk rest : Result (Step R)) : Result (Step R) :=
  s <- blk ;;
  match s with
  | Return r => Ok (Return r)
  | Continue => rest
  end.

Notation "blk ;;; rest" := (and_then blk rest)
  (at level 88, right associativity).

(** A loop over the elements of a range, threading the loop's state. *)
Fixpoint foldM {A S : Type} (body : A -> S -> Result S) (l : list A) (s : S) : Result S :=
  match l with
  | [] => Ok s
  | x :: l' => s' <- body x s ;; foldM body l' s'
  end.

(** [for (int p = 0; p < n; ++p) body]. *)
Definition for_upto {S : Type} (n : nat) (body : Z -> S -> Result S) (s : S) : Result S :=
  foldM body (Z.of_nat <$> seq 0 n) s.

(** [assert(c)] of <cassert>. *)
Definition assert (c : bool) : Result unit :=
  if c then Ok tt else Abort AssertionFailed.

(** ** [double] comparisons, written as in C++ *)

Definition flt (a b : float) : bool := PrimFloat.ltb a b.      (* a < b  *)
Definition fgt (a b : float) : bool := PrimFloat.ltb b a.      (* a > b  *)
Definition fge (a b : float) : bool := PrimFloat.leb b a.      (* a >= b *)
Definition fne (a b : float) : bool := negb (PrimFloat.eqb a b). (* a != b *)

(** ** [std::vector] *)

(** [v[i]] read. *)
Definition at_ {A : Type} (v : list A) (i : Z) : Result A :=
  if i <? 0 then Abort OutOfRange
  else match v !! Z.to_nat i with
       | Some x => Ok x
       | None => Abort OutOfRange
       end.

(** [v[i] = x] write. *)
Definition set_at {A : Type} (v : list A) (i : Z) (x : A) : Result (list A) :=
  if i <? 0 then Abort OutOfRange
  else match v !! Z.to_nat i with
       | Some _ => Ok (<[Z.to_nat i := x]> v)
       | None => Abort OutOfRange
       end.

(** ** Enumerations of the schedule (opm-common) *)

(** [BlackoilPhases::{Aqua, Liquid, Vapour}], the indices of [PhaseUsage]. *)
Inductive BlackoilPhases : Type := Aqua | Liquid | Vapour.

(** The class constants [Water], [Oil], [Gas] of the well interface. *)
Definition Water : BlackoilPhases := Aqua.
Definition Oil : BlackoilPhases := Liquid.
Definition Gas : BlackoilPhases := Vapour.

(** [Phase], the injection phase handed to the group helper. *)
Inductive Phase : Type := Phase_WATER | Phase_OIL | Phase_GAS.

Module InjectorType.
(** Modelled from the spec: the enumeration is declared in opm-common; the
    source names [WATER], [OIL], [GAS] and has a [default] branch for any
    other value ("an unrecognized type is a fatal configuration error"),
    which is [MULTI] here. *)
Inductive t : Type := WATER | OIL | GAS | MULTI.
End InjectorType.

Module InjectorCMode.
(** [Well::InjectorCMode], the values the source names. *)
Inductive t : Type := RATE | RESV | BHP | THP | GRUP.
#[global] Instance eq_dec : EqDecision t.
Proof. solve_decision. Defined.
End InjectorCMode.

Module ProducerCMode.
(** [Well::ProducerCMode], the values the source names. *)
Inductive t : Type := ORAT | WRAT | GRAT | LRAT | RESV | BHP | THP | GRUP.
#[global] Instance eq_dec : EqDecision t.
Proof. solve_decision. Defined.
End ProducerCMode.

(** [currentControl != mode]. *)
Definition inj_ne (a b : InjectorCMode.t) : bool := bool_decide (a ≠ b).
Definition prod_ne (a b : ProducerCMode.t) : bool := bool_decide (a ≠ b).

Module QuantityLimit.
(** [WellEconProductionLimits::QuantityLimit]: the source tests for [POTN]
    only; [RATE] is every other value. *)
Inductive t : Type := RATE | POTN.
End QuantityLimit.

Module EconWorkover.
(** [WellEconProductionLimits::EconWorkover]: the source has branches for
    [CON], [WELL] and [NONE] and a [default] branch; [CONP] and [PLUG] fall
    into the latter. *)
Inductive t : Type := NONE | CON | CONP | WELL | PLUG.
End EconWorkover.

(** [WellEconProductionLimits::EconWorkover2String], declared in opm-common:
    the keyword of each workover. *)
Definition EconWorkover2String (w : EconWorkover.t) : string :=
  match w with
  | EconWorkover.NONE => "NONE"
  | EconWorkover.CON => "CON"
  | EconWorkover.CONP => "+CON"
  | EconWorkover.WELL => "WELL"
  | EconWorkover.PLUG => "PLUG"
  end.

Module ConnectionState.
(** [Connection::State]. *)
Inductive t : Type := OPEN | SHUT | AUTO.
#[global] Instance eq_dec : EqDecision t.
Proof. solve_decision. Defined.
End ConnectionState.

Module Reason.
(** [WellTestConfig::Reason]. *)
Inductive t : Type := PHYSICAL | ECONOMIC | GROUP | THP_DESIGN | COMPLETION.
#[global] Instance eq_dec : EqDecision t.
Proof. solve_decision. Defined.
End Reason.

(** ** Records of the schedule *)

(** [PhaseUsage]: which phases are active and the slot of each in a rate
    vector ([phase_pos] is negative for an inactive phase). *)
Record PhaseUsage : Type := {
  num_phases : nat;
  phase_used : BlackoilPhases -> bool;
  phase_pos : BlackoilPhases -> Z
}.

Module InjectionControls.
(** [Well::InjectionControls], the members the source reads. *)
Record t : Type := {
  hasControl : InjectorCMode.t -> bool;
  bhp_limit : float;
  surface_rate : float;
  reservoir_rate : float;
  injector_type : InjectorType.t
}.
End InjectionControls.

Module ProductionControls.
(** [Well::ProductionControls], the members the source reads. *)
Record t : Type := {
  hasControl : ProducerCMode.t -> bool;
  bhp_limit : float;
  oil_rate : float;
  water_rate : float;
  gas_rate : float;
  liquid_rate : float;
  resv_rate : float;
  prediction_mode : bool
}.
End ProductionControls.

Module WellEconProductionLimits.
(** [WellEconProductionLimits], the queries the source makes; each query is a
    member of its own, as the class is declared outside this file. *)
Record t : Type := {
  onAnyEffectiveLimit : bool;
  onAnyRateLimit : bool;
  onAnyRatioLimit : bool;
  onMinOilRate : bool;
  minOilRate : float;
  onMinGasRate : bool;
  minGasRate : float;
  onMinLiquidRate : bool;
  minLiquidRate : float;
  onMinReservoirFluidRate : bool;
  onMaxWaterCut : bool;
  maxWaterCut : float;
  onMaxGasOilRatio : bool;
  maxGasOilRatio : float;
  onMaxWaterGasRatio : bool;
  maxWaterGasRatio : float;
  onMaxGasLiquidRatio : bool;
  quantityLimit : QuantityLimit.t;
  endRun : bool;
  validFollowonWell : bool;
  workover : EconWorkover.t
}.
End WellEconProductionLimits.

Module Connection.
(** [Connection]: its state and the completion it belongs to. *)
Record t : Type := {
  state : ConnectionState.t;
  complnum : Z
}.
End Connection.

(** Modelled from the spec: the well's role is "injector/producer"; the
    class [Well] is declared in opm-common, where [isInjector] is the
    negation of [isProducer]. *)
Inductive WellRole : Type := Injector | Producer.

Module Well.
(** [Well], the members the source reads; the controls depend on the summary
    state. *)
Record t (SummaryState : Type) : Type := {
  name : string;
  groupName : string;
  role : WellRole;
  injectionControls : SummaryState -> InjectionControls.t;
  productionControls : SummaryState -> ProductionControls.t;
  getEfficiencyFactor : float;
  getEconLimits : WellEconProductionLimits.t;
  getConnections : list Connection.t;
  getAutomaticShutIn : bool
}.
Arguments name {SummaryState} _.
Arguments groupName {SummaryState} _.
Arguments role {SummaryState} _.
Arguments injectionControls {SummaryState} _ _.
Arguments productionControls {SummaryState} _ _.
Arguments getEfficiencyFactor {SummaryState} _.
Arguments getEconLimits {SummaryState} _.
Arguments getConnections {SummaryState} _.
Arguments getAutomaticShutIn {SummaryState} _.

Definition isInjector {SummaryState : Type} (w : t SummaryState) : bool :=
  match role w with Injector => true | Producer => false end.
Definition isProducer {SummaryState : Type} (w : t SummaryState) : bool :=
  match role w with Injector => false | Producer => true end.
End Well.

(** ** The deferred logger *)

Inductive LogEntry : Type :=
| LogWarning (tag : string) (message : string)
| LogInfo (message : string).

Definition DeferredLogger : Type := list LogEntry.

Definition warning (tag message : string) (log : DeferredLogger) : DeferredLogger :=
  log ++ [LogWarning tag message].
Definition info (message : string) (log : DeferredLogger) : DeferredLogger :=
  log ++ [LogInfo message].

(** The line feed of a C++ string literal. *)
Definition newline : string := String (Ascii.ascii_of_nat 10) EmptyString.

(** [std::to_string] of an [int]. *)
Definition to_string (n : Z) : string := pretty n.

(** ** [WellState] *)

(** The members of [WellState] the source reads and writes, one list per
    accessor: [wellRates(w)] and [wellReservoirRates(w)] are the rate vectors
    of well [w]; [wellPotentials()] and [perfPhaseRates()] are flat vectors. *)
Record WellState : Type := {
  ws_wellRates : list (list float);
  ws_wellReservoirRates : list (list float);
  ws_bhp : list float;
  ws_thp : list float;
  ws_currentInjectionControl : list InjectorCMode.t;
  ws_currentProductionControl : list ProducerCMode.t;
  ws_numPhases : nat;
  ws_wellPotentials : list float;
  ws_perfPhaseRates : list float
}.

Definition wellRates (s : WellState) (w : Z) : Result (list float) :=
  at_ (ws_wellRates s) w.
Definition wellReservoirRates (s : WellState) (w : Z) : Result (list float) :=
  at_ (ws_wellReservoirRates s) w.
Definition bhp (s : WellState) (w : Z) : Result float := at_ (ws_bhp s) w.
Definition thp (s : WellState) (w : Z) : Result float := at_ (ws_thp s) w.
Definition currentInjectionControl (s : WellState) (w : Z) : Result InjectorCMode.t :=
  at_ (ws_currentInjectionControl s) w.
Definition currentProductionControl (s : WellState) (w : Z) : Result ProducerCMode.t :=
  at_ (ws_currentProductionControl s) w.
Definition numPhases (s : WellState) : nat := ws_numPhases s.

(** The well state with one member replaced. *)
Definition with_wellRates (s : WellState) (v : list (list float)) : WellState :=
  {| ws_wellRates := v;
     ws_wellReservoirRates := ws_wellReservoirRates s;
     ws_bhp := ws_bhp s;
     ws_thp := ws_thp s;
     ws_currentInjectionControl := ws_currentInjectionControl s;
     ws_currentProductionControl := ws_currentProductionControl s;
     ws_numPhases := ws_numPhases s;
     ws_wellPotentials := ws_wellPotentials s;
     ws_perfPhaseRates := ws_perfPhaseRates s |}.

Definition with_wellReservoirRates (s : WellState) (v : list (list float)) : WellState :=
  {| ws_wellRates := ws_wellRates s;
     ws_wellReservoirRates := v;
     ws_bhp := ws_bhp s;
     ws_thp := ws_thp s;
     ws_currentInjectionControl := ws_currentInjectionControl s;
     ws_currentProductionControl := ws_currentProductionControl s;
     ws_numPhases := ws_numPhases s;
     ws_wellPotentials := ws_wellPotentials s;
     ws_perfPhaseRates := ws_perfPhaseRates s |}.

Definition with_currentInjectionControl (s : WellState) (v : list InjectorCMode.t)
  : WellState :=
  {| ws_wellRates := ws_wellRates s;
     ws_wellReservoirRates := ws_wellReservoirRates s;
     ws_bhp := ws_bhp s;
     ws_thp := ws_thp s;
     ws_currentInjectionControl := v;
     ws_currentProductionControl := ws_currentProductionControl s;
     ws_numPhases := ws_numPhases s;
     ws_wellPotentials := ws_wellPotentials s;
     ws_perfPhaseRates := ws_perfPhaseRates s |}.

Definition with_currentProductionControl (s : WellState) (v : list ProducerCMode.t)
  : WellState :=
  {| ws_wellRates := ws_wellRates s;
     ws_wellReservoirRates := ws_wellReservoirRates s;
     ws_bhp := ws_bhp s;
     ws_thp := ws_thp s;
     ws_currentInjectionControl := ws_currentInjectionControl s;
     ws_currentProductionControl := v;
     ws_numPhases := ws_numPhases s;
     ws_wellPotentials := ws_wellPotentials s;
     ws_perfPhaseRates := ws_perfPhaseRates s |}.

(** [well_state.currentInjectionControl(w, mode)]. *)
Definition set_currentInjectionControl (s : WellState) (w : Z) (mode : InjectorCMode.t)
  : Result WellState :=
  v <- set_at (ws_currentInjectionControl s) w mode ;;
  Ok (with_currentInjectionControl s v).

(** [well_state.currentProductionControl(w, mode)]. *)
Definition set_currentProductionControl (s : WellState) (w : Z) (mode : ProducerCMode.t)
  : Result WellState :=
  v <- set_at (ws_currentProductionControl s) w mode ;;
  Ok (with_currentProductionControl s v).

(** [well_state.wellRates(w) = v] as a whole vector. *)
Definition set_wellRates (s : WellState) (w : Z) (v : list float) : Result WellState :=
  r <- set_at (ws_wellRates s) w v ;;
  Ok (with_wellRates s r).

(** [well_state.wellReservoirRates(w) = v] as a whole vector. *)
Definition set_wellReservoirRates (s : WellState) (w : Z) (v : list float) : Result WellState :=
  r <- set_at (ws_wellReservoirRates s) w v ;;
  Ok (with_wellReservoirRates s r).

(** [well_state.wellRates(w)[p] = x]. *)
Definition set_wellRate (s : WellState) (w p : Z) (x : float) : Result WellState :=
  row <- wellRates s w ;;
  row' <- set_at row p x ;;
  set_wellRates s w row'.

(** [well_state.wellReservoirRates(w)[p] = x]. *)
Definition set_wellReservoirRate (s : WellState) (w p : Z) (x : float) : Result WellState :=
  row <- wellReservoirRates s w ;;
  row' <- set_at row p x ;;
  set_wellReservoirRates s w row'.

(** ** Collaborators of the well interface *)

(** [RateConverterType]: both methods fill the vector passed last and are
    modelled as returning it. *)
Record RateConverter : Type := {
  calcReservoirVoidageRates : Z -> Z -> list float -> list float -> list float;
  calcCoeff : Z -> Z -> list float -> list float
}.

(** [ParallelWellInfo]: [communication().sum(data, size)] adds the vectors of
    all the processes that hold a part of the well; it is the identity when
    the well lives on one process. *)
Record ParallelWellInfo : Type := {
  communication_sum : list float -> list float
}.

(** [Schedule::getGroup] and the two checks of [WellGroupHelpers], which return
    the pair (violated, scale factor) and may write to the logger. *)
Record Externals (SummaryState Schedule GroupState Group GuideRate : Type) : Type := {
  getGroup : Schedule -> string -> Z -> Group;
  WellGroupHelpers_checkGroupConstraintsInj :
    string -> string -> Group -> WellState -> GroupState -> Z -> GuideRate ->
    list float -> Phase -> PhaseUsage -> float -> Schedule -> SummaryState ->
    list float -> DeferredLogger -> (bool * float) * DeferredLogger;
  WellGroupHelpers_checkGroupConstraintsProd :
    string -> string -> Group -> WellState -> GroupState -> Z -> GuideRate ->
    list float -> PhaseUsage -> float -> Schedule -> SummaryState ->
    list float -> DeferredLogger -> (bool * float) * DeferredLogger
}.
Arguments getGroup {SummaryState Schedule GroupState Group GuideRate} _ _ _ _.
Arguments WellGroupHelpers_checkGroupConstraintsInj
  {SummaryState Schedule GroupState Group GuideRate} _.
Arguments WellGroupHelpers_checkGroupConstraintsProd
  {SummaryState Schedule GroupState Group GuideRate} _.

(** The members of [WellInterfaceFluidSystem] and of its base
    [WellInterfaceGeneric] that the methods read. [getTHPConstraint],
    [wellIsStopped] and [phaseUsage] are methods of the base class and
    [FluidSystem_phaseIsActive] is [FluidSystem::phaseIsActive], all declared
    outside this file. [completions_] is a [std::map] from completion number
    to the perforations of the completion, in the order of its keys. *)
Record WellInterfaceFluidSystem (SummaryState GuideRate : Type) : Type := {
  well_ecl_ : Well.t SummaryState;
  parallel_well_info_ : ParallelWellInfo;
  current_step_ : Z;
  pvtRegionIdx_ : Z;
  number_of_phases_ : nat;
  index_of_well_ : Z;
  first_perf_ : Z;
  completions_ : list (Z * list Z);
  guide_rate_ : GuideRate;
  rateConverter_ : RateConverter;
  phaseUsage : PhaseUsage;
  wellIsStopped : bool;
  getTHPConstraint : SummaryState -> float;
  FluidSystem_phaseIsActive : BlackoilPhases -> bool
}.
Arguments well_ecl_ {SummaryState GuideRate} _.
Arguments parallel_well_info_ {SummaryState GuideRate} _.
Arguments current_step_ {SummaryState GuideRate} _.
Arguments pvtRegionIdx_ {SummaryState GuideRate} _.
Arguments number_of_phases_ {SummaryState GuideRate} _.
Arguments index_of_well_ {SummaryState GuideRate} _.
Arguments first_perf_ {SummaryState GuideRate} _.
Arguments completions_ {SummaryState GuideRate} _.
Arguments guide_rate_ {SummaryState GuideRate} _.
Arguments rateConverter_ {SummaryState GuideRate} _.
Arguments phaseUsage {SummaryState GuideRate} _.
Arguments wellIsStopped {SummaryState GuideRate} _.
Arguments getTHPConstraint {SummaryState GuideRate} _ _.
Arguments FluidSystem_phaseIsActive {SummaryState GuideRate} _ _.

(** [name()] of the well interface. *)
Definition name {SummaryState GuideRate : Type}
  (this : WellInterfaceFluidSystem SummaryState GuideRate) : string :=
  Well.name (well_ecl_ this).

(** Modelled from the spec: [INVALIDCOMPLETION] is the sentinel "no completion
    identified" of the report; the header of the class, outside this file,
    declares it as the largest [int]. *)
Definition INVALIDCOMPLETION : Z := 2147483647.

(** ** The constraint checker *)

Section ConstraintChecker.
Context {SummaryState Schedule GroupState Group GuideRate : Type}.
Variable ext : Externals SummaryState Schedule GroupState Group GuideRate.
Variable this : WellInterfaceFluidSystem SummaryState GuideRate.

(** [calculateReservoirRates] (source lines 167-186). *)
Definition calculateReservoirRates (well_state : WellState) : Result WellState :=
  let fipreg := 0 in
  let np := number_of_phases_ this in
  surface_rates <-
    for_upto np (fun p surface_rates =>
      rates <- wellRates well_state (index_of_well_ this) ;;
      r <- at_ rates p ;;
      set_at surface_rates p r) (replicate np 0%float) ;;
  let voidage_rates :=
    calcReservoirVoidageRates (rateConverter_ this) fipreg (pvtRegionIdx_ this)
      surface_rates (replicate np 0%float) in
  for_upto np (fun p well_state =>
    v <- at_ voidage_rates p ;;
    set_wellReservoirRate well_state (index_of_well_ this) p v) well_state.

(** The injector block of [checkIndividualConstraints] (source lines
    198-272). In the RESV and THP branches the source assigns the local copy
    [currentControl] and returns: [well_state] is not written. *)
Definition checkIndividualConstraints_injector
  (well_state : WellState) (summaryState : SummaryState)
  : Result (Step (bool * WellState)) :=
  let well := well_ecl_ this in
  let pu := phaseUsage this in
  let well_index := index_of_well_ this in
  let controls := Well.injectionControls well summaryState in
  currentControl <- currentInjectionControl well_state well_index ;;
  (if InjectionControls.hasControl controls InjectorCMode.BHP
      && inj_ne currentControl InjectorCMode.BHP
   then
     let bhp_ := InjectionControls.bhp_limit controls in
     current_bhp <- bhp well_state well_index ;;
     if flt bhp_ current_bhp then
       well_state' <- set_currentInjectionControl well_state well_index InjectorCMode.BHP ;;
       Ok (Return (true, well_state'))
     else Ok Continue
   else Ok Continue) ;;;
  (if InjectionControls.hasControl controls InjectorCMode.RATE
      && inj_ne currentControl InjectorCMode.RATE
   then
     let injectorType := InjectionControls.injector_type controls in
     current_rate <-
       match injectorType with
       | InjectorType.WATER =>
           rates <- wellRates well_state well_index ;; at_ rates (phase_pos pu Aqua)
       | InjectorType.OIL =>
           rates <- wellRates well_state well_index ;; at_ rates (phase_pos pu Liquid)
       | InjectorType.GAS =>
           rates <- wellRates well_state well_index ;; at_ rates (phase_pos pu Vapour)
       | _ =>
           Abort (Thrown ("Expected WATER, OIL or GAS as type for injectors "
                          +:+ Well.name well))
       end ;;
     if flt (InjectionControls.surface_rate controls) current_rate then
       well_state' <- set_currentInjectionControl well_state well_index InjectorCMode.RATE ;;
       Ok (Return (true, well_state'))
     else Ok Continue
   else Ok Continue) ;;;
  (if InjectionControls.hasControl controls InjectorCMode.RESV
      && inj_ne currentControl InjectorCMode.RESV
   then
     let current_rate := 0%float in
     current_rate <-
       (if phase_used pu Aqua then
          rates <- wellReservoirRates well_state well_index ;;
          r <- at_ rates (phase_pos pu Aqua) ;; Ok (current_rate + r)%float
        else Ok current_rate) ;;
     current_rate <-
       (if phase_used pu Liquid then
          rates <- wellReservoirRates well_state well_index ;;
          r <- at_ rates (phase_pos pu Liquid) ;; Ok (current_rate + r)%float
        else Ok current_rate) ;;
     current_rate <-
       (if phase_used pu Vapour then
          rates <- wellReservoirRates well_state well_index ;;
          r <- at_ rates (phase_pos pu Vapour) ;; Ok (current_rate + r)%float
        else Ok current_rate) ;;
     if flt (InjectionControls.reservoir_rate controls) current_rate then
       let currentControl := InjectorCMode.RESV in
       Ok (Return (true, well_state))
     else Ok Continue
   else Ok Continue) ;;;
  (if InjectionControls.hasControl controls InjectorCMode.THP
      && inj_ne currentControl InjectorCMode.THP
   then
     let thp_ := getTHPConstraint this summaryState in
     current_thp <- thp well_state well_index ;;
     if flt thp_ current_thp then
       let currentControl := InjectorCMode.THP in
       Ok (Return (true, well_state))
     else Ok Continue
   else Ok Continue).

(** The producer block of [checkIndividualConstraints] (source lines
    274-374). *)
Definition checkIndividualConstraints_producer
  (well_state : WellState) (summaryState : SummaryState)
  : Result (Step (bool * WellState)) :=
  let well := well_ecl_ this in
  let pu := phaseUsage this in
  let well_index := index_of_well_ this in
  let controls := Well.productionControls well summaryState in
  currentControl <- currentProductionControl well_state well_index ;;
  (if ProductionControls.hasControl controls ProducerCMode.BHP
      && prod_ne currentControl ProducerCMode.BHP
   then
     let bhp_ := ProductionControls.bhp_limit controls in
     current_bhp <- bhp well_state well_index ;;
     if fgt bhp_ current_bhp then
       well_state' <- set_currentProductionControl well_state well_index ProducerCMode.BHP ;;
       Ok (Return (true, well_state'))
     else Ok Continue
   else Ok Continue) ;;;
  (if ProductionControls.hasControl controls ProducerCMode.ORAT
      && prod_ne currentControl ProducerCMode.ORAT
   then
     rates <- wellRates well_state well_index ;;
     r <- at_ rates (phase_pos pu Liquid) ;;
     let current_rate := (- r)%float in
     if flt (ProductionControls.oil_rate controls) current_rate then
       well_state' <- set_currentProductionControl well_state well_index ProducerCMode.ORAT ;;
       Ok (Return (true, well_state'))
     else Ok Continue
   else Ok Continue) ;;;
  (if ProductionControls.hasControl controls ProducerCMode.WRAT
      && prod_ne currentControl ProducerCMode.WRAT
   then
     rates <- wellRates well_state well_index ;;
     r <- at_ rates (phase_pos pu Aqua) ;;
     let current_rate := (- r)%float in
     if flt (ProductionControls.water_rate controls) current_rate then
       well_state' <- set_currentProductionControl well_state well_index ProducerCMode.WRAT ;;
       Ok (Return (true, well_state'))
     else Ok Continue
   else Ok Continue) ;;;
  (if ProductionControls.hasControl controls ProducerCMode.GRAT
      && prod_ne currentControl ProducerCMode.GRAT
   then
     rates <- wellRates well_state well_index ;;
     r <- at_ rates (phase_pos pu Vapour) ;;
     let current_rate := (- r)%float in
     if flt (ProductionControls.gas_rate controls) current_rate then
       well_state' <- set_currentProductionControl well_state well_index ProducerCMode.GRAT ;;
       Ok (Return (true, well_state'))
     else Ok Continue
   else Ok Continue) ;;;
  (if ProductionControls.hasControl controls ProducerCMode.LRAT
      && prod_ne currentControl ProducerCMode.LRAT
   then
     rates <- wellRates well_state well_index ;;
     r <- at_ rates (phase_pos pu Liquid) ;;
     let current_rate := (- r)%float in
     rates <- wellRates well_state well_index ;;
     r <- at_ rates (phase_pos pu Aqua) ;;
     let current_rate := (current_rate - r)%float in
     if flt (ProductionControls.liquid_rate controls) current_rate then
       well_state' <- set_currentProductionControl well_state well_index ProducerCMode.LRAT ;;
       Ok (Return (true, well_state'))
     else Ok Continue
   else Ok Continue) ;;;
  (if ProductionControls.hasControl controls ProducerCMode.RESV
      && prod_ne currentControl ProducerCMode.RESV
   then
     let current_rate := 0%float in
     current_rate <-
       (if phase_used pu Aqua then
          rates <- wellReservoirRates well_state well_index ;;
          r <- at_ rates (phase_pos pu Aqua) ;; Ok (current_rate - r)%float
        else Ok current_rate) ;;
     current_rate <-
       (if phase_used pu Liquid then
          rates <- wellReservoirRates well_state well_index ;;
          r <- at_ rates (phase_pos pu Liquid) ;; Ok (current_rate - r)%float
        else Ok current_rate) ;;
     current_rate <-
       (if phase_used pu Vapour then
          rates <- wellReservoirRates well_state well_index ;;
          r <- at_ rates (phase_pos pu Vapour) ;; Ok (current_rate - r)%float
        else Ok current_rate) ;;
     (if ProductionControls.prediction_mode controls
         && flt (ProductionControls.resv_rate controls) current_rate
      then
        well_state' <- set_currentProductionControl well_state well_index ProducerCMode.RESV ;;
        Ok (Return (true, well_state'))
      else Ok Continue) ;;;
     (if negb (ProductionControls.prediction_mode controls) then
        let fipreg := 0 in
        let np := number_of_phases_ this in
        let surface_rates := replicate np 0%float in
        surface_rates <-
          (if phase_used pu Aqua
           then set_at surface_rates (phase_pos pu Aqua) (ProductionControls.water_rate controls)
           else Ok surface_rates) ;;
        surface_rates <-
          (if phase_used pu Liquid
           then set_at surface_rates (phase_pos pu Liquid) (ProductionControls.oil_rate controls)
           else Ok surface_rates) ;;
        surface_rates <-
          (if phase_used pu Vapour
           then set_at surface_rates (phase_pos pu Vapour) (ProductionControls.gas_rate controls)
           else Ok surface_rates) ;;
        let voidage_rates :=
          calcReservoirVoidageRates (rateConverter_ this) fipreg (pvtRegionIdx_ this)
            surface_rates (replicate np 0%float) in
        resv_rate <-
          for_upto np (fun p resv_rate =>
            v <- at_ voidage_rates p ;; Ok (resv_rate + v)%float) 0%float ;;
        if flt resv_rate current_rate then
          well_state' <- set_currentProductionControl well_state well_index ProducerCMode.RESV ;;
          Ok (Return (true, well_state'))
        else Ok Continue
      else Ok Continue)
   else Ok Continue) ;;;
  (if ProductionControls.hasControl controls ProducerCMode.THP
      && prod_ne currentControl ProducerCMode.THP
   then
     let thp_ := getTHPConstraint this summaryState in
     current_thp <- thp well_state well_index ;;
     if fgt thp_ current_thp then
       well_state' <- set_currentProductionControl well_state well_index ProducerCMode.THP ;;
       Ok (Return (true, well_state'))
     else Ok Continue
   else Ok Continue).

(** [checkIndividualConstraints] (source lines 188-377): the injector block,
    then the producer block, then [return false]. *)
Definition checkIndividualConstraints
  (well_state : WellState) (summaryState : SummaryState) : Result (bool * WellState) :=
  let well := well_ecl_ this in
  r <- ((if Well.isInjector well
         then checkIndividualConstraints_injector well_state summaryState
         else Ok Continue) ;;;
        (if Well.isProducer well
         then checkIndividualConstraints_producer well_state summaryState
         else Ok Continue)) ;;
  match r with
  | Return x => Ok x
  | Continue => Ok (false, well_state)
  end.

(** [checkGroupConstraintsInj] (source lines 379-434). *)
Definition checkGroupConstraintsInj
  (group : Group) (well_state : WellState) (group_state : GroupState)
  (efficiencyFactor : float) (schedule : Schedule) (summaryState : SummaryState)
  (deferred_logger : DeferredLogger) : Result ((bool * float) * DeferredLogger) :=
  let well_controls := Well.injectionControls (well_ecl_ this) summaryState in
  let injectorType := InjectionControls.injector_type well_controls in
  injectionPhase <-
    match injectorType with
    | InjectorType.WATER => Ok Phase_WATER
    | InjectorType.OIL => Ok Phase_OIL
    | InjectorType.GAS => Ok Phase_GAS
    | _ => Abort (Thrown ("Expected WATER, OIL or GAS as type for injector " +:+ name this))
    end ;;
  let resv_coeff :=
    calcCoeff (rateConverter_ this) 0 (pvtRegionIdx_ this)
      (replicate (num_phases (phaseUsage this)) 1%float) in
  rates <- wellRates well_state (index_of_well_ this) ;;
  Ok (WellGroupHelpers_checkGroupConstraintsInj ext
        (name this) (Well.groupName (well_ecl_ this)) group well_state group_state
        (current_step_ this) (guide_rate_ this) rates injectionPhase (phaseUsage this)
        efficiencyFactor schedule summaryState resv_coeff deferred_logger).

(** [checkGroupConstraintsProd] (source lines 436-465). *)
Definition checkGroupConstraintsProd
  (group : Group) (well_state : WellState) (group_state : GroupState)
  (efficiencyFactor : float) (schedule : Schedule) (summaryState : SummaryState)
  (deferred_logger : DeferredLogger) : Result ((bool * float) * DeferredLogger) :=
  let resv_coeff :=
    calcCoeff (rateConverter_ this) 0 (pvtRegionIdx_ this)
      (replicate (num_phases (phaseUsage this)) 1%float) in
  rates <- wellRates well_state (index_of_well_ this) ;;
  Ok (WellGroupHelpers_checkGroupConstraintsProd ext
        (name this) (Well.groupName (well_ecl_ this)) group well_state group_state
        (current_step_ this) (guide_rate_ this) rates (phaseUsage this)
        efficiencyFactor schedule summaryState resv_coeff deferred_logger).

(** The loop [for (p < np) well_state.wellRates(index_of_well_)[p] *= factor]
    of [checkGroupConstraints] (source lines 498-501 and 526-529). *)
Definition scaleWellRates (well_state : WellState) (factor : float) : Result WellState :=
  let np := numPhases well_state in
  for_upto np (fun p well_state =>
    rates <- wellRates well_state (index_of_well_ this) ;;
    r <- at_ rates p ;;
    set_wellRate well_state (index_of_well_ this) p (r * factor)%float) well_state.

(** [checkGroupConstraints] (source lines 467-536). *)
Definition checkGroupConstraints
  (well_state : WellState) (group_state : GroupState) (schedule : Schedule)
  (summaryState : SummaryState) (deferred_logger : DeferredLogger)
  : Result (bool * WellState * DeferredLogger) :=
  let well := well_ecl_ this in
  let well_index := index_of_well_ this in
  r <- ((if Well.isInjector well then
           currentControl <- currentInjectionControl well_state well_index ;;
           if inj_ne currentControl InjectorCMode.GRUP then
             let group := getGroup ext schedule (Well.groupName well) (current_step_ this) in
             let efficiencyFactor := Well.getEfficiencyFactor well in
             gc <- checkGroupConstraintsInj group well_state group_state efficiencyFactor
                     schedule summaryState deferred_logger ;;
             let group_constraint := fst gc in
             let deferred_logger := snd gc in
             if fst group_constraint then
               well_state <- set_currentInjectionControl well_state (index_of_well_ this)
                               InjectorCMode.GRUP ;;
               well_state <- scaleWellRates well_state (snd group_constraint) ;;
               Ok (Return (fst group_constraint, well_state, deferred_logger))
             else Ok (Return (fst group_constraint, well_state, deferred_logger))
           else Ok Continue
         else Ok Continue) ;;;
        (if Well.isProducer well then
           currentControl <- currentProductionControl well_state well_index ;;
           if prod_ne currentControl ProducerCMode.GRUP then
             let group := getGroup ext schedule (Well.groupName well) (current_step_ this) in
             let efficiencyFactor := Well.getEfficiencyFactor well in
             gc <- checkGroupConstraintsProd group well_state group_state efficiencyFactor
                     schedule summaryState deferred_logger ;;
             let group_constraint := fst gc in
             let deferred_logger := snd gc in
             if fst group_constraint then
               well_state <- set_currentProductionControl well_state (index_of_well_ this)
                               ProducerCMode.GRUP ;;
               well_state <- scaleWellRates well_state (snd group_constraint) ;;
               Ok (Return (fst group_constraint, well_state, deferred_logger))
             else Ok (Return (fst group_constraint, well_state, deferred_logger))
           else Ok Continue
         else Ok Continue)) ;;
  match r with
  | Return x => Ok x
  | Continue => Ok (false, well_state, deferred_logger)
  end.

(** [checkConstraints] (source lines 538-553). *)
Definition checkConstraints
  (well_state : WellState) (group_state : GroupState) (schedule : Schedule)
  (summaryState : SummaryState) (deferred_logger : DeferredLogger)
  : Result (bool * WellState * DeferredLogger) :=
  ind <- checkIndividualConstraints well_state summaryState ;;
  let ind_broken := fst ind in
  let well_state := snd ind in
  if ind_broken then Ok (true, well_state, deferred_logger)
  else checkGroupConstraints well_state group_state schedule summaryState deferred_logger.

End ConstraintChecker.

(** ** The shut-in ledger *)

(** Modelled from the spec: [WellTestState] is declared in opm-common; the
    spec describes it as "a mapping from well name to {closed: bool, reason,
    timestamp} and from (well name, completion id) to {closed: bool,
    timestamp}", mutated in place and never shrunk. *)
Record WTestWell : Type := {
  closed : bool;
  reason : Reason.t;
  last_test : float
}.

Record ClosedCompletion : Type := {
  completion_closed : bool;
  completion_last_test : float
}.

Record WellTestState : Type := {
  wells : gmap string WTestWell;
  completions : gmap (string * Z) ClosedCompletion
}.

(** Modelled from the spec: [closeWell] records the well as closed, with the
    reason and the time of the closure. *)
Definition closeWell (well_name : string) (r : Reason.t) (sim_time : float)
  (s : WellTestState) : WellTestState :=
  {| wells := <[well_name := {| closed := true; reason := r; last_test := sim_time |}]> (wells s);
     completions := completions s |}.

(** Modelled from the spec: [addClosedCompletion] records the completion of
    the well as closed. *)
Definition addClosedCompletion (well_name : string) (complnum : Z) (sim_time : float)
  (s : WellTestState) : WellTestState :=
  {| wells := wells s;
     completions :=
       <[(well_name, complnum) :=
           {| completion_closed := true; completion_last_test := sim_time |}]> (completions s) |}.

(** Modelled from the spec: [hasCompletion] tells whether the completion of
    the well is recorded closed. *)
Definition hasCompletion (well_name : string) (complnum : Z) (s : WellTestState) : bool :=
  match completions s !! (well_name, complnum) with
  | Some c => completion_closed c
  | None => false
  end.

(** Modelled from the spec: [hasWellClosed] tells whether the well is
    recorded closed for the reason. *)
Definition hasWellClosed (well_name : string) (r : Reason.t) (s : WellTestState) : bool :=
  match wells s !! well_name with
  | Some w => closed w && bool_decide (reason w = r)
  | None => false
  end.

(** ** The report of the ratio checks *)

(** Modelled from the spec: [RatioLimitCheckReport] is the transient result
    {violated, worst completion id, violation extent}; the header of the
    class, outside this file, declares it with the initial values not
    violated, [INVALIDCOMPLETION] and 0. *)
Record RatioLimitCheckReport : Type := {
  ratio_limit_violated : bool;
  worst_offending_completion : Z;
  violation_extent : float
}.

Definition RatioLimitCheckReport_init : RatioLimitCheckReport :=
  {| ratio_limit_violated := false;
     worst_offending_completion := INVALIDCOMPLETION;
     violation_extent := 0%float |}.

(** A [const double*] into a vector: the elements from the one pointed to. *)
Definition ptr_at (v : list float) (i : Z) : Result (list float) :=
  if i <? 0 then Abort OutOfRange
  else if (Z.to_nat i <=? length v)%nat then Ok (drop (Z.to_nat i) v)
  else Abort OutOfRange.

(** ** The ratio evaluators *)

(** The lambda [waterCut] of [checkMaxWaterCutLimit] (source lines 612-627). *)
Definition waterCut (rates : list float) (pu : PhaseUsage) : Result float :=
  oil_rate <- at_ rates (phase_pos pu Oil) ;;
  water_rate <- at_ rates (phase_pos pu Water) ;;
  _ <- assert (fge (oil_rate * water_rate)%float 0%float) ;;
  let liquid_rate := (oil_rate + water_rate)%float in
  if fne liquid_rate 0%float then Ok (water_rate / liquid_rate)%float
  else Ok 0%float.

(** The lambda [gor] of [checkMaxGORLimit] (source lines 651-673). *)
Definition gor (rates : list float) (pu : PhaseUsage) : Result float :=
  oil_rate <- at_ rates (phase_pos pu Oil) ;;
  gas_rate <- at_ rates (phase_pos pu Gas) ;;
  _ <- assert (fge (oil_rate * gas_rate)%float 0%float) ;;
  let gas_oil_ratio := 0%float in
  let gas_oil_ratio :=
    if fne oil_rate 0%float then (gas_rate / oil_rate)%float
    else if fne gas_rate 0%float then 1e100%float
         else 0%float in
  Ok gas_oil_ratio.

(** The lambda [wgr] of [checkMaxWGRLimit] (source lines 697-719). *)
Definition wgr (rates : list float) (pu : PhaseUsage) : Result float :=
  water_rate <- at_ rates (phase_pos pu Water) ;;
  gas_rate <- at_ rates (phase_pos pu Gas) ;;
  _ <- assert (fge (water_rate * gas_rate)%float 0%float) ;;
  let water_gas_ratio := 0%float in
  let water_gas_ratio :=
    if fne gas_rate 0%float then (water_rate / gas_rate)%float
    else if fne water_rate 0%float then 1e100%float
         else 0%float in
  Ok water_gas_ratio.

(** ** The economic limit evaluator and the worst-offender selector *)

Section EconomicLimits.
Context {SummaryState GuideRate : Type}.
Variable this : WellInterfaceFluidSystem SummaryState GuideRate.

(** [checkRateEconLimits] (source lines 555-599); [rates_or_potentials] is
    the vector the pointer of the source points into. *)
Definition checkRateEconLimits
  (econ_production_limits : WellEconProductionLimits.t)
  (rates_or_potentials : list float) (deferred_logger : DeferredLogger)
  : Result (bool * DeferredLogger) :=
  let pu := phaseUsage this in
  r <- ((if WellEconProductionLimits.onMinOilRate econ_production_limits then
           _ <- assert (FluidSystem_phaseIsActive this Oil) ;;
           oil_rate <- at_ rates_or_potentials (phase_pos pu Oil) ;;
           let min_oil_rate := WellEconProductionLimits.minOilRate econ_production_limits in
           if flt (abs oil_rate) min_oil_rate then Ok (Return (true, deferred_logger))
           else Ok Continue
         else Ok Continue) ;;;
        (if WellEconProductionLimits.onMinGasRate econ_production_limits then
           _ <- assert (FluidSystem_phaseIsActive this Gas) ;;
           gas_rate <- at_ rates_or_potentials (phase_pos pu Gas) ;;
           let min_gas_rate := WellEconProductionLimits.minGasRate econ_production_limits in
           if flt (abs gas_rate) min_gas_rate then Ok (Return (true, deferred_logger))
           else Ok Continue
         else Ok Continue) ;;;
        (if WellEconProductionLimits.onMinLiquidRate econ_production_limits then
           _ <- assert (FluidSystem_phaseIsActive this Oil) ;;
           _ <- assert (FluidSystem_phaseIsActive this Water) ;;
           oil_rate <- at_ rates_or_potentials (phase_pos pu Oil) ;;
           water_rate <- at_ rates_or_potentials (phase_pos pu Water) ;;
           let liquid_rate := (oil_rate + water_rate)%float in
           let min_liquid_rate := WellEconProductionLimits.minLiquidRate econ_production_limits in
           if flt (abs liquid_rate) min_liquid_rate then Ok (Return (true, deferred_logger))
           else Ok Continue
         else Ok Continue)) ;;
  match r with
  | Return x => Ok x
  | Continue =>
      let deferred_logger :=
        if WellEconProductionLimits.onMinReservoirFluidRate econ_production_limits
        then warning "NOT_SUPPORTING_MIN_RESERVOIR_FLUID_RATE"
               "Minimum reservoir fluid production rate limit is not supported yet"
               deferred_logger
        else deferred_logger in
      Ok (false, deferred_logger)
  end.

(** [checkMaxRatioLimitWell] (source lines 988-1006). *)
Definition checkMaxRatioLimitWell
  (well_state : WellState) (max_ratio_limit : float)
  (ratioFunc : list float -> PhaseUsage -> Result float) : Result bool :=
  let np := number_of_phases_ this in
  well_rates <-
    for_upto np (fun p well_rates =>
      rates <- wellRates well_state (index_of_well_ this) ;;
      r <- at_ rates p ;;
      set_at well_rates p r) (replicate np 0%float) ;;
  well_ratio <- ratioFunc well_rates (phaseUsage this) ;;
  Ok (fgt well_ratio max_ratio_limit).

(** The rates of one completion: the inner loops of
    [checkMaxRatioLimitCompletions] over the connections of the completion
    and the phases, then the sum over the processes (source lines
    957-968). *)
Definition completionRates (perf_phase_rates : list float) (conns : list Z)
  : Result (list float) :=
  let np := number_of_phases_ this in
  completion_rates <-
    foldM (fun c completion_rates =>
      for_upto np (fun p completion_rates =>
        connection_rate <- at_ perf_phase_rates (c * Z.of_nat np + p) ;;
        old <- at_ completion_rates p ;;
        set_at completion_rates p (old + connection_rate)%float) completion_rates)
      conns (replicate np 0%float) ;;
  Ok (communication_sum (parallel_well_info_ this) completion_rates).

(** One turn of the loop over [completions_] (source lines 956-975): the
    state is the pair [(worst_offending_completion, max_ratio_completion)]. *)
Definition scanCompletion (perf_phase_rates : list float)
  (ratioFunc : list float -> PhaseUsage -> Result float)
  (completion : Z * list Z) (st : Z * float) : Result (Z * float) :=
  let worst_offending_completion := fst st in
  let max_ratio_completion := snd st in
  completion_rates <- completionRates perf_phase_rates (snd completion) ;;
  ratio_completion <- ratioFunc completion_rates (phaseUsage this) ;;
  if fgt ratio_completion max_ratio_completion
  then Ok (fst completion, ratio_completion)
  else Ok (worst_offending_completion, max_ratio_completion).

(** [checkMaxRatioLimitCompletions] (source lines 939-986). *)
Definition checkMaxRatioLimitCompletions
  (well_state : WellState) (max_ratio_limit : float)
  (ratioFunc : list float -> PhaseUsage -> Result float)
  (report : RatioLimitCheckReport) : Result RatioLimitCheckReport :=
  let worst_offending_completion := INVALIDCOMPLETION in
  let max_ratio_completion := 0%float in
  let np := number_of_phases_ this in
  perf_phase_rates <-
    ptr_at (ws_perfPhaseRates well_state) (first_perf_ this * Z.of_nat np) ;;
  st <- foldM (scanCompletion perf_phase_rates ratioFunc) (completions_ this)
          (worst_offending_completion, max_ratio_completion) ;;
  let worst_offending_completion := fst st in
  let max_ratio_completion := snd st in
  _ <- assert (fgt max_ratio_completion max_ratio_limit) ;;
  _ <- assert (bool_decide (worst_offending_completion ≠ INVALIDCOMPLETION)) ;;
  let violation_extent_ := (max_ratio_completion / max_ratio_limit)%float in
  _ <- assert (fgt violation_extent_ 1%float) ;;
  if fgt violation_extent_ (violation_extent report) then
    Ok {| ratio_limit_violated := ratio_limit_violated report;
          worst_offending_completion := worst_offending_completion;
          violation_extent := violation_extent_ |}
  else Ok report.

(** The common tail of [checkMaxWaterCutLimit], [checkMaxGORLimit] and
    [checkMaxWGRLimit]: the assertion on the limit, the check on the well and,
    when it is violated, the flag and the scan of the completions. *)
Definition checkMaxRatioLimit
  (max_ratio_limit : float) (ratioFunc : list float -> PhaseUsage -> Result float)
  (well_state : WellState) (report : RatioLimitCheckReport)
  : Result RatioLimitCheckReport :=
  _ <- assert (fgt max_ratio_limit 0%float) ;;
  limit_violated <- checkMaxRatioLimitWell well_state max_ratio_limit ratioFunc ;;
  if limit_violated then
    let report :=
      {| ratio_limit_violated := true;
         worst_offending_completion := worst_offending_completion report;
         violation_extent := violation_extent report |} in
    checkMaxRatioLimitCompletions well_state max_ratio_limit ratioFunc report
  else Ok report.

(** [checkMaxWaterCutLimit] (source lines 601-638). *)
Definition checkMaxWaterCutLimit
  (econ_production_limits : WellEconProductionLimits.t)
  (well_state : WellState) (report : RatioLimitCheckReport) : Result RatioLimitCheckReport :=
  _ <- assert (FluidSystem_phaseIsActive this Oil) ;;
  _ <- assert (FluidSystem_phaseIsActive this Water) ;;
  let max_water_cut_limit := WellEconProductionLimits.maxWaterCut econ_production_limits in
  checkMaxRatioLimit max_water_cut_limit waterCut well_state report.

(** [checkMaxGORLimit] (source lines 640-684). *)
Definition checkMaxGORLimit
  (econ_production_limits : WellEconProductionLimits.t)
  (well_state : WellState) (report : RatioLimitCheckReport) : Result RatioLimitCheckReport :=
  _ <- assert (FluidSystem_phaseIsActive this Oil) ;;
  _ <- assert (FluidSystem_phaseIsActive this Gas) ;;
  let max_gor_limit := WellEconProductionLimits.maxGasOilRatio econ_production_limits in
  checkMaxRatioLimit max_gor_limit gor well_state report.

(** [checkMaxWGRLimit] (source lines 686-730). *)
Definition checkMaxWGRLimit
  (econ_production_limits : WellEconProductionLimits.t)
  (well_state : WellState) (report : RatioLimitCheckReport) : Result RatioLimitCheckReport :=
  _ <- assert (FluidSystem_phaseIsActive this Water) ;;
  _ <- assert (FluidSystem_phaseIsActive this Gas) ;;
  let max_wgr_limit := WellEconProductionLimits.maxWaterGasRatio econ_production_limits in
  checkMaxRatioLimit max_wgr_limit wgr well_state report.

(** [checkRatioEconLimits] (source lines 732-768). *)
Definition checkRatioEconLimits
  (econ_production_limits : WellEconProductionLimits.t)
  (well_state : WellState) (report : RatioLimitCheckReport)
  (deferred_logger : DeferredLogger) : Result (RatioLimitCheckReport * DeferredLogger) :=
  report <-
    (if WellEconProductionLimits.onMaxWaterCut econ_production_limits
     then checkMaxWaterCutLimit econ_production_limits well_state report
     else Ok report) ;;
  report <-
    (if WellEconProductionLimits.onMaxGasOilRatio econ_production_limits
     then checkMaxGORLimit econ_production_limits well_state report
     else Ok report) ;;
  report <-
    (if WellEconProductionLimits.onMaxWaterGasRatio econ_production_limits
     then checkMaxWGRLimit econ_production_limits well_state report
     else Ok report) ;;
  let deferred_logger :=
    if WellEconProductionLimits.onMaxGasLiquidRatio econ_production_limits
    then warning "NOT_SUPPORTING_MAX_GLR"
           "the support for max Gas-Liquid ratio is not implemented yet!" deferred_logger
    else deferred_logger in
  _ <- (if ratio_limit_violated report then
          _ <- assert (bool_decide (worst_offending_completion report ≠ INVALIDCOMPLETION)) ;;
          assert (fgt (violation_extent report) 1%float)
        else Ok tt) ;;
  Ok (report, deferred_logger).

(** The loop of the CON branch of [updateWellTestStateEconomic] (source
    lines 860-867): no open connection is left whose completion is not
    recorded closed. *)
Definition allCompletionsClosed (well_test_state : WellTestState) : bool :=
  foldl (fun allCompletionsClosed connection =>
           if bool_decide (Connection.state connection = ConnectionState.OPEN)
              && negb (hasCompletion (name this) (Connection.complnum connection)
                         well_test_state)
           then false
           else allCompletionsClosed)
    true (Well.getConnections (well_ecl_ this)).

(** [updateWellTestStateEconomic] (source lines 770-907). *)
Definition updateWellTestStateEconomic
  (well_state : WellState) (simulation_time : float) (write_message_to_opmlog : bool)
  (well_test_state : WellTestState) (deferred_logger : DeferredLogger)
  : Result (WellTestState * DeferredLogger) :=
  if wellIsStopped this then Ok (well_test_state, deferred_logger)
  else
  let econ_production_limits := Well.getEconLimits (well_ecl_ this) in
  if negb (WellEconProductionLimits.onAnyEffectiveLimit econ_production_limits)
  then Ok (well_test_state, deferred_logger)
  else
  let rate_limit_violated := false in
  let quantity_limit := WellEconProductionLimits.quantityLimit econ_production_limits in
  let np := number_of_phases_ this in
  rl <-
    (if WellEconProductionLimits.onAnyRateLimit econ_production_limits then
       match quantity_limit with
       | QuantityLimit.POTN =>
           potentials <- ptr_at (ws_wellPotentials well_state)
                           (index_of_well_ this * Z.of_nat np) ;;
           checkRateEconLimits econ_production_limits potentials deferred_logger
       | _ =>
           rates <- wellRates well_state (index_of_well_ this) ;;
           checkRateEconLimits econ_production_limits rates deferred_logger
       end
     else Ok (rate_limit_violated, deferred_logger)) ;;
  let rate_limit_violated := fst rl in
  let deferred_logger := snd rl in
  if rate_limit_violated then
    let deferred_logger :=
      if WellEconProductionLimits.endRun econ_production_limits then
        let warning_message :=
          "ending run after well closed due to economic limits"
          +:+ "is not supported yet " +:+ newline
          +:+ "the program will keep running after " +:+ name this
          +:+ " is closed" in
        warning "NOT_SUPPORTING_ENDRUN" warning_message deferred_logger
      else deferred_logger in
    let deferred_logger :=
      if WellEconProductionLimits.validFollowonWell econ_production_limits then
        warning "NOT_SUPPORTING_FOLLOWONWELL"
          "opening following on well after well closed is not supported yet" deferred_logger
      else deferred_logger in
    let well_test_state := closeWell (name this) Reason.ECONOMIC simulation_time well_test_state in
    let deferred_logger :=
      if write_message_to_opmlog then
        if Well.getAutomaticShutIn (well_ecl_ this) then
          info ("well " +:+ name this +:+ " will be shut due to rate economic limit")
            deferred_logger
        else
          info ("well " +:+ name this +:+ " will be stopped due to rate economic limit")
            deferred_logger
      else deferred_logger in
    Ok (well_test_state, deferred_logger)
  else
  if negb (WellEconProductionLimits.onAnyRatioLimit econ_production_limits)
  then Ok (well_test_state, deferred_logger)
  else
  rr <- checkRatioEconLimits econ_production_limits well_state RatioLimitCheckReport_init
          deferred_logger ;;
  let ratio_report := fst rr in
  let deferred_logger := snd rr in
  if ratio_limit_violated ratio_report then
    let workover := WellEconProductionLimits.workover econ_production_limits in
    match workover with
    | EconWorkover.CON =>
        let worst_offending_completion := worst_offending_completion ratio_report in
        let well_test_state :=
          addClosedCompletion (name this) worst_offending_completion simulation_time
            well_test_state in
        let deferred_logger :=
          if write_message_to_opmlog then
            if worst_offending_completion <? 0 then
              info ("Connection " +:+ to_string (- worst_offending_completion)
                    +:+ " for well " +:+ name this
                    +:+ " will be closed due to economic limit") deferred_logger
            else
              info ("Completion " +:+ to_string worst_offending_completion
                    +:+ " for well " +:+ name this
                    +:+ " will be closed due to economic limit") deferred_logger
          else deferred_logger in
        if allCompletionsClosed well_test_state then
          let well_test_state :=
            closeWell (name this) Reason.ECONOMIC simulation_time well_test_state in
          let deferred_logger :=
            if write_message_to_opmlog then
              if Well.getAutomaticShutIn (well_ecl_ this) then
                info (name this +:+ " will be shut due to last completion closed")
                  deferred_logger
              else
                info (name this +:+ " will be stopped due to last completion closed")
                  deferred_logger
            else deferred_logger in
          Ok (well_test_state, deferred_logger)
        else Ok (well_test_state, deferred_logger)
    | EconWorkover.WELL =>
        let well_test_state :=
          closeWell (name this) Reason.ECONOMIC simulation_time well_test_state in
        let deferred_logger :=
          if write_message_to_opmlog then
            if Well.getAutomaticShutIn (well_ecl_ this) then
              info (name this +:+ " will be shut due to ratio economic limit") deferred_logger
            else
              info (name this +:+ " will be stopped due to ratio economic limit")
                deferred_logger
          else deferred_logger in
        Ok (well_test_state, deferred_logger)
    | EconWorkover.NONE => Ok (well_test_state, deferred_logger)
    | _ =>
        Ok (well_test_state,
            warning "NOT_SUPPORTED_WORKOVER_TYPE"
              ("not supporting workover type " +:+ EconWorkover2String workover)
              deferred_logger)
    end
  else Ok (well_test_state, deferred_logger).

End EconomicLimits.


(** ** The well-test-state updater *)

Section WellTestStateUpdater.
Context {SummaryState GuideRate : Type}.
Variable this : WellInterfaceFluidSystem SummaryState GuideRate.

(** [underPredictionMode()] and [updateWellTestStatePhysical] are methods of
    the base class, defined outside this file: the first is a flag of the
    well here, the second a collaborator that returns the ledger and the
    logger it leaves. *)
Variable underPredictionMode : bool.
Variable updateWellTestStatePhysical :
  WellState -> float -> bool -> WellTestState -> DeferredLogger ->
  Result (WellTestState * DeferredLogger).

(** [updateWellTestState] (source lines 909-937). *)
Definition updateWellTestState
  (well_state : WellState) (simulationTime : float) (writeMessageToOPMLog : bool)
  (wellTestState : WellTestState) (deferred_logger : DeferredLogger)
  : Result (WellTestState * DeferredLogger) :=
  if Well.isInjector (well_ecl_ this) then Ok (wellTestState, deferred_logger)
  else
  if negb underPredictionMode then Ok (wellTestState, deferred_logger)
  else
  r <- updateWellTestStatePhysical well_state simulationTime writeMessageToOPMLog
         wellTestState deferred_logger ;;
  updateWellTestStateEconomic this well_state simulationTime writeMessageToOPMLog
    (fst r) (snd r).

End WellTestStateUpdater.
(** ** Concrete configurations

    A three-phase black-oil run on one process, with a rate converter whose
    reservoir-voidage rates are the surface rates, and the schedule types
    reduced to [unit]. *)

Definition pu3 : PhaseUsage :=
  {| num_phases := 3;
     phase_used := fun _ => true;
     phase_pos := fun p => match p with Aqua => 0 | Liquid => 1 | Vapour => 2 end |}.

Definition converter_id : RateConverter :=
  {| calcReservoirVoidageRates := fun _ _ surface_rates _ => surface_rates;
     calcCoeff := fun _ _ coeff => coeff |}.

Definition one_process : ParallelWellInfo :=
  {| communication_sum := fun v => v |}.

(** A group helper that reports the pair it is given and logs nothing. *)
Definition ext_reporting (violated : bool) (scale : float)
  : Externals unit unit unit unit unit :=
  {| getGroup := fun _ _ _ => tt;
     WellGroupHelpers_checkGroupConstraintsInj :=
       fun _ _ _ _ _ _ _ _ _ _ _ _ _ _ log => ((violated, scale), log);
     WellGroupHelpers_checkGroupConstraintsProd :=
       fun _ _ _ _ _ _ _ _ _ _ _ _ _ log => ((violated, scale), log) |}.

Definition no_econ_limits : WellEconProductionLimits.t :=
  {| WellEconProductionLimits.onAnyEffectiveLimit := false;
     WellEconProductionLimits.onAnyRateLimit := false;
     WellEconProductionLimits.onAnyRatioLimit := false;
     WellEconProductionLimits.onMinOilRate := false;
     WellEconProductionLimits.minOilRate := 0;
     WellEconProductionLimits.onMinGasRate := false;
     WellEconProductionLimits.minGasRate := 0;
     WellEconProductionLimits.onMinLiquidRate := false;
     WellEconProductionLimits.minLiquidRate := 0;
     WellEconProductionLimits.onMinReservoirFluidRate := false;
     WellEconProductionLimits.onMaxWaterCut := false;
     WellEconProductionLimits.maxWaterCut := 0;
     WellEconProductionLimits.onMaxGasOilRatio := false;
     WellEconProductionLimits.maxGasOilRatio := 0;
     WellEconProductionLimits.onMaxWaterGasRatio := false;
     WellEconProductionLimits.maxWaterGasRatio := 0;
     WellEconProductionLimits.onMaxGasLiquidRatio := false;
     WellEconProductionLimits.quantityLimit := QuantityLimit.RATE;
     WellEconProductionLimits.endRun := false;
     WellEconProductionLimits.validFollowonWell := false;
     WellEconProductionLimits.workover := EconWorkover.NONE |}.

(** A water-cut limit of 0.5 with the given workover. *)
Definition water_cut_limit (w : EconWorkover.t) : WellEconProductionLimits.t :=
  {| WellEconProductionLimits.onAnyEffectiveLimit := true;
     WellEconProductionLimits.onAnyRateLimit := false;
     WellEconProductionLimits.onAnyRatioLimit := true;
     WellEconProductionLimits.onMinOilRate := false;
     WellEconProductionLimits.minOilRate := 0;
     WellEconProductionLimits.onMinGasRate := false;
     WellEconProductionLimits.minGasRate := 0;
     WellEconProductionLimits.onMinLiquidRate := false;
     WellEconProductionLimits.minLiquidRate := 0;
     WellEconProductionLimits.onMinReservoirFluidRate := false;
     WellEconProductionLimits.onMaxWaterCut := true;
     WellEconProductionLimits.maxWaterCut := 0.5;
     WellEconProductionLimits.onMaxGasOilRatio := false;
     WellEconProductionLimits.maxGasOilRatio := 0;
     WellEconProductionLimits.onMaxWaterGasRatio := false;
     WellEconProductionLimits.maxWaterGasRatio := 0;
     WellEconProductionLimits.onMaxGasLiquidRatio := false;
     WellEconProductionLimits.quantityLimit := QuantityLimit.RATE;
     WellEconProductionLimits.endRun := false;
     WellEconProductionLimits.validFollowonWell := false;
     WellEconProductionLimits.workover := w |}.

(** A minimum oil rate of 10 next to a water-cut limit of 0.5. *)
Definition min_oil_and_water_cut : WellEconProductionLimits.t :=
  {| WellEconProductionLimits.onAnyEffectiveLimit := true;
     WellEconProductionLimits.onAnyRateLimit := true;
     WellEconProductionLimits.onAnyRatioLimit := true;
     WellEconProductionLimits.onMinOilRate := true;
     WellEconProductionLimits.minOilRate := 10;
     WellEconProductionLimits.onMinGasRate := false;
     WellEconProductionLimits.minGasRate := 0;
     WellEconProductionLimits.onMinLiquidRate := false;
     WellEconProductionLimits.minLiquidRate := 0;
     WellEconProductionLimits.onMinReservoirFluidRate := false;
     WellEconProductionLimits.onMaxWaterCut := true;
     WellEconProductionLimits.maxWaterCut := 0.5;
     WellEconProductionLimits.onMaxGasOilRatio := false;
     WellEconProductionLimits.maxGasOilRatio := 0;
     WellEconProductionLimits.onMaxWaterGasRatio := false;
     WellEconProductionLimits.maxWaterGasRatio := 0;
     WellEconProductionLimits.onMaxGasLiquidRatio := false;
     WellEconProductionLimits.quantityLimit := QuantityLimit.RATE;
     WellEconProductionLimits.endRun := false;
     WellEconProductionLimits.validFollowonWell := false;
     WellEconProductionLimits.workover := EconWorkover.CON |}.

(** Injection controls with the given set of limits: BHP 300, surface rate
    1000, reservoir rate 100, for a water injector. *)
Definition injection_controls (has : InjectorCMode.t -> bool) : InjectionControls.t :=
  {| InjectionControls.hasControl := has;
     InjectionControls.bhp_limit := 300;
     InjectionControls.surface_rate := 1000;
     InjectionControls.reservoir_rate := 100;
     InjectionControls.injector_type := InjectorType.WATER |}.

(** Production controls with the given set of limits: BHP 100, oil rate 500,
    the other rates 1000, in prediction mode. *)
Definition production_controls (has : ProducerCMode.t -> bool) : ProductionControls.t :=
  {| ProductionControls.hasControl := has;
     ProductionControls.bhp_limit := 100;
     ProductionControls.oil_rate := 500;
     ProductionControls.water_rate := 1000;
     ProductionControls.gas_rate := 1000;
     ProductionControls.liquid_rate := 1000;
     ProductionControls.resv_rate := 1000;
     ProductionControls.prediction_mode := true |}.

(** Three open connections, one per completion 1, 2, 3. *)
Definition three_connections : list Connection.t :=
  [ {| Connection.state := ConnectionState.OPEN; Connection.complnum := 1 |};
    {| Connection.state := ConnectionState.OPEN; Connection.complnum := 2 |};
    {| Connection.state := ConnectionState.OPEN; Connection.complnum := 3 |} ].

Definition example_well (r : WellRole) (has_inj : InjectorCMode.t -> bool)
  (has_prod : ProducerCMode.t -> bool) (econ : WellEconProductionLimits.t)
  (conns : list Connection.t) : Well.t unit :=
  {| Well.name := "W1";
     Well.groupName := "G1";
     Well.role := r;
     Well.injectionControls := fun _ => injection_controls has_inj;
     Well.productionControls := fun _ => production_controls has_prod;
     Well.getEfficiencyFactor := 1;
     Well.getEconLimits := econ;
     Well.getConnections := conns;
     Well.getAutomaticShutIn := true |}.

(** The interface of well 0 of the run, whose perforations start at the
    beginning of the perforation table. *)
Definition interface_of (w : Well.t unit) (compls : list (Z * list Z)) (stopped : bool)
  : WellInterfaceFluidSystem unit unit :=
  {| well_ecl_ := w;
     parallel_well_info_ := one_process;
     current_step_ := 0;
     pvtRegionIdx_ := 0;
     number_of_phases_ := 3;
     index_of_well_ := 0;
     first_perf_ := 0;
     completions_ := compls;
     guide_rate_ := tt;
     rateConverter_ := converter_id;
     phaseUsage := pu3;
     wellIsStopped := stopped;
     getTHPConstraint := fun _ => 500%float;
     FluidSystem_phaseIsActive := fun _ => true |}.

(** The same with three completions 1, 2, 3 of one perforation each. *)
Definition example_interface (w : Well.t unit) (stopped : bool)
  : WellInterfaceFluidSystem unit unit :=
  interface_of w [(1, [0]); (2, [1]); (3, [2])] stopped.

(** A state of one well with the given surface rates, reservoir rates,
    pressures, control modes and perforation rates. *)
Definition example_state (rates resv : list float) (bhp_ thp_ : float)
  (inj : InjectorCMode.t) (prod : ProducerCMode.t) (perf : list float) : WellState :=
  {| ws_wellRates := [rates];
     ws_wellReservoirRates := [resv];
     ws_bhp := [bhp_];
     ws_thp := [thp_];
     ws_currentInjectionControl := [inj];
     ws_currentProductionControl := [prod];
     ws_numPhases := 3;
     ws_wellPotentials := rates;
     ws_perfPhaseRates := perf |}.

Definition empty_ledger : WellTestState := {| wells := ∅; completions := ∅ |}.

(** An injector on RATE control whose reservoir rate 120 exceeds the limit
    100, with BHP 200 under its limit 300 and THP 100 under the limit 500. *)
Definition injector_RESV : WellInterfaceFluidSystem unit unit :=
  example_interface
    (example_well Injector (fun _ => true) (fun _ => false) no_econ_limits three_connections)
    false.
Definition injector_RESV_state : WellState :=
  example_state [120; 0; 0]%float [120; 0; 0]%float 200 100
    InjectorCMode.RATE ProducerCMode.ORAT [].

(** The same injector with the reservoir rate 80 under its limit and a THP of
    600 over the limit 500. *)
Definition injector_THP_state : WellState :=
  example_state [80; 0; 0]%float [80; 0; 0]%float 200 600
    InjectorCMode.RATE ProducerCMode.ORAT [].

(** The same injector with a BHP of 400 over its limit 300 and a surface rate
    of 2000 over its limit 1000, on GRUP control. *)
Definition injector_BHP_RATE_state : WellState :=
  example_state [2000; 0; 0]%float [80; 0; 0]%float 400 100
    InjectorCMode.GRUP ProducerCMode.ORAT [].

(** A producer on ORAT control within all its limits: oil rate 200 of 500,
    BHP 150 over the minimum 100. *)
Definition producer_ok : WellInterfaceFluidSystem unit unit :=
  example_interface
    (example_well Producer (fun _ => false) (fun _ => true) no_econ_limits three_connections)
    false.
Definition producer_ok_state : WellState :=
  example_state [-100; -200; -300]%float [-100; -200; -300]%float 150 600
    InjectorCMode.RATE ProducerCMode.ORAT [].

(** A producer with the water-cut limit 0.5 whose three completions have the
    water-cuts 0.3, 0.9 and 0.6 (water, oil, gas rates per perforation); the
    water-cut of the well is 0.6. *)
Definition producer_water_cut (w : EconWorkover.t) (conns : list Connection.t)
  : WellInterfaceFluidSystem unit unit :=
  example_interface
    (example_well Producer (fun _ => false) (fun _ => true) (water_cut_limit w) conns)
    false.
Definition producer_water_cut_state : WellState :=
  example_state [-18; -12; 0]%float [-18; -12; 0]%float 150 600
    InjectorCMode.RATE ProducerCMode.ORAT
    [-3; -7; 0; -9; -1; 0; -6; -4; 0]%float.

(** A producer whose oil rate 5 is under the minimum 10 and whose water-cut
    0.8 is over the limit 0.5. *)
Definition producer_min_oil : WellInterfaceFluidSystem unit unit :=
  example_interface
    (example_well Producer (fun _ => false) (fun _ => true) min_oil_and_water_cut
       three_connections)
    false.
Definition producer_min_oil_state : WellState :=
  example_state [-20; -5; 0]%float [-20; -5; 0]%float 150 600
    InjectorCMode.RATE ProducerCMode.ORAT
    [-3; -2; 0; -9; -1; 0; -8; -2; 0]%float.



(** The injector in a state whose reservoir rates (50, 30, 40) are not yet
    those the converter gives for its surface rates (120, 0, 0). *)
Definition stale_reservoir_state : WellState :=
  example_state [120; 0; 0]%float [50; 30; 40]%float 200 100
    InjectorCMode.RATE ProducerCMode.ORAT [].

(** A producer with two completions of one perforation each, the water-cut
    limit 0.5 and the CON workover. In the first state the completions have
    the water-cuts 0.9 and 0.6; in the second, completion 1 flows nothing any
    more and completion 2 still has the water-cut 0.6. *)
Definition two_connections : list Connection.t :=
  [ {| Connection.state := ConnectionState.OPEN; Connection.complnum := 1 |};
    {| Connection.state := ConnectionState.OPEN; Connection.complnum := 2 |} ].

Definition two_completion_producer : WellInterfaceFluidSystem unit unit :=
  interface_of
    (example_well Producer (fun _ => false) (fun _ => true)
       (water_cut_limit EconWorkover.CON) two_connections)
    [(1, [0]); (2, [1])] false.

Definition first_closure_state : WellState :=
  example_state [-15; -5; 0]%float [-15; -5; 0]%float 150 600
    InjectorCMode.RATE ProducerCMode.ORAT [-9; -1; 0; -6; -4; 0]%float.

Definition second_closure_state : WellState :=
  example_state [-6; -4; 0]%float [-6; -4; 0]%float 150 600
    InjectorCMode.RATE ProducerCMode.ORAT [0; 0; 0; -6; -4; 0]%float.

(** The producer with the water-cut limit 0.5 in a state whose three
    completions have the water-cuts 0.9, 0.9 and 0.6. *)
Definition tied_completions_state : WellState :=
  example_state [-24; -6; 0]%float [-24; -6; 0]%float 150 600
    InjectorCMode.RATE ProducerCMode.ORAT
    [-9; -1; 0; -9; -1; 0; -6; -4; 0]%float.

(** A water-cut limit of 0.5 and a gas-oil ratio limit of 0.5. *)
Definition water_cut_and_gor_limits : WellEconProductionLimits.t :=
  {| WellEconProductionLimits.onAnyEffectiveLimit := true;
     WellEconProductionLimits.onAnyRateLimit := false;
     WellEconProductionLimits.onAnyRatioLimit := true;
     WellEconProductionLimits.onMinOilRate := false;
     WellEconProductionLimits.minOilRate := 0;
     WellEconProductionLimits.onMinGasRate := false;
     WellEconProductionLimits.minGasRate := 0;
     WellEconProductionLimits.onMinLiquidRate := false;
     WellEconProductionLimits.minLiquidRate := 0;
     WellEconProductionLimits.onMinReservoirFluidRate := false;
     WellEconProductionLimits.onMaxWaterCut := true;
     WellEconProductionLimits.maxWaterCut := 0.5;
     WellEconProductionLimits.onMaxGasOilRatio := true;
     WellEconProductionLimits.maxGasOilRatio := 0.5;
     WellEconProductionLimits.onMaxWaterGasRatio := false;
     WellEconProductionLimits.maxWaterGasRatio := 0;
     WellEconProductionLimits.onMaxGasLiquidRatio := false;
     WellEconProductionLimits.quantityLimit := QuantityLimit.RATE;
     WellEconProductionLimits.endRun := false;
     WellEconProductionLimits.validFollowonWell := false;
     WellEconProductionLimits.workover := EconWorkover.CON |}.

(** A producer with both limits and two completions: completion 1 has the
    water-cut 0.9 and the gas-oil ratio 0.2, completion 2 the water-cut 1/11
    and the gas-oil ratio 0.9; both kinds are violated on the well and both
    have the violation extent 1.8. *)
Definition tied_kinds_producer : WellInterfaceFluidSystem unit unit :=
  interface_of
    (example_well Producer (fun _ => false) (fun _ => true) water_cut_and_gor_limits
       two_connections)
    [(1, [0]); (2, [1])] false.

Definition tied_kinds_state : WellState :=
  example_state [-46; -15; -10]%float [-46; -15; -10]%float 150 600
    InjectorCMode.RATE ProducerCMode.ORAT
    [-45; -5; -1; -1; -10; -9]%float.

(** ** Further configurations *)

(** A water injector of an unrecognized injector type: the controls of
    [injection_controls] with the type MULTI. *)
Definition injection_controls_multi (has : InjectorCMode.t -> bool) : InjectionControls.t :=
  {| InjectionControls.hasControl := has;
     InjectionControls.bhp_limit := 300;
     InjectionControls.surface_rate := 1000;
     InjectionControls.reservoir_rate := 100;
     InjectionControls.injector_type := InjectorType.MULTI |}.

Definition multi_injector : WellInterfaceFluidSystem unit unit :=
  example_interface
    {| Well.name := "W1";
       Well.groupName := "G1";
       Well.role := Injector;
       Well.injectionControls := fun _ => injection_controls_multi (fun _ => true);
       Well.productionControls := fun _ => production_controls (fun _ => false);
       Well.getEfficiencyFactor := 1;
       Well.getEconLimits := no_econ_limits;
       Well.getConnections := three_connections;
       Well.getAutomaticShutIn := true |}
    false.

(** The producer with the water-cut limit 0.5 and no completion at all. *)
Definition producer_without_completions : WellInterfaceFluidSystem unit unit :=
  interface_of
    (example_well Producer (fun _ => false) (fun _ => true)
       (water_cut_limit EconWorkover.CON) [])
    [] false.

(** A state whose well rates give the water-cut 0.6 while its three
    completions have the water-cuts 0.3, 0.4 and 0.5. *)
Definition inconsistent_state : WellState :=
  example_state [-18; -12; 0]%float [-18; -12; 0]%float 150 600
    InjectorCMode.RATE ProducerCMode.ORAT
    [-3; -7; 0; -4; -6; 0; -5; -5; 0]%float.

(** A ledger in which another well, W2, is closed for a physical reason and
    has a closed completion, and completion 1 of W1 is closed. *)
Definition ledger_with_other_well : WellTestState :=
  addClosedCompletion "W1" 1 10
    (addClosedCompletion "W2" 4 5
       (closeWell "W2" Reason.PHYSICAL 5 empty_ledger)).

(** The injector of unrecognized type on BHP control, under its limits. *)
Definition multi_injector_state : WellState :=
  example_state [120; 0; 0]%float [80; 0; 0]%float 200 100
    InjectorCMode.BHP ProducerCMode.ORAT [].

(** A producer whose only configured control is ORAT, on ORAT control, in a
    state without any rate. *)
Definition producer_only_ORAT : WellInterfaceFluidSystem unit unit :=
  example_interface
    (example_well Producer (fun _ => false)
       (fun c => bool_decide (c = ProducerCMode.ORAT)) no_econ_limits three_connections)
    false.
Definition state_without_rates : WellState :=
  {| ws_wellRates := [];
     ws_wellReservoirRates := [];
     ws_bhp := [];
     ws_thp := [];
     ws_currentInjectionControl := [InjectorCMode.RATE];
     ws_currentProductionControl := [ProducerCMode.ORAT];
     ws_numPhases := 3;
     ws_wellPotentials := [];
     ws_perfPhaseRates := [] |}.

(** A physical update that closes the well for a physical reason and logs
    it. *)
Definition physical_closure (this : WellInterfaceFluidSystem unit unit)
  (well_state : WellState) (simulation_time : float) (write_message_to_opmlog : bool)
  (well_test_state : WellTestState) (deferred_logger : DeferredLogger)
  : Result (WellTestState * DeferredLogger) :=
  Ok (closeWell (name this) Reason.PHYSICAL simulation_time well_test_state,
      warning "PHYSICAL" "well closed on a physical limit" deferred_logger).

(** A physical update that empties the ledger and the log. *)
Definition physical_wipe
  (well_state : WellState) (simulation_time : float) (write_message_to_opmlog : bool)
  (well_test_state : WellTestState) (deferred_logger : DeferredLogger)
  : Result (WellTestState * DeferredLogger) :=
  Ok (empty_ledger, []).

(** A physical update that fails. *)
Definition physical_failure
  (well_state : WellState) (simulation_time : float) (write_message_to_opmlog : bool)
  (well_test_state : WellTestState) (deferred_logger : DeferredLogger)
  : Result (WellTestState * DeferredLogger) :=
  Abort OutOfRange.
(** * Definitions in the words of the spec *)

(** ** The priority order of the individual constraints *)

(** The fixed priority orders of the spec. *)
Definition injector_priority : list InjectorCMode.t :=
  [InjectorCMode.BHP; InjectorCMode.RATE; InjectorCMode.RESV; InjectorCMode.THP].

Definition producer_priority : list ProducerCMode.t :=
  [ProducerCMode.BHP; ProducerCMode.ORAT; ProducerCMode.WRAT; ProducerCMode.GRAT;
   ProducerCMode.LRAT; ProducerCMode.RESV; ProducerCMode.THP].

(** The first control of an order that fires, the controls being evaluated in
    the order and no further than the first that fires. *)
Fixpoint first_firing {C : Type} (fires : C -> Result bool) (order : list C)
  : Result (option C) :=
  match order with
  | [] => Ok None
  | c :: rest =>
      b <- fires c ;;
      if b then Ok (Some c) else first_firing fires rest
  end.

(** [c] fires and no control before it in the order does. *)
Definition highest_priority_firing {C : Type} (fires : C -> Result bool)
  (order : list C) (c : C) : Prop :=
  exists before after,
    order = before ++ c :: after
    /\ fires c = Ok true
    /\ Forall (fun c' => fires c' = Ok false) before.

Section PriorityOrder.
Context {SummaryState GuideRate : Type}.
Variable this : WellInterfaceFluidSystem SummaryState GuideRate.
Variable well_state : WellState.
Variable summaryState : SummaryState.

(** The direction rule of each injector control, in the words of the spec:
    BHP, limit under the current BHP; RATE, limit under the current rate of
    the injected phase; RESV, limit under the sum of the reservoir-voidage
    rates of the active phases; THP, limit under the current THP. *)
Definition injector_limit_exceeded (c : InjectorCMode.t) : Result bool :=
  let pu := phaseUsage this in
  let well_index := index_of_well_ this in
  let controls := Well.injectionControls (well_ecl_ this) summaryState in
  match c with
  | InjectorCMode.BHP =>
      current_bhp <- bhp well_state well_index ;;
      Ok (flt (InjectionControls.bhp_limit controls) current_bhp)
  | InjectorCMode.RATE =>
      current_rate <-
        match InjectionControls.injector_type controls with
        | InjectorType.WATER =>
            rates <- wellRates well_state well_index ;; at_ rates (phase_pos pu Aqua)
        | InjectorType.OIL =>
            rates <- wellRates well_state well_index ;; at_ rates (phase_pos pu Liquid)
        | InjectorType.GAS =>
            rates <- wellRates well_state well_index ;; at_ rates (phase_pos pu Vapour)
        | _ =>
            Abort (Thrown ("Expected WATER, OIL or GAS as type for injectors "
                           +:+ Well.name (well_ecl_ this)))
        end ;;
      Ok (flt (InjectionControls.surface_rate controls) current_rate)
  | InjectorCMode.RESV =>
      a <- (if phase_used pu Aqua then
              rates <- wellReservoirRates well_state well_index ;;
              r <- at_ rates (phase_pos pu Aqua) ;; Ok (0 + r)%float
            else Ok 0%float) ;;
      b <- (if phase_used pu Liquid then
              rates <- wellReservoirRates well_state well_index ;;
              r <- at_ rates (phase_pos pu Liquid) ;; Ok (a + r)%float
            else Ok a) ;;
      current_rate <-
           (if phase_used pu Vapour then
              rates <- wellReservoirRates well_state well_index ;;
              r <- at_ rates (phase_pos pu Vapour) ;; Ok (b + r)%float
            else Ok b) ;;
      Ok (flt (InjectionControls.reservoir_rate controls) current_rate)
  | InjectorCMode.THP =>
      current_thp <- thp well_state well_index ;;
      Ok (flt (getTHPConstraint this summaryState) current_thp)
  | InjectorCMode.GRUP => Ok false
  end.

(** A control fires when it is configured, is not the active one and its
    limit is exceeded. *)
Definition injector_fires (currentControl c : InjectorCMode.t) : Result bool :=
  if InjectionControls.hasControl
       (Well.injectionControls (well_ecl_ this) summaryState) c
     && inj_ne currentControl c
  then injector_limit_exceeded c
  else Ok false.

(** What the injector block of the source leaves in the well state when
    control [c] fires: BHP and RATE are recorded as the current control, RESV
    and THP are not (the source assigns a local copy there). *)
Definition injector_recorded (c : InjectorCMode.t) : Result WellState :=
  match c with
  | InjectorCMode.BHP | InjectorCMode.RATE =>
      set_currentInjectionControl well_state (index_of_well_ this) c
  | _ => Ok well_state
  end.

(** The reservoir-voidage rate a producer is compared with under RESV: the
    negated sum of the reservoir rates of the active phases. *)
Definition producer_voidage_rate : Result float :=
  let pu := phaseUsage this in
  let well_index := index_of_well_ this in
  a <- (if phase_used pu Aqua then
          rates <- wellReservoirRates well_state well_index ;;
          r <- at_ rates (phase_pos pu Aqua) ;; Ok (0 - r)%float
        else Ok 0%float) ;;
  b <- (if phase_used pu Liquid then
          rates <- wellReservoirRates well_state well_index ;;
          r <- at_ rates (phase_pos pu Liquid) ;; Ok (a - r)%float
        else Ok a) ;;
  (if phase_used pu Vapour then
     rates <- wellReservoirRates well_state well_index ;;
     r <- at_ rates (phase_pos pu Vapour) ;; Ok (b - r)%float
   else Ok b).

(** The RESV limit of a producer under rate-target mode: the target surface
    rates converted into a reservoir-voidage rate by the rate converter. *)
Definition producer_converted_resv_limit : Result float :=
  let pu := phaseUsage this in
  let controls := Well.productionControls (well_ecl_ this) summaryState in
  let np := number_of_phases_ this in
  s <- (if phase_used pu Aqua
        then set_at (replicate np 0%float) (phase_pos pu Aqua)
               (ProductionControls.water_rate controls)
        else Ok (replicate np 0%float)) ;;
  s <- (if phase_used pu Liquid
        then set_at s (phase_pos pu Liquid) (ProductionControls.oil_rate controls)
        else Ok s) ;;
  s <- (if phase_used pu Vapour
        then set_at s (phase_pos pu Vapour) (ProductionControls.gas_rate controls)
        else Ok s) ;;
  for_upto np (fun p resv_rate =>
    v <- at_ (calcReservoirVoidageRates (rateConverter_ this) 0 (pvtRegionIdx_ this)
                s (replicate np 0%float)) p ;;
    Ok (resv_rate + v)%float) 0%float.

(** The direction rule of each producer control, in the words of the spec:
    the production rates are stored negated and are negated before the
    comparison with the limit; BHP and THP fire when the limit is over the
    current pressure; RESV compares with the configured limit under
    prediction mode and with the converted target rates otherwise. *)
Definition producer_limit_exceeded (c : ProducerCMode.t) : Result bool :=
  let pu := phaseUsage this in
  let well_index := index_of_well_ this in
  let controls := Well.productionControls (well_ecl_ this) summaryState in
  match c with
  | ProducerCMode.BHP =>
      current_bhp <- bhp well_state well_index ;;
      Ok (fgt (ProductionControls.bhp_limit controls) current_bhp)
  | ProducerCMode.ORAT =>
      rates <- wellRates well_state well_index ;;
      r <- at_ rates (phase_pos pu Liquid) ;;
      Ok (flt (ProductionControls.oil_rate controls) (- r)%float)
  | ProducerCMode.WRAT =>
      rates <- wellRates well_state well_index ;;
      r <- at_ rates (phase_pos pu Aqua) ;;
      Ok (flt (ProductionControls.water_rate controls) (- r)%float)
  | ProducerCMode.GRAT =>
      rates <- wellRates well_state well_index ;;
      r <- at_ rates (phase_pos pu Vapour) ;;
      Ok (flt (ProductionControls.gas_rate controls) (- r)%float)
  | ProducerCMode.LRAT =>
      rates <- wellRates well_state well_index ;;
      o <- at_ rates (phase_pos pu Liquid) ;;
      rates <- wellRates well_state well_index ;;
      w <- at_ rates (phase_pos pu Aqua) ;;
      Ok (flt (ProductionControls.liquid_rate controls) (- o - w)%float)
  | ProducerCMode.RESV =>
      current_rate <- producer_voidage_rate ;;
      if ProductionControls.prediction_mode controls
      then Ok (flt (ProductionControls.resv_rate controls) current_rate)
      else
        resv_rate <- producer_converted_resv_limit ;;
        Ok (flt resv_rate current_rate)
  | ProducerCMode.THP =>
      current_thp <- thp well_state well_index ;;
      Ok (fgt (getTHPConstraint this summaryState) current_thp)
  | ProducerCMode.GRUP => Ok false
  end.

Definition producer_fires (currentControl c : ProducerCMode.t) : Result bool :=
  if ProductionControls.hasControl
       (Well.productionControls (well_ecl_ this) summaryState) c
     && prod_ne currentControl c
  then producer_limit_exceeded c
  else Ok false.

(** The outcome of [checkIndividualConstraints] in the words of the spec: the
    first control of the priority order that fires decides, and no control
    firing means [false] and an untouched well state. *)
Definition individual_constraints_by_priority : Result (bool * WellState) :=
  match Well.role (well_ecl_ this) with
  | Injector =>
      currentControl <- currentInjectionControl well_state (index_of_well_ this) ;;
      fired <- first_firing (injector_fires currentControl) injector_priority ;;
      match fired with
      | Some c => well_state' <- injector_recorded c ;; Ok (true, well_state')
      | None => Ok (false, well_state)
      end
  | Producer =>
      currentControl <- currentProductionControl well_state (index_of_well_ this) ;;
      fired <- first_firing (producer_fires currentControl) producer_priority ;;
      match fired with
      | Some c =>
          well_state' <- set_currentProductionControl well_state (index_of_well_ this) c ;;
          Ok (true, well_state')
      | None => Ok (false, well_state)
      end
  end.

End PriorityOrder.

(** ** The escalation to the parent group *)

Section GroupEscalation.
Context {SummaryState Schedule GroupState Group GuideRate : Type}.
Variable ext : Externals SummaryState Schedule GroupState Group GuideRate.
Variable this : WellInterfaceFluidSystem SummaryState GuideRate.

(** The verdict of the group evaluator on the immediate parent group of the
    well: the pair (violated, scale factor) and the logger. *)
Definition parent_group_verdict
  (well_state : WellState) (group_state : GroupState) (schedule : Schedule)
  (summaryState : SummaryState) (deferred_logger : DeferredLogger)
  : Result ((bool * float) * DeferredLogger) :=
  let well := well_ecl_ this in
  let group := getGroup ext schedule (Well.groupName well) (current_step_ this) in
  match Well.role well with
  | Injector =>
      checkGroupConstraintsInj ext this group well_state group_state
        (Well.getEfficiencyFactor well) schedule summaryState deferred_logger
  | Producer =>
      checkGroupConstraintsProd ext this group well_state group_state
        (Well.getEfficiencyFactor well) schedule summaryState deferred_logger
  end.

(** The current control mode of the well, for its role, is GRUP. *)
Definition follows_group (well_state : WellState) : Result bool :=
  match Well.role (well_ecl_ this) with
  | Injector =>
      c <- currentInjectionControl well_state (index_of_well_ this) ;;
      Ok (bool_decide (c = InjectorCMode.GRUP))
  | Producer =>
      c <- currentProductionControl well_state (index_of_well_ this) ;;
      Ok (bool_decide (c = ProducerCMode.GRUP))
  end.

(** The control mode of the well, for its role, set to GRUP. *)
Definition set_group_control (well_state : WellState) : Result WellState :=
  match Well.role (well_ecl_ this) with
  | Injector =>
      set_currentInjectionControl well_state (index_of_well_ this) InjectorCMode.GRUP
  | Producer =>
      set_currentProductionControl well_state (index_of_well_ this) ProducerCMode.GRUP
  end.

(** The well state after a group violation, in the words of the spec: the
    control mode of the well is GRUP and every phase rate of the well is
    multiplied by the scale factor; nothing else changes. *)
Definition forced_to_group (well_state : WellState) (scale : float) : WellState :=
  let i := Z.to_nat (index_of_well_ this) in
  let rescaled :=
    alter (fmap (fun r => (r * scale)%float)) i (ws_wellRates well_state) in
  match Well.role (well_ecl_ this) with
  | Injector =>
      with_wellRates
        (with_currentInjectionControl well_state
           (<[i := InjectorCMode.GRUP]> (ws_currentInjectionControl well_state)))
        rescaled
  | Producer =>
      with_wellRates
        (with_currentProductionControl well_state
           (<[i := ProducerCMode.GRUP]> (ws_currentProductionControl well_state)))
        rescaled
  end.

End GroupEscalation.

(** ** The rate tables of the well state *)

Section RateTables.
Context {SummaryState GuideRate : Type}.
Variable this : WellInterfaceFluidSystem SummaryState GuideRate.

(** The rate vectors of the wells other than this one are those of [rows]. *)
Definition other_rows (rows rows' : list (list float)) : Prop :=
  forall w : nat, w <> Z.to_nat (index_of_well_ this) -> rows' !! w = rows !! w.

End RateTables.

(** ** The minimum-rate economic limits *)

Section MinimumRateLimits.
Context {SummaryState GuideRate : Type}.
Variable this : WellInterfaceFluidSystem SummaryState GuideRate.

(** The vector the minimum-rate limits are tested on: the potentials of the
    well under the quantity limit POTN, its instantaneous rates otherwise. *)
Definition rates_or_potentials (well_state : WellState) : Result (list float) :=
  match WellEconProductionLimits.quantityLimit (Well.getEconLimits (well_ecl_ this)) with
  | QuantityLimit.POTN =>
      ptr_at (ws_wellPotentials well_state)
        (index_of_well_ this * Z.of_nat (number_of_phases_ this))
  | _ => wellRates well_state (index_of_well_ this)
  end.

(** The phase is active and has a rate in the vector. *)
Definition readable (v : list float) (phase : BlackoilPhases) : bool :=
  FluidSystem_phaseIsActive this phase
  && match at_ v (phase_pos (phaseUsage this) phase) with
     | Ok _ => true
     | Abort _ => false
     end.

(** The rate of the phase in the vector. *)
Definition rate_of (v : list float) (phase : BlackoilPhases) : float :=
  match at_ v (phase_pos (phaseUsage this) phase) with
  | Ok r => r
  | Abort _ => 0%float
  end.

(** Every configured minimum-rate limit is on phases that are active and
    have a rate. *)
Definition min_rate_limits_evaluable (v : list float) : bool :=
  let econ := Well.getEconLimits (well_ecl_ this) in
  implb (WellEconProductionLimits.onMinOilRate econ) (readable v Oil)
  && implb (WellEconProductionLimits.onMinGasRate econ) (readable v Gas)
  && implb (WellEconProductionLimits.onMinLiquidRate econ)
       (readable v Oil && readable v Water).

(** A configured minimum oil, gas or liquid rate is violated: the absolute
    value of the signed rate is under the minimum. *)
Definition any_min_rate_violated (v : list float) : bool :=
  let econ := Well.getEconLimits (well_ecl_ this) in
  WellEconProductionLimits.onMinOilRate econ
    && flt (abs (rate_of v Oil)) (WellEconProductionLimits.minOilRate econ)
  || WellEconProductionLimits.onMinGasRate econ
    && flt (abs (rate_of v Gas)) (WellEconProductionLimits.minGasRate econ)
  || WellEconProductionLimits.onMinLiquidRate econ
    && flt (abs (rate_of v Oil + rate_of v Water)%float)
         (WellEconProductionLimits.minLiquidRate econ).

(** The logger after a closure on a rate limit: the warnings for the
    unsupported end-of-run and follow-on-well options, then the message of
    the closure when messages are asked for. *)
Definition log_after_rate_closure (write_message_to_opmlog : bool)
  (deferred_logger : DeferredLogger) : DeferredLogger :=
  let econ := Well.getEconLimits (well_ecl_ this) in
  let log1 :=
    if WellEconProductionLimits.endRun econ then
      warning "NOT_SUPPORTING_ENDRUN"
        ("ending run after well closed due to economic limits"
         +:+ "is not supported yet " +:+ newline
         +:+ "the program will keep running after " +:+ name this +:+ " is closed")
        deferred_logger
    else deferred_logger in
  let log2 :=
    if WellEconProductionLimits.validFollowonWell econ then
      warning "NOT_SUPPORTING_FOLLOWONWELL"
        "opening following on well after well closed is not supported yet" log1
    else log1 in
  if write_message_to_opmlog then
    if Well.getAutomaticShutIn (well_ecl_ this) then
      info ("well " +:+ name this +:+ " will be shut due to rate economic limit") log2
    else
      info ("well " +:+ name this +:+ " will be stopped due to rate economic limit") log2
  else log2.

End MinimumRateLimits.

(** ** The ledger under the CON workover *)

Section LedgerSpec.
Context {SummaryState GuideRate : Type}.
Variable this : WellInterfaceFluidSystem SummaryState GuideRate.

(** Every connection of the well whose state is OPEN belongs to a completion
    recorded closed in the ledger. *)
Definition all_open_connections_closed (well_test_state : WellTestState) : Prop :=
  forall connection : Connection.t,
    connection ∈ Well.getConnections (well_ecl_ this) ->
    Connection.state connection = ConnectionState.OPEN ->
    hasCompletion (name this) (Connection.complnum connection) well_test_state = true.

(** The invariant of the spec: if all the completions of the well are closed,
    the well itself is marked closed. *)
Definition ledger_invariant (well_test_state : WellTestState) : Prop :=
  all_open_connections_closed well_test_state ->
  hasWellClosed (name this) Reason.ECONOMIC well_test_state = true.

(** The stage of the minimum-rate limits: whether one of them is violated. *)
Definition rate_limit_stage (well_state : WellState) (deferred_logger : DeferredLogger)
  : Result (bool * DeferredLogger) :=
  if WellEconProductionLimits.onAnyRateLimit (Well.getEconLimits (well_ecl_ this)) then
    v <- rates_or_potentials this well_state ;;
    checkRateEconLimits this (Well.getEconLimits (well_ecl_ this)) v deferred_logger
  else Ok (false, deferred_logger).

(** The ledger after the CON workover, in the words of the spec: the
    worst-offending completion is closed and, if this closes every open
    connection of the well, the whole well is closed. *)
Definition ledger_after_CON (worst_offending_completion : Z) (simulation_time : float)
  (well_test_state : WellTestState) : WellTestState :=
  let closed_one :=
    addClosedCompletion (name this) worst_offending_completion simulation_time
      well_test_state in
  if allCompletionsClosed this closed_one
  then closeWell (name this) Reason.ECONOMIC simulation_time closed_one
  else closed_one.

End LedgerSpec.

(** ** The worst offender *)

Section WorstOffenderSpec.
Context {SummaryState GuideRate : Type}.
Variable this : WellInterfaceFluidSystem SummaryState GuideRate.

(** The phase rates of perforation [c] in the perforation table of the
    well. *)
Definition perforation_rates (perf_phase_rates : list float) (c : Z) : list float :=
  take (number_of_phases_ this)
    (drop (Z.to_nat (c * Z.of_nat (number_of_phases_ this))) perf_phase_rates).

(** The perforation has its rates in the table. *)
Definition in_table (perf_phase_rates : list float) (c : Z) : Prop :=
  0 <= c
  /\ (Z.to_nat (c * Z.of_nat (number_of_phases_ this)) + number_of_phases_ this
      <= length perf_phase_rates)%nat.

(** The rates of the perforations of a completion added up phase by phase,
    in the order of the connections. *)
Definition sum_over_connections (perf_phase_rates : list float) (conns : list Z)
  : list float :=
  foldl (zip_with PrimFloat.add) (replicate (number_of_phases_ this) 0%float)
    (perforation_rates perf_phase_rates <$> conns).

(** The ratio of one completion: the ratio function on the phase rates
    summed over the connections of the completion and over the processes. *)
Definition completion_ratio (perf_phase_rates : list float)
  (ratioFunc : list float -> PhaseUsage -> Result float) (completion : Z * list Z)
  : Result float :=
  completion_rates <- completionRates this perf_phase_rates (snd completion) ;;
  ratioFunc completion_rates (phaseUsage this).

(** The scan of the completions of the well: the completion selected and its
    ratio, from "no completion identified" and the ratio 0. *)
Definition scan_completions (well_state : WellState)
  (ratioFunc : list float -> PhaseUsage -> Result float) : Result (Z * float) :=
  perf_phase_rates <-
    ptr_at (ws_perfPhaseRates well_state)
      (first_perf_ this * Z.of_nat (number_of_phases_ this)) ;;
  foldM (scanCompletion this perf_phase_rates ratioFunc) (completions_ this)
    (INVALIDCOMPLETION, 0%float).

(** What one ratio kind proposes: nothing when the ratio of the well does not
    exceed the limit; otherwise the completion selected by the scan, with the
    violation extent (its ratio divided by the limit). *)
Definition worst_offender (well_state : WellState) (max_ratio_limit : float)
  (ratioFunc : list float -> PhaseUsage -> Result float) : Result (option (Z * float)) :=
  violated <- checkMaxRatioLimitWell this well_state max_ratio_limit ratioFunc ;;
  if violated then
    st <- scan_completions well_state ratioFunc ;;
    Ok (Some (fst st, (snd st / max_ratio_limit)%float))
  else Ok None.

(** The proposal of a ratio kind that may not be configured. *)
Definition proposal_of (configured : bool) (well_state : WellState)
  (max_ratio_limit : float) (ratioFunc : list float -> PhaseUsage -> Result float)
  : Result (option (Z * float)) :=
  if configured then worst_offender well_state max_ratio_limit ratioFunc else Ok None.

End WorstOffenderSpec.

(** The report after a proposal: a proposal marks the violation, and replaces
    the worst offender of the report only with a strictly greater violation
    extent. *)
Definition more_violated (report : RatioLimitCheckReport) (proposal : option (Z * float))
  : RatioLimitCheckReport :=
  match proposal with
  | None => report
  | Some (completion, extent) =>
      if fgt extent (violation_extent report) then
        {| ratio_limit_violated := true;
           worst_offending_completion := completion;
           violation_extent := extent |}
      else
        {| ratio_limit_violated := true;
           worst_offending_completion := worst_offending_completion report;
           violation_extent := violation_extent report |}
  end.

(** * Further definitions *)

(** ** The conversion to reservoir rates *)

Section ReservoirRatesSpec.
Context {SummaryState GuideRate : Type}.
Variable this : WellInterfaceFluidSystem SummaryState GuideRate.

(** The voidage rates the rate converter gives, for region 0 and the PVT
    region of the well, on the first [number_of_phases_] surface rates. *)
Definition converted_rates (rates : list float) : list float :=
  calcReservoirVoidageRates (rateConverter_ this) 0 (pvtRegionIdx_ this)
    (take (number_of_phases_ this) rates)
    (replicate (number_of_phases_ this) 0%float).

(** The well state in which the first [number_of_phases_] reservoir rates of
    the well are the converted rates, all the rest being as in [well_state]. *)
Definition with_converted_rates (well_state : WellState) (rates row : list float)
  : WellState :=
  with_wellReservoirRates well_state
    (<[Z.to_nat (index_of_well_ this) :=
         take (number_of_phases_ this) (converted_rates rates)
         ++ drop (number_of_phases_ this) row]>
       (ws_wellReservoirRates well_state)).

End ReservoirRatesSpec.

(** ** The outcome of the economic limit evaluator *)

Section EvaluatorOutcome.
Context {SummaryState GuideRate : Type}.
Variable this : WellInterfaceFluidSystem SummaryState GuideRate.

(** The logger after the closure of the whole well on a ratio limit. *)
Definition log_after_ratio_closure (write_message_to_opmlog : bool)
  (deferred_logger : DeferredLogger) : DeferredLogger :=
  if write_message_to_opmlog then
    if Well.getAutomaticShutIn (well_ecl_ this) then
      info (name this +:+ " will be shut due to ratio economic limit") deferred_logger
    else
      info (name this +:+ " will be stopped due to ratio economic limit") deferred_logger
  else deferred_logger.

(** The logger after the CON workover: the message of the connection (for a
    negative number) or of the completion closed, then the message of the
    closure of the well when the last completion was closed. *)
Definition log_after_CON (worst_offending_completion : Z) (well_closed : bool)
  (write_message_to_opmlog : bool) (deferred_logger : DeferredLogger) : DeferredLogger :=
  let log1 :=
    if write_message_to_opmlog then
      if worst_offending_completion <? 0 then
        info ("Connection " +:+ to_string (- worst_offending_completion)
              +:+ " for well " +:+ name this
              +:+ " will be closed due to economic limit") deferred_logger
      else
        info ("Completion " +:+ to_string worst_offending_completion
              +:+ " for well " +:+ name this
              +:+ " will be closed due to economic limit") deferred_logger
    else deferred_logger in
  if well_closed && write_message_to_opmlog then
    if Well.getAutomaticShutIn (well_ecl_ this) then
      info (name this +:+ " will be shut due to last completion closed") log1
    else
      info (name this +:+ " will be stopped due to last completion closed") log1
  else log1.

(** What follows the ratio check, by the report and the workover: nothing
    without a violation; under CON the worst-offending completion is closed,
    and the well with it when no open connection is left; under WELL the
    well is closed; NONE does nothing; any other workover is only warned
    about. *)
Definition workover_outcome (simulation_time : float) (write_message_to_opmlog : bool)
  (well_test_state : WellTestState) (report : RatioLimitCheckReport)
  (deferred_logger : DeferredLogger) : WellTestState * DeferredLogger :=
  let workover := WellEconProductionLimits.workover (Well.getEconLimits (well_ecl_ this)) in
  if ratio_limit_violated report then
    match workover with
    | EconWorkover.CON =>
        (ledger_after_CON this (worst_offending_completion report) simulation_time
           well_test_state,
         log_after_CON (worst_offending_completion report)
           (allCompletionsClosed this
              (addClosedCompletion (name this) (worst_offending_completion report)
                 simulation_time well_test_state))
           write_message_to_opmlog deferred_logger)
    | EconWorkover.WELL =>
        (closeWell (name this) Reason.ECONOMIC simulation_time well_test_state,
         log_after_ratio_closure write_message_to_opmlog deferred_logger)
    | EconWorkover.NONE => (well_test_state, deferred_logger)
    | _ =>
        (well_test_state,
         warning "NOT_SUPPORTED_WORKOVER_TYPE"
           ("not supporting workover type " +:+ EconWorkover2String workover)
           deferred_logger)
    end
  else (well_test_state, deferred_logger).

(** The evaluator by its stages: nothing for a stopped well or without an
    effective limit; the closure of the well when the stage of the
    minimum-rate limits finds a violation; otherwise, when a ratio limit is
    on, the ratio check on a fresh report and the outcome of the workover. *)
Definition evaluator_by_stages
  (well_state : WellState) (simulation_time : float) (write_message_to_opmlog : bool)
  (well_test_state : WellTestState) (deferred_logger : DeferredLogger)
  : Result (WellTestState * DeferredLogger) :=
  let econ := Well.getEconLimits (well_ecl_ this) in
  if wellIsStopped this
     || negb (WellEconProductionLimits.onAnyEffectiveLimit econ)
  then Ok (well_test_state, deferred_logger)
  else
    rl <- rate_limit_stage this well_state deferred_logger ;;
    if fst rl then
      Ok (closeWell (name this) Reason.ECONOMIC simulation_time well_test_state,
          log_after_rate_closure this write_message_to_opmlog (snd rl))
    else if WellEconProductionLimits.onAnyRatioLimit econ then
      rr <- checkRatioEconLimits this econ well_state RatioLimitCheckReport_init (snd rl) ;;
      Ok (workover_outcome simulation_time write_message_to_opmlog well_test_state
            (fst rr) (snd rr))
    else Ok (well_test_state, snd rl).

(** The well is recorded closed in the ledger, for whatever reason. *)
Definition recorded_closed (well_name : string) (well_test_state : WellTestState) : bool :=
  match wells well_test_state !! well_name with
  | Some w => closed w
  | None => false
  end.

End EvaluatorOutcome.

(** ** What a call may change in the ledger and in the log *)

Section LedgerGrowth.
Context {SummaryState GuideRate : Type}.
Variable this : WellInterfaceFluidSystem SummaryState GuideRate.

(** The ledger [after] extends the ledger [before] for this well only: the
    entries of the other wells are the same, and every well and completion
    recorded closed before is recorded closed after. *)
Definition ledger_extends (before after : WellTestState) : Prop :=
  (forall n : string, n <> name this -> wells after !! n = wells before !! n)
  /\ (forall (n : string) (c : Z), n <> name this ->
        completions after !! (n, c) = completions before !! (n, c))
  /\ (forall n : string, recorded_closed n before = true -> recorded_closed n after = true)
  /\ (forall (n : string) (c : Z),
        hasCompletion n c before = true -> hasCompletion n c after = true).

End LedgerGrowth.

Definition is_warning (e : LogEntry) : bool :=
  match e with
  | LogWarning _ _ => true
  | _ => false
  end.

(** The log [after] is the log [before] with entries added at its end,
    which are all warnings unless [infos] allows information messages. *)
Definition log_extends (infos : bool) (before after : DeferredLogger) : Prop :=
  exists added : list LogEntry,
    after = before ++ added
    /\ (infos = false -> forallb is_warning added = true).
(** * Properties *)

(** ** The result monad *)

Lemma bind_Ok {A B : Type} (m : Result A) (k : A -> Result B) (b : B) :
  bind m k = Ok b -> exists a, m = Ok a /\ k a = Ok b.
Proof. destruct m as [a|f]; simpl; [eauto | discriminate]. Qed.

Lemma assert_Ok (c : bool) (u : unit) : assert c = Ok u -> c = true.
Proof. destruct c; [reflexivity | discriminate]. Qed.

(** Splits a hypothesis [bind m k = Ok b] into the two steps it stands for. *)
Ltac inv_bind H :=
  let a := fresh "a" in
  let Ha := fresh "Ha" in
  apply bind_Ok in H as (a & Ha & H).

(** The test or the read at the head of a computation: the one its next
    step is blocked on. *)
Ltac head_of t k :=
  lazymatch t with
  | bind ?m _ => head_of m k
  | and_then ?m _ => head_of m k
  | (if ?c then _ else _) => head_of c k
  | match ?x with _ => _ end => head_of x k
  | andb ?a _ => head_of a k
  | negb ?a => head_of a k
  | _ => k t
  end.

(** Case analysis on the head of the left-hand side, then of the right-hand
    side, of an equation between two computations, as long as they are
    blocked. *)
Ltac run_both :=
  repeat first
    [ reflexivity
    | progress cbn [bind and_then first_firing andb negb]
    | lazymatch goal with
      | |- ?l = _ =>
          lazymatch l with
          | Ok _ => fail
          | Abort _ => fail
          | _ => head_of l ltac:(fun h => destruct h eqn:?)
          end
      end
    | lazymatch goal with
      | |- _ = ?r => head_of r ltac:(fun h => destruct h eqn:?)
      end ].

(** ** The order of [double] *)

Lemma SFltb_irrefl (x : spec_float) : SFltb x x = false.
Proof.
  unfold SFltb. destruct x as [s|s| |s m e]; simpl; try destruct s; try reflexivity.
  all: rewrite Z.compare_refl, Pos.compare_cont_refl; reflexivity.
Qed.

Lemma SFltb_trans (x y z : spec_float) :
  SFltb x y = true -> SFltb y z = true -> SFltb x z = true.
Proof.
  unfold SFltb, SFcompare.
  destruct x as [sx|sx| |sx mx ex], y as [sy|sy| |sy my ey], z as [sz|sz| |sz mz ez];
    try destruct sx; try destruct sy; try destruct sz;
    try (intros; congruence); try (intros; reflexivity).
  all: change (Pos.compare_cont Eq) with Pos.compare.
  all: destruct (Z.compare_spec ex ey), (Z.compare_spec ey ez), (Z.compare_spec ex ez);
    try lia; subst; try (intros; congruence); try (intros; reflexivity).
  all: destruct (Pos.compare_spec mx my), (Pos.compare_spec my mz), (Pos.compare_spec mx mz);
    simpl; try lia; try (intros; congruence); try (intros; reflexivity).
Qed.

(** [a > a] never holds. *)
Lemma fgt_irrefl (a : float) : fgt a a = false.
Proof. unfold fgt. rewrite FloatAxioms.ltb_spec. apply SFltb_irrefl. Qed.

(** [a > b] and [b > c] give [a > c]. *)
Lemma fgt_trans (a b c : float) : fgt a b = true -> fgt b c = true -> fgt a c = true.
Proof.
  unfold fgt. rewrite !FloatAxioms.ltb_spec. intros Hab Hbc. exact (SFltb_trans _ _ _ Hbc Hab).
Qed.

(** A value that does not exceed [m] does not exceed a larger [m']. *)
Lemma not_fgt_mono (r m m' : float) :
  fgt r m = false -> fgt m' m = true -> fgt r m' = false.
Proof.
  intros Hr Hm. destruct (fgt r m') eqn:E; [| reflexivity].
  rewrite (fgt_trans _ _ _ E Hm) in Hr. discriminate.
Qed.

(** Both rates zero: the product is a zero and the same-direction assertion
    of the ratio evaluators holds. *)
Lemma zero_rates_same_direction (a b : float) :
  PrimFloat.eqb a 0 = true -> PrimFloat.eqb b 0 = true -> fge (a * b)%float 0%float = true.
Proof.
  unfold fge. rewrite !FloatAxioms.eqb_spec, FloatAxioms.leb_spec, FloatAxioms.mul_spec.
  change (Prim2SF 0) with (S754_zero false).
  destruct (Prim2SF a) as [sa|sa| |sa ma ea]; try (destruct sa; discriminate); try discriminate.
  destruct (Prim2SF b) as [sb|sb| |sb mb eb]; try (destruct sb; discriminate); try discriminate.
  intros _ _. destruct sa, sb; reflexivity.
Qed.

(** ** C8: the gas-oil ratio evaluator *)

(** C8. For rates read at the oil and gas slots: with an oil rate equal to
    zero and a gas rate different from zero the gas-oil ratio is the sentinel
    1e100, which exceeds 1e50; with both rates equal to zero it is 0; with an
    oil rate different from zero it is the quotient gas/oil. The first and the
    third case are under the precondition the evaluator asserts (the product
    of the two rates is not negative); in the second the assertion always
    holds. *)
Theorem gor_sentinel_zero_quotient
  (rates : list float) (pu : PhaseUsage) (oil_rate gas_rate : float) :
  at_ rates (phase_pos pu Oil) = Ok oil_rate ->
  at_ rates (phase_pos pu Gas) = Ok gas_rate ->
  (PrimFloat.eqb oil_rate 0 = true -> PrimFloat.eqb gas_rate 0 = false ->
   fge (oil_rate * gas_rate)%float 0%float = true ->
   gor rates pu = Ok 1e100%float /\ fgt 1e100%float 1e50%float = true) /\
  (PrimFloat.eqb oil_rate 0 = true -> PrimFloat.eqb gas_rate 0 = true ->
   gor rates pu = Ok 0%float) /\
  (PrimFloat.eqb oil_rate 0 = false ->
   fge (oil_rate * gas_rate)%float 0%float = true ->
   gor rates pu = Ok (gas_rate / oil_rate)%float).
Proof.
  intros Ho Hg. unfold gor. rewrite Ho, Hg. simpl. unfold fne.
  split; [| split].
  - intros Hoil Hgas Hdir. rewrite Hdir. simpl. rewrite Hoil, Hgas. split; reflexivity.
  - intros Hoil Hgas. rewrite (zero_rates_same_direction _ _ Hoil Hgas). simpl.
    rewrite Hoil, Hgas. reflexivity.
  - intros Hoil Hdir. rewrite Hdir. simpl. rewrite Hoil. reflexivity.
Qed.

Lemma gor_sentinel_zero_quotient_witness :
  (gor [0; 0; 5]%float pu3 = Ok 1e100%float /\ fgt 1e100%float 1e50%float = true)
  /\ gor [0; 0; 0]%float pu3 = Ok 0%float
  /\ gor [0; 2; 5]%float pu3 = Ok 2.5%float.
Proof.
  split; [| split].
  - exact (proj1 (gor_sentinel_zero_quotient [0; 0; 5]%float pu3 0 5 eq_refl eq_refl)
             eq_refl eq_refl eq_refl).
  - exact (proj1 (proj2 (gor_sentinel_zero_quotient [0; 0; 0]%float pu3 0 0 eq_refl eq_refl))
             eq_refl eq_refl).
  - exact (proj2 (proj2 (gor_sentinel_zero_quotient [0; 2; 5]%float pu3 2 5 eq_refl eq_refl))
             eq_refl eq_refl).
Defined.

(** ** The early returns of the economic limit evaluator *)

Section EarlyReturn.
Context {SummaryState GuideRate : Type}.
Variable this : WellInterfaceFluidSystem SummaryState GuideRate.


End EarlyReturn.

(** ** C6: the priority order of the individual constraints *)

Lemma first_firing_Some {C : Type} (fires : C -> Result bool) (order : list C) (c : C) :
  first_firing fires order = Ok (Some c) <-> highest_priority_firing fires order c.
Proof.
  unfold highest_priority_firing. induction order as [|c0 rest IH]; simpl.
  - split; [discriminate |]. intros (before & after & E & _). destruct before; discriminate.
  - split.
    + intros H. inv_bind H. destruct a.
      * injection H as <-. exists [], rest. repeat split; [assumption | constructor].
      * apply IH in H as (before & after & -> & Hc & Hb).
        exists (c0 :: before), after. repeat split; [assumption |].
        constructor; assumption.
    + intros (before & after & E & Hc & Hb). destruct before as [|c1 before]; simpl in E.
      * injection E as -> ->. rewrite Hc. reflexivity.
      * injection E as -> ->. inversion Hb as [|? ? Hc1 Hb']; subst.
        rewrite Hc1. simpl. apply IH. exists before, after. repeat split; assumption.
Qed.

Lemma first_firing_None {C : Type} (fires : C -> Result bool) (order : list C) :
  first_firing fires order = Ok None <-> Forall (fun c => fires c = Ok false) order.
Proof.
  induction order as [|c0 rest IH]; simpl.
  - split; [constructor | reflexivity].
  - split.
    + intros H. inv_bind H. destruct a; [discriminate |].
      constructor; [assumption | apply IH; assumption].
    + intros H. inversion H as [|? ? Hc Hr]; subst. rewrite Hc. simpl. apply IH, Hr.
Qed.

(** A block that stands for one control, followed by the blocks of the
    controls after it. *)
Lemma chain_first_firing {C A R : Type} (fires : C -> Result bool)
  (on_fire : C -> Result A) (wrap : A -> R) (c : C) (rest : list C)
  (blk tail : Result (Step R)) :
  blk = (b <- fires c ;;
         if b then a <- on_fire c ;; Ok (Return (wrap a)) else Ok Continue) ->
  tail = (fired <- first_firing fires rest ;;
          match fired with
          | Some c' => a <- on_fire c' ;; Ok (Return (wrap a))
          | None => Ok Continue
          end) ->
  (blk ;;; tail)
  = (fired <- first_firing fires (c :: rest) ;;
     match fired with
     | Some c' => a <- on_fire c' ;; Ok (Return (wrap a))
     | None => Ok Continue
     end).
Proof.
  intros -> ->. cbn [first_firing]. unfold and_then.
  destruct (fires c) as [[|]|f]; cbn [bind]; [| reflexivity | reflexivity].
  destruct (on_fire c) as [a|f]; reflexivity.
Qed.

Section PriorityOrderProofs.
Context {SummaryState GuideRate : Type}.
Variable this : WellInterfaceFluidSystem SummaryState GuideRate.
Variable well_state : WellState.
Variable summaryState : SummaryState.

Lemma injector_block_by_priority :
  checkIndividualConstraints_injector this well_state summaryState
  = (currentControl <- currentInjectionControl well_state (index_of_well_ this) ;;
     fired <- first_firing (injector_fires this well_state summaryState currentControl)
                injector_priority ;;
     match fired with
     | Some c =>
         well_state' <- injector_recorded this well_state c ;;
         Ok (Return (true, well_state'))
     | None => Ok Continue
     end).
Proof.
  unfold checkIndividualConstraints_injector, injector_priority.
  destruct (currentInjectionControl well_state (index_of_well_ this)) as [cc|f];
    [| reflexivity].
  cbv zeta. cbn [bind].
  repeat (apply chain_first_firing;
          [unfold injector_fires, injector_limit_exceeded, injector_recorded;
           cbv zeta; run_both |]).
  unfold injector_fires, injector_limit_exceeded, injector_recorded.
  cbv zeta. run_both.
Qed.

Lemma producer_block_by_priority :
  checkIndividualConstraints_producer this well_state summaryState
  = (currentControl <- currentProductionControl well_state (index_of_well_ this) ;;
     fired <- first_firing (producer_fires this well_state summaryState currentControl)
                producer_priority ;;
     match fired with
     | Some c =>
         well_state' <- set_currentProductionControl well_state (index_of_well_ this) c ;;
         Ok (Return (true, well_state'))
     | None => Ok Continue
     end).
Proof.
  unfold checkIndividualConstraints_producer, producer_priority.
  destruct (currentProductionControl well_state (index_of_well_ this)) as [cc|f];
    [| reflexivity].
  cbv zeta. cbn [bind].
  repeat (apply chain_first_firing;
          [unfold producer_fires, producer_limit_exceeded, producer_voidage_rate,
             producer_converted_resv_limit;
           cbv zeta; run_both |]).
  unfold producer_fires, producer_limit_exceeded.
  cbv zeta. run_both.
Qed.

Lemma checkIndividualConstraints_by_priority :
  checkIndividualConstraints this well_state summaryState
  = individual_constraints_by_priority this well_state summaryState.
Proof.
  unfold checkIndividualConstraints, individual_constraints_by_priority,
    Well.isInjector, Well.isProducer.
  cbv zeta. destruct (Well.role (well_ecl_ this)).
  - rewrite injector_block_by_priority. run_both.
  - rewrite producer_block_by_priority. run_both.
Qed.

(** No individual constraint firing leaves the well state as it was. *)
Lemma checkIndividualConstraints_false (well_state' : WellState) :
  checkIndividualConstraints this well_state summaryState = Ok (false, well_state') ->
  well_state' = well_state.
Proof.
  rewrite checkIndividualConstraints_by_priority.
  unfold individual_constraints_by_priority.
  destruct (Well.role (well_ecl_ this)); intros H; inv_bind H; inv_bind H;
    destruct a0; try (inv_bind H; discriminate); congruence.
Qed.

(** C6. [checkIndividualConstraints] is the search of the spec: for an
    injector the controls are tried in the order BHP, RATE, RESV, THP and for
    a producer in the order BHP, ORAT, WRAT, GRAT, LRAT, RESV, THP; a control
    is skipped when it is not configured or is the active one; the first
    control whose limit is exceeded ends the search with [true], and no
    control after it is evaluated; no control firing gives [false] and the
    well state untouched. The control found is the one that fires with no
    control before it in the order firing; in particular an injector whose
    BHP control fires switches to BHP whether or not RATE fires too. *)
Theorem checkIndividualConstraints_fires_by_priority :
  checkIndividualConstraints this well_state summaryState
  = individual_constraints_by_priority this well_state summaryState
  /\ (forall (C : Type) (fires : C -> Result bool) (order : list C) (c : C),
        first_firing fires order = Ok (Some c) <-> highest_priority_firing fires order c)
  /\ (forall (C : Type) (fires : C -> Result bool) (order : list C),
        first_firing fires order = Ok None <-> Forall (fun c => fires c = Ok false) order)
  /\ (forall currentControl : InjectorCMode.t,
        Well.role (well_ecl_ this) = Injector ->
        currentInjectionControl well_state (index_of_well_ this) = Ok currentControl ->
        injector_fires this well_state summaryState currentControl InjectorCMode.BHP
        = Ok true ->
        checkIndividualConstraints this well_state summaryState
        = (well_state' <- set_currentInjectionControl well_state (index_of_well_ this)
                            InjectorCMode.BHP ;;
           Ok (true, well_state'))).
Proof.
  pose proof checkIndividualConstraints_by_priority as E.
  split; [exact E |].
  split; [intros; apply first_firing_Some |].
  split; [intros; apply first_firing_None |].
  intros cc Hrole Hcc Hbhp. rewrite E. unfold individual_constraints_by_priority.
  rewrite Hrole, Hcc. cbn [bind first_firing injector_priority]. rewrite Hbhp.
  reflexivity.
Qed.

End PriorityOrderProofs.

Lemma checkIndividualConstraints_fires_by_priority_witness :
  injector_fires injector_RESV injector_BHP_RATE_state tt InjectorCMode.GRUP
    InjectorCMode.RATE = Ok true
  /\ checkIndividualConstraints injector_RESV injector_BHP_RATE_state tt
     = (well_state' <- set_currentInjectionControl injector_BHP_RATE_state 0
                         InjectorCMode.BHP ;;
        Ok (true, well_state')).
Proof.
  split; [reflexivity |].
  exact (proj2 (proj2 (proj2 (checkIndividualConstraints_fires_by_priority
                                injector_RESV injector_BHP_RATE_state tt)))
           InjectorCMode.GRUP eq_refl eq_refl eq_refl).
Defined.

(** ** Vectors *)

Lemma at_Ok {A : Type} (v : list A) (i : Z) (x : A) :
  at_ v i = Ok x <-> 0 <= i /\ v !! Z.to_nat i = Some x.
Proof.
  unfold at_. destruct (Z.ltb_spec i 0).
  - split; [discriminate | lia].
  - destruct (v !! Z.to_nat i) as [y|].
    + split; [intros [= ->]; auto | intros [_ [= ->]]; reflexivity].
    + split; [discriminate | intros [_ ?]; discriminate].
Qed.

Lemma set_at_Ok {A : Type} (v : list A) (i : Z) (x : A) (v' : list A) :
  set_at v i x = Ok v' ->
  0 <= i /\ (Z.to_nat i < length v)%nat /\ v' = <[Z.to_nat i := x]> v.
Proof.
  unfold set_at. destruct (Z.ltb_spec i 0); [discriminate |].
  destruct (v !! Z.to_nat i) as [y|] eqn:E; [| discriminate].
  intros [= <-]. apply lookup_lt_Some in E. auto.
Qed.

Lemma set_at_lookup {A : Type} (v : list A) (i : nat) (x y : A) :
  v !! i = Some y -> set_at v (Z.of_nat i) x = Ok (<[i := x]> v).
Proof.
  intros E. unfold set_at. destruct (Z.ltb_spec (Z.of_nat i) 0); [lia |].
  rewrite Nat2Z.id, E. reflexivity.
Qed.

Lemma at_lookup {A : Type} (v : list A) (i : nat) (x : A) :
  v !! i = Some x -> at_ v (Z.of_nat i) = Ok x.
Proof.
  intros E. apply at_Ok. rewrite Nat2Z.id. split; [lia | assumption].
Qed.

Lemma foldM_app {A S : Type} (body : A -> S -> Result S) (l1 l2 : list A) (s : S) :
  foldM body (l1 ++ l2) s = (s' <- foldM body l1 s ;; foldM body l2 s').
Proof.
  revert s. induction l1 as [|x l1 IH]; intros s; simpl; [reflexivity |].
  destruct (body x s); simpl; [apply IH | reflexivity].
Qed.

Lemma alter_lookup_insert {A : Type} (f : A -> A) (l : list A) (i : nat) (x : A) :
  l !! i = Some x -> alter f i l = <[i := f x]> l.
Proof.
  revert i. induction l as [|y l IH]; intros [|i] E; simpl in *; try discriminate.
  - injection E as ->. reflexivity.
  - f_equal. apply IH, E.
Qed.

(** ** C2: the escalation to the parent group *)

Section GroupEscalationProofs.
Context {SummaryState Schedule GroupState Group GuideRate : Type}.
Variable ext : Externals SummaryState Schedule GroupState Group GuideRate.
Variable this : WellInterfaceFluidSystem SummaryState GuideRate.

Lemma at_index (A : Type) (v : list A) (x : A) :
  0 <= index_of_well_ this ->
  v !! Z.to_nat (index_of_well_ this) = Some x ->
  at_ v (index_of_well_ this) = Ok x.
Proof. intros Hi E. apply at_Ok. auto. Qed.

Lemma set_at_index (A : Type) (v : list A) (x y : A) :
  0 <= index_of_well_ this ->
  v !! Z.to_nat (index_of_well_ this) = Some y ->
  set_at v (index_of_well_ this) x = Ok (<[Z.to_nat (index_of_well_ this) := x]> v).
Proof.
  intros Hi E. unfold set_at. destruct (Z.ltb_spec (index_of_well_ this) 0); [lia |].
  rewrite E. reflexivity.
Qed.

(** One turn of the rescaling loop. *)
Lemma scale_step (well_state : WellState) (factor : float) (row : list float)
  (rows : list (list float)) (p : nat) (x : float) :
  0 <= index_of_well_ this ->
  rows !! Z.to_nat (index_of_well_ this) = Some row ->
  row !! p = Some x ->
  (rates <- wellRates (with_wellRates well_state rows) (index_of_well_ this) ;;
   r <- at_ rates (Z.of_nat p) ;;
   set_wellRate (with_wellRates well_state rows) (index_of_well_ this) (Z.of_nat p)
     (r * factor)%float)
  = Ok (with_wellRates well_state
          (<[Z.to_nat (index_of_well_ this) := <[p := (x * factor)%float]> row]> rows)).
Proof.
  intros Hi Hrow Hx. unfold set_wellRate, set_wellRates, wellRates.
  cbn [ws_wellRates with_wellRates].
  rewrite (at_index _ _ _ Hi Hrow). cbn [bind].
  rewrite (at_lookup _ _ _ Hx). cbn [bind].
  rewrite (set_at_lookup _ _ (x * factor)%float _ Hx). cbn [bind].
  rewrite (set_at_index _ _ _ _ Hi Hrow). reflexivity.
Qed.

(** The rescaling loop, from the phase after the rates [done]: the rates
    [todo] still to come are multiplied by the factor. *)
Lemma scale_loop (well_state : WellState) (factor : float) (todo done : list float)
  (rows : list (list float)) :
  0 <= index_of_well_ this ->
  rows !! Z.to_nat (index_of_well_ this) = Some (done ++ todo) ->
  foldM (fun p well_state =>
           rates <- wellRates well_state (index_of_well_ this) ;;
           r <- at_ rates p ;;
           set_wellRate well_state (index_of_well_ this) p (r * factor)%float)
    (Z.of_nat <$> seq (length done) (length todo)) (with_wellRates well_state rows)
  = Ok (with_wellRates well_state
          (<[Z.to_nat (index_of_well_ this) :=
               done ++ ((fun r => (r * factor)%float) <$> todo)]> rows)).
Proof.
  intros Hi. revert done rows.
  induction todo as [|x todo IH]; intros done rows Hrow.
  - simpl. rewrite app_nil_r in *. rewrite list_insert_id by assumption. reflexivity.
  - cbn [length seq fmap list_fmap foldM].
    rewrite (scale_step well_state factor (done ++ x :: todo) rows (length done) x Hi Hrow)
      by (rewrite lookup_app_r, Nat.sub_diag by lia; reflexivity).
    cbn [bind].
    specialize (IH (done ++ [(x * factor)%float])
                  (<[Z.to_nat (index_of_well_ this) :=
                       <[length done := (x * factor)%float]> (done ++ x :: todo)]> rows)).
    rewrite length_app in IH. simpl in IH. rewrite Nat.add_1_r in IH.
    rewrite IH.
    + rewrite list_insert_insert_eq, <- app_assoc. reflexivity.
    + rewrite list_lookup_insert_eq by (eapply lookup_lt_Some; eassumption).
      f_equal. rewrite insert_app_r_alt, Nat.sub_diag by lia. simpl.
      rewrite <- app_assoc. reflexivity.
Qed.

(** [scaleWellRates] multiplies every rate of the well by the factor when
    the rate vector of the well has one entry per phase. *)
Lemma scaleWellRates_Ok (well_state : WellState) (factor : float) (rates : list float) :
  wellRates well_state (index_of_well_ this) = Ok rates ->
  length rates = numPhases well_state ->
  scaleWellRates this well_state factor
  = Ok (with_wellRates well_state
          (alter (fmap (fun r => (r * factor)%float)) (Z.to_nat (index_of_well_ this))
             (ws_wellRates well_state))).
Proof.
  intros Hr Hlen. apply at_Ok in Hr as [Hi Hrow].
  unfold scaleWellRates, for_upto. rewrite <- Hlen.
  pose proof (scale_loop well_state factor rates [] (ws_wellRates well_state) Hi Hrow) as L.
  simpl in L.
  replace (with_wellRates well_state (ws_wellRates well_state)) with well_state in L
    by (destruct well_state; reflexivity).
  rewrite L. rewrite (alter_lookup_insert _ _ _ _ Hrow). reflexivity.
Qed.

(** [checkGroupConstraints], by the cases of the spec. *)
Lemma checkGroupConstraints_cases
  (well_state : WellState) (group_state : GroupState) (schedule : Schedule)
  (summaryState : SummaryState) (deferred_logger : DeferredLogger) :
  checkGroupConstraints ext this well_state group_state schedule summaryState deferred_logger
  = (grup <- follows_group this well_state ;;
     if grup then Ok (false, well_state, deferred_logger)
     else
       verdict <- parent_group_verdict ext this well_state group_state schedule
                    summaryState deferred_logger ;;
       if fst (fst verdict) then
         well_state' <- set_group_control this well_state ;;
         well_state' <- scaleWellRates this well_state' (snd (fst verdict)) ;;
         Ok (true, well_state', snd verdict)
       else Ok (false, well_state, snd verdict)).
Proof.
  unfold checkGroupConstraints, follows_group, parent_group_verdict, set_group_control,
    Well.isInjector, Well.isProducer.
  cbv zeta. destruct (Well.role (well_ecl_ this)).
  - destruct (currentInjectionControl well_state (index_of_well_ this)) as [[]|f];
      cbn [bind and_then]; try reflexivity.
    all: change (inj_ne _ InjectorCMode.GRUP) with true; cbn iota.
    all: destruct (checkGroupConstraintsInj _ _ _ _ _ _ _ _ _) as [[[[|] scale] log']|f];
      cbn [bind and_then fst snd]; try reflexivity.
    all: run_both.
  - destruct (currentProductionControl well_state (index_of_well_ this)) as [[]|f];
      cbn [bind and_then]; try reflexivity.
    all: change (prod_ne _ ProducerCMode.GRUP) with true; cbn iota.
    all: destruct (checkGroupConstraintsProd _ _ _ _ _ _ _ _ _) as [[[[|] scale] log']|f];
      cbn [bind and_then fst snd]; try reflexivity.
    all: run_both.
Qed.

(** The well state forced to GRUP and rescaled is [forced_to_group]. *)
Lemma force_and_rescale (well_state : WellState) (scale : float) (rates : list float) :
  follows_group this well_state = Ok false ->
  wellRates well_state (index_of_well_ this) = Ok rates ->
  length rates = numPhases well_state ->
  (well_state' <- set_group_control this well_state ;;
   scaleWellRates this well_state' scale)
  = Ok (forced_to_group this well_state scale).
Proof.
  intros Hg Hr Hlen. pose proof Hr as Hr'. apply at_Ok in Hr' as [Hi _].
  unfold follows_group, set_group_control, forced_to_group in *.
  destruct (Well.role (well_ecl_ this)); inv_bind Hg; apply at_Ok in Ha as [_ Ha].
  - unfold set_currentInjectionControl. rewrite (set_at_index _ _ _ _ Hi Ha).
    cbn [bind]. erewrite scaleWellRates_Ok; [reflexivity | exact Hr | exact Hlen].
  - unfold set_currentProductionControl. rewrite (set_at_index _ _ _ _ Hi Ha).
    cbn [bind]. erewrite scaleWellRates_Ok; [reflexivity | exact Hr | exact Hlen].
Qed.

(** C2. When no individual constraint fires the well state is untouched so
    far, and then: if the current mode of the well is GRUP,
    [checkConstraints] returns [false] with the well state and the logger as
    they were; otherwise it takes the verdict of the group evaluator on the
    immediate parent group; a verdict without violation gives [false] and the
    well state untouched; a violation with scale factor [scale] gives [true]
    and the well state in which the control mode of the well is GRUP and each
    entry of the rate vector of the well (one per phase) is the old entry
    times [scale]. *)
Theorem checkConstraints_group_escalation
  (well_state : WellState) (group_state : GroupState) (schedule : Schedule)
  (summaryState : SummaryState) (deferred_logger : DeferredLogger)
  (well_state1 : WellState) :
  checkIndividualConstraints this well_state summaryState = Ok (false, well_state1) ->
  well_state1 = well_state
  /\ (follows_group this well_state = Ok true ->
      checkConstraints ext this well_state group_state schedule summaryState
        deferred_logger = Ok (false, well_state, deferred_logger))
  /\ (forall (scale : float) (log' : DeferredLogger),
        follows_group this well_state = Ok false ->
        parent_group_verdict ext this well_state group_state schedule summaryState
          deferred_logger = Ok ((false, scale), log') ->
        checkConstraints ext this well_state group_state schedule summaryState
          deferred_logger = Ok (false, well_state, log'))
  /\ (forall (scale : float) (log' : DeferredLogger) (rates : list float),
        follows_group this well_state = Ok false ->
        parent_group_verdict ext this well_state group_state schedule summaryState
          deferred_logger = Ok ((true, scale), log') ->
        wellRates well_state (index_of_well_ this) = Ok rates ->
        length rates = numPhases well_state ->
        checkConstraints ext this well_state group_state schedule summaryState
          deferred_logger = Ok (true, forced_to_group this well_state scale, log')
        /\ wellRates (forced_to_group this well_state scale) (index_of_well_ this)
           = Ok ((fun r => (r * scale)%float) <$> rates)
        /\ follows_group this (forced_to_group this well_state scale) = Ok true).
Proof.
  intros Hind. pose proof (checkIndividualConstraints_false _ _ _ _ Hind) as ->.
  assert (E : checkConstraints ext this well_state group_state schedule summaryState
                deferred_logger
              = checkGroupConstraints ext this well_state group_state schedule
                  summaryState deferred_logger).
  { unfold checkConstraints. rewrite Hind. reflexivity. }
  rewrite E, checkGroupConstraints_cases.
  split; [reflexivity |]. split; [| split].
  - intros ->. reflexivity.
  - intros scale log' -> ->. reflexivity.
  - intros scale log' rates Hg Hv Hr Hlen. rewrite Hg, Hv. cbn [bind fst snd].
    pose proof (force_and_rescale well_state scale rates Hg Hr Hlen) as F.
    destruct (set_group_control this well_state) as [ws1|f]; [| discriminate].
    cbn [bind] in F |- *. rewrite F. cbn [bind].
    split; [reflexivity |].
    pose proof Hr as Hr'. apply at_Ok in Hr' as [Hi Hrow].
    unfold forced_to_group, follows_group in *.
    destruct (Well.role (well_ecl_ this)); inv_bind Hg; apply at_Ok in Ha as [_ Ha];
      unfold wellRates, currentInjectionControl, currentProductionControl;
      cbn [ws_wellRates ws_currentInjectionControl ws_currentProductionControl
             with_wellRates with_currentInjectionControl with_currentProductionControl].
    + split.
      * apply at_Ok. split; [assumption |].
        rewrite (alter_lookup_insert _ _ _ _ Hrow).
        apply list_lookup_insert_eq. eapply lookup_lt_Some; eassumption.
      * rewrite (at_index _ _ InjectorCMode.GRUP Hi); [reflexivity |].
        apply list_lookup_insert_eq. eapply lookup_lt_Some; eassumption.
    + split.
      * apply at_Ok. split; [assumption |].
        rewrite (alter_lookup_insert _ _ _ _ Hrow).
        apply list_lookup_insert_eq. eapply lookup_lt_Some; eassumption.
      * rewrite (at_index _ _ ProducerCMode.GRUP Hi); [reflexivity |].
        apply list_lookup_insert_eq. eapply lookup_lt_Some; eassumption.
Qed.

End GroupEscalationProofs.

Lemma checkConstraints_group_escalation_witness :
  checkConstraints (ext_reporting true 0.7) producer_ok producer_ok_state tt tt tt []
  = Ok (true, forced_to_group producer_ok producer_ok_state 0.7, [])
  /\ wellRates (forced_to_group producer_ok producer_ok_state 0.7) 0
     = Ok [-100 * 0.7; -200 * 0.7; -300 * 0.7]%float
  /\ follows_group producer_ok (forced_to_group producer_ok producer_ok_state 0.7)
     = Ok true.
Proof.
  exact (proj2 (proj2 (proj2
           (checkConstraints_group_escalation (ext_reporting true 0.7) producer_ok
              producer_ok_state tt tt tt [] producer_ok_state eq_refl)))
           0.7%float [] [-100; -200; -300]%float eq_refl eq_refl eq_refl eq_refl).
Defined.

(** ** C9: what the decision engine writes into the well state *)

Lemma foldM_invariant {A S : Type} (P : S -> Prop) (body : A -> S -> Result S)
  (l : list A) (s s' : S) :
  (forall x t t', body x t = Ok t' -> P t -> P t') ->
  foldM body l s = Ok s' -> P s -> P s'.
Proof.
  intros Hbody. revert s. induction l as [|x l IH]; simpl; intros s H Hs.
  - congruence.
  - inv_bind H. eauto.
Qed.

Section Frame.
Context {SummaryState Schedule GroupState Group GuideRate : Type}.
Variable ext : Externals SummaryState Schedule GroupState Group GuideRate.
Variable this : WellInterfaceFluidSystem SummaryState GuideRate.

Lemma set_currentInjectionControl_frame (s s' : WellState) (w : Z) (m : InjectorCMode.t) :
  set_currentInjectionControl s w m = Ok s' ->
  ws_wellRates s' = ws_wellRates s /\ ws_wellReservoirRates s' = ws_wellReservoirRates s.
Proof. unfold set_currentInjectionControl. intros H. inv_bind H. injection H as <-. auto. Qed.

Lemma set_currentProductionControl_frame (s s' : WellState) (w : Z) (m : ProducerCMode.t) :
  set_currentProductionControl s w m = Ok s' ->
  ws_wellRates s' = ws_wellRates s /\ ws_wellReservoirRates s' = ws_wellReservoirRates s.
Proof. unfold set_currentProductionControl. intros H. inv_bind H. injection H as <-. auto. Qed.

Lemma set_wellRate_frame (s s' : WellState) (p : Z) (x : float) :
  set_wellRate s (index_of_well_ this) p x = Ok s' ->
  ws_wellReservoirRates s' = ws_wellReservoirRates s
  /\ other_rows this (ws_wellRates s) (ws_wellRates s').
Proof.
  unfold set_wellRate, set_wellRates. intros H. inv_bind H. inv_bind H. inv_bind H.
  injection H as <-. apply set_at_Ok in Ha1 as (_ & _ & ->).
  split; [reflexivity |]. intros w Hw. cbn. apply list_lookup_insert_ne. congruence.
Qed.

Lemma set_wellReservoirRate_frame (s s' : WellState) (p : Z) (x : float) :
  set_wellReservoirRate s (index_of_well_ this) p x = Ok s' ->
  ws_wellRates s' = ws_wellRates s
  /\ other_rows this (ws_wellReservoirRates s) (ws_wellReservoirRates s').
Proof.
  unfold set_wellReservoirRate, set_wellReservoirRates.
  intros H. inv_bind H. inv_bind H. inv_bind H.
  injection H as <-. apply set_at_Ok in Ha1 as (_ & _ & ->).
  split; [reflexivity |]. intros w Hw. cbn. apply list_lookup_insert_ne. congruence.
Qed.

Lemma checkIndividualConstraints_frame
  (well_state well_state' : WellState) (summaryState : SummaryState) (b : bool) :
  checkIndividualConstraints this well_state summaryState = Ok (b, well_state') ->
  ws_wellRates well_state' = ws_wellRates well_state
  /\ ws_wellReservoirRates well_state' = ws_wellReservoirRates well_state.
Proof.
  rewrite checkIndividualConstraints_by_priority.
  unfold individual_constraints_by_priority, injector_recorded.
  destruct (Well.role (well_ecl_ this)); intros H; inv_bind H; inv_bind H;
    destruct a0 as [c|]; try (injection H as <- <-; auto).
  - inv_bind H. injection H as <- <-.
    destruct c; try (injection Ha1 as <-; auto);
      eapply set_currentInjectionControl_frame; eassumption.
  - inv_bind H. injection H as <- <-.
    eapply set_currentProductionControl_frame; eassumption.
Qed.

Lemma scaleWellRates_frame (s s' : WellState) (factor : float) :
  scaleWellRates this s factor = Ok s' ->
  ws_wellReservoirRates s' = ws_wellReservoirRates s
  /\ other_rows this (ws_wellRates s) (ws_wellRates s').
Proof.
  unfold scaleWellRates, for_upto. intros H.
  eapply (foldM_invariant
            (fun t => ws_wellReservoirRates t = ws_wellReservoirRates s
                      /\ other_rows this (ws_wellRates s) (ws_wellRates t))) in H.
  - exact H.
  - intros p t t' Hb [Hres Hrows]. inv_bind Hb. inv_bind Hb.
    apply set_wellRate_frame in Hb as [Hres' Hrows'].
    split; [congruence |]. intros w Hw. rewrite Hrows', Hrows by assumption. reflexivity.
  - split; [reflexivity | intros w Hw; reflexivity].
Qed.

Lemma checkGroupConstraints_frame
  (well_state well_state' : WellState) (group_state : GroupState) (schedule : Schedule)
  (summaryState : SummaryState) (log log' : DeferredLogger) (b : bool) :
  checkGroupConstraints ext this well_state group_state schedule summaryState log
  = Ok (b, well_state', log') ->
  ws_wellReservoirRates well_state' = ws_wellReservoirRates well_state
  /\ other_rows this (ws_wellRates well_state) (ws_wellRates well_state')
  /\ (b = false -> well_state' = well_state)
  /\ (b = true ->
      follows_group this well_state = Ok false
      /\ exists scale log1,
           parent_group_verdict ext this well_state group_state schedule summaryState log
           = Ok ((true, scale), log1)).
Proof.
  rewrite checkGroupConstraints_cases. intros H. inv_bind H.
  destruct a as [|].
  { injection H as <- <- <-. repeat split; try reflexivity; discriminate. }
  inv_bind H. destruct a as [[violated scale] log1]. cbn [fst snd] in H.
  destruct violated.
  - inv_bind H. inv_bind H. injection H as <- <- <-.
    apply scaleWellRates_frame in Ha2 as [Hres Hrows].
    assert (ws_wellRates a = ws_wellRates well_state
            /\ ws_wellReservoirRates a = ws_wellReservoirRates well_state) as [E1 E2].
    { unfold set_group_control in Ha1. destruct (Well.role (well_ecl_ this)).
      - eapply set_currentInjectionControl_frame; eassumption.
      - eapply set_currentProductionControl_frame; eassumption. }
    split; [congruence |]. split; [rewrite <- E1; exact Hrows |].
    split; [discriminate |]. intros _. split; [assumption |]. eauto.
  - injection H as <- <- <-. repeat split; try reflexivity; discriminate.
Qed.

Lemma calculateReservoirRates_frame (well_state well_state' : WellState) :
  calculateReservoirRates this well_state = Ok well_state' ->
  ws_wellRates well_state' = ws_wellRates well_state
  /\ other_rows this (ws_wellReservoirRates well_state) (ws_wellReservoirRates well_state').
Proof.
  unfold calculateReservoirRates, for_upto. cbv zeta. intros H. inv_bind H.
  eapply (foldM_invariant
            (fun t => ws_wellRates t = ws_wellRates well_state
                      /\ other_rows this (ws_wellReservoirRates well_state)
                           (ws_wellReservoirRates t))) in H.
  - exact H.
  - intros p t t' Hb [Hrates Hrows]. inv_bind Hb.
    apply set_wellReservoirRate_frame in Hb as [Hrates' Hrows'].
    split; [congruence |]. intros w Hw. rewrite Hrows', Hrows by assumption. reflexivity.
  - split; [reflexivity | intros w Hw; reflexivity].
Qed.

(** C9, amended. The constraint checker never writes a reservoir-voidage
    rate, and writes no surface rate of another well; it writes the surface
    rates of this well only on the rescaling path, that is when the group
    evaluator reported a violation: [checkIndividualConstraints] leaves both
    rate tables as they were, [checkGroupConstraints] returning [false]
    leaves the whole well state as it was, and [checkConstraints] changes the
    surface rates only with a violation verdict of the parent group.
    [calculateReservoirRates] leaves the surface rates as they were and
    writes the reservoir-voidage rates of this well only. The economic
    evaluators take the well state read-only and return none. *)
Theorem rates_written_only_by_rescaling_and_conversion :
  (forall (well_state well_state' : WellState) (summaryState : SummaryState) (b : bool),
     checkIndividualConstraints this well_state summaryState = Ok (b, well_state') ->
     ws_wellRates well_state' = ws_wellRates well_state
     /\ ws_wellReservoirRates well_state' = ws_wellReservoirRates well_state)
  /\ (forall (well_state well_state' : WellState) (group_state : GroupState)
        (schedule : Schedule) (summaryState : SummaryState)
        (log log' : DeferredLogger) (b : bool),
        checkGroupConstraints ext this well_state group_state schedule summaryState log
        = Ok (b, well_state', log') ->
        ws_wellReservoirRates well_state' = ws_wellReservoirRates well_state
        /\ other_rows this (ws_wellRates well_state) (ws_wellRates well_state')
        /\ (b = false -> well_state' = well_state))
  /\ (forall (well_state well_state' : WellState) (group_state : GroupState)
        (schedule : Schedule) (summaryState : SummaryState)
        (log log' : DeferredLogger) (b : bool),
        checkConstraints ext this well_state group_state schedule summaryState log
        = Ok (b, well_state', log') ->
        ws_wellReservoirRates well_state' = ws_wellReservoirRates well_state
        /\ other_rows this (ws_wellRates well_state) (ws_wellRates well_state')
        /\ (ws_wellRates well_state' = ws_wellRates well_state
            \/ exists scale log1,
                 parent_group_verdict ext this well_state group_state schedule
                   summaryState log = Ok ((true, scale), log1)))
  /\ (forall well_state well_state' : WellState,
        calculateReservoirRates this well_state = Ok well_state' ->
        ws_wellRates well_state' = ws_wellRates well_state
        /\ other_rows this (ws_wellReservoirRates well_state)
             (ws_wellReservoirRates well_state')).
Proof.
  split; [| split; [| split]].
  - intros. eapply checkIndividualConstraints_frame; eassumption.
  - intros ws ws' gs sched ss log log' b H.
    apply checkGroupConstraints_frame in H as (H1 & H2 & H3 & _). auto.
  - intros ws ws' gs sched ss log log' b H. unfold checkConstraints in H.
    inv_bind H. destruct a as [ind ws1]. cbn [fst snd] in H.
    pose proof (checkIndividualConstraints_frame _ _ _ _ Ha) as [E1 E2].
    destruct ind.
    + injection H as <- <- <-. split; [assumption |].
      split; [intros w Hw; rewrite E1; reflexivity | left; assumption].
    + apply checkIndividualConstraints_false in Ha as ->.
      apply checkGroupConstraints_frame in H as (H1 & H2 & H3 & H4).
      split; [assumption |]. split; [assumption |].
      destruct b.
      * right. apply H4. reflexivity.
      * left. rewrite H3; reflexivity.
  - intros. apply calculateReservoirRates_frame. assumption.
Qed.

End Frame.

Lemma rates_written_only_by_rescaling_and_conversion_witness :
  exists well_state',
    calculateReservoirRates injector_RESV stale_reservoir_state = Ok well_state'
    /\ ws_wellRates well_state' = ws_wellRates stale_reservoir_state.
Proof.
  eexists. split; [reflexivity |].
  exact (proj1 (proj2 (proj2 (proj2 (rates_written_only_by_rescaling_and_conversion
                                       (ext_reporting false 1) injector_RESV)))
                  stale_reservoir_state _ eq_refl)).
Defined.

(** C9 as stated fails: [calculateReservoirRates] rewrites the
    reservoir-voidage rates of the well, here from (50, 30, 40) to the rates
    (120, 0, 0) the converter gives, and no group violation is involved. *)
Lemma calculateReservoirRates_rewrites_reservoir_rates :
  exists well_state',
    calculateReservoirRates injector_RESV stale_reservoir_state = Ok well_state'
    /\ ws_wellReservoirRates stale_reservoir_state = [[50; 30; 40]%float]
    /\ ws_wellReservoirRates well_state' = [[120; 0; 0]%float]
    /\ ws_wellReservoirRates well_state' <> ws_wellReservoirRates stale_reservoir_state.
Proof.
  eexists. split; [reflexivity |]. split; [reflexivity |]. split; [reflexivity |].
  cbn. intros E. discriminate E.
Qed.

(** ** C1: the control mode recorded by the constraint checker *)

Section RecordedMode.
Context {SummaryState Schedule GroupState Group GuideRate : Type}.
Variable ext : Externals SummaryState Schedule GroupState Group GuideRate.
Variable this : WellInterfaceFluidSystem SummaryState GuideRate.

Lemma scaleWellRates_controls (s s' : WellState) (factor : float) :
  scaleWellRates this s factor = Ok s' ->
  ws_currentInjectionControl s' = ws_currentInjectionControl s
  /\ ws_currentProductionControl s' = ws_currentProductionControl s.
Proof.
  unfold scaleWellRates, for_upto. intros H.
  eapply (foldM_invariant
            (fun t => ws_currentInjectionControl t = ws_currentInjectionControl s
                      /\ ws_currentProductionControl t = ws_currentProductionControl s))
    in H.
  - exact H.
  - intros p t t' Hb [H1 H2]. inv_bind Hb. inv_bind Hb.
    unfold set_wellRate, set_wellRates in Hb. inv_bind Hb. inv_bind Hb. inv_bind Hb.
    injection Hb as <-. auto.
  - auto.
Qed.

(** [checkConstraints] returning [false] has left the well state, and so the
    recorded control mode, as it was. *)
Lemma checkConstraints_false_unchanged
  (well_state well_state' : WellState) (group_state : GroupState) (schedule : Schedule)
  (summaryState : SummaryState) (log log' : DeferredLogger) :
  checkConstraints ext this well_state group_state schedule summaryState log
  = Ok (false, well_state', log') ->
  well_state' = well_state.
Proof.
  unfold checkConstraints. intros H. inv_bind H. destruct a as [[|] ws1];
    cbn [fst snd] in H; [discriminate |].
  apply checkIndividualConstraints_false in Ha as ->.
  apply checkGroupConstraints_frame in H as (_ & _ & H3 & _). auto.
Qed.

Lemma fires_not_current_producer (well_state : WellState) (summaryState : SummaryState)
  (cc c : ProducerCMode.t) :
  producer_fires this well_state summaryState cc c = Ok true -> c <> cc.
Proof.
  unfold producer_fires. destruct (ProductionControls.hasControl _ c); cbn [andb];
    [| discriminate].
  unfold prod_ne. destruct (bool_decide (cc <> c)) eqn:E; [| discriminate].
  apply bool_decide_eq_true in E. congruence.
Qed.

Lemma fires_not_current_injector (well_state : WellState) (summaryState : SummaryState)
  (cc c : InjectorCMode.t) :
  injector_fires this well_state summaryState cc c = Ok true -> c <> cc.
Proof.
  unfold injector_fires. destruct (InjectionControls.hasControl _ c); cbn [andb];
    [| discriminate].
  unfold inj_ne. destruct (bool_decide (cc <> c)) eqn:E; [| discriminate].
  apply bool_decide_eq_true in E. congruence.
Qed.

Lemma recorded_production_control (s s' : WellState) (c cc : ProducerCMode.t) :
  set_currentProductionControl s (index_of_well_ this) c = Ok s' ->
  currentProductionControl s (index_of_well_ this) = Ok cc ->
  currentProductionControl s' (index_of_well_ this) = Ok c.
Proof.
  unfold set_currentProductionControl, currentProductionControl. intros H Hc.
  inv_bind H. injection H as <-. apply set_at_Ok in Ha as (Hi & Hlt & ->).
  cbn. apply at_Ok. split; [assumption |]. apply list_lookup_insert_eq. assumption.
Qed.

Lemma recorded_injection_control (s s' : WellState) (c cc : InjectorCMode.t) :
  set_currentInjectionControl s (index_of_well_ this) c = Ok s' ->
  currentInjectionControl s (index_of_well_ this) = Ok cc ->
  currentInjectionControl s' (index_of_well_ this) = Ok c.
Proof.
  unfold set_currentInjectionControl, currentInjectionControl. intros H Hc.
  inv_bind H. injection H as <-. apply set_at_Ok in Ha as (Hi & Hlt & ->).
  cbn. apply at_Ok. split; [assumption |]. apply list_lookup_insert_eq. assumption.
Qed.

(** For a producer, [checkConstraints] returning [true] has changed the
    recorded production control: every producer branch records its mode. *)
Lemma checkConstraints_true_producer
  (well_state well_state' : WellState) (group_state : GroupState) (schedule : Schedule)
  (summaryState : SummaryState) (log log' : DeferredLogger) :
  Well.role (well_ecl_ this) = Producer ->
  checkConstraints ext this well_state group_state schedule summaryState log
  = Ok (true, well_state', log') ->
  currentProductionControl well_state' (index_of_well_ this)
  <> currentProductionControl well_state (index_of_well_ this).
Proof.
  intros Hrole H. unfold checkConstraints in H. inv_bind H.
  destruct a as [[|] ws1]; cbn [fst snd] in H.
  - injection H as <- <-. rewrite checkIndividualConstraints_by_priority in Ha.
    unfold individual_constraints_by_priority in Ha. rewrite Hrole in Ha.
    inv_bind Ha. inv_bind Ha. destruct a0 as [c|]; [| discriminate].
    inv_bind Ha. injection Ha as <-.
    apply first_firing_Some in Ha1 as (before & after & _ & Hf & _).
    apply fires_not_current_producer in Hf.
    rewrite (recorded_production_control _ _ _ _ Ha2 Ha0), Ha0. congruence.
  - apply checkIndividualConstraints_false in Ha as ->.
    rewrite checkGroupConstraints_cases in H. inv_bind H.
    unfold follows_group, parent_group_verdict, set_group_control in *.
    rewrite Hrole in *. inv_bind Ha. injection Ha as <-.
    destruct (bool_decide (a0 = ProducerCMode.GRUP)) eqn:E; [discriminate |].
    apply bool_decide_eq_false in E.
    inv_bind H. destruct (fst (fst a)); [| discriminate].
    inv_bind H. inv_bind H. injection H as <- _.
    match goal with
    | Hs : scaleWellRates _ _ _ = Ok _, Hg : set_currentProductionControl _ _ _ = Ok _,
      Hcur : currentProductionControl _ _ = Ok _ |- _ =>
        apply scaleWellRates_controls in Hs as [_ Hc];
        pose proof (recorded_production_control _ _ _ _ Hg Hcur) as R;
        unfold currentProductionControl in *; rewrite Hc, R, Hcur; congruence
    end.
Qed.

(** For an injector, [checkConstraints] returning [true] has changed the
    recorded injection control, except when the control that fired is RESV or
    THP: then the well state is the one passed. *)
Lemma checkConstraints_true_injector
  (well_state well_state' : WellState) (group_state : GroupState) (schedule : Schedule)
  (summaryState : SummaryState) (log log' : DeferredLogger) :
  Well.role (well_ecl_ this) = Injector ->
  checkConstraints ext this well_state group_state schedule summaryState log
  = Ok (true, well_state', log') ->
  currentInjectionControl well_state' (index_of_well_ this)
  <> currentInjectionControl well_state (index_of_well_ this)
  \/ (well_state' = well_state
      /\ exists cc c,
           currentInjectionControl well_state (index_of_well_ this) = Ok cc
           /\ first_firing (injector_fires this well_state summaryState cc)
                injector_priority = Ok (Some c)
           /\ (c = InjectorCMode.RESV \/ c = InjectorCMode.THP)).
Proof.
  intros Hrole H. unfold checkConstraints in H. inv_bind H.
  destruct a as [[|] ws1]; cbn [fst snd] in H.
  - injection H as <- <-. rewrite checkIndividualConstraints_by_priority in Ha.
    unfold individual_constraints_by_priority in Ha. rewrite Hrole in Ha.
    inv_bind Ha. inv_bind Ha. destruct a0 as [c|]; [| discriminate].
    inv_bind Ha. injection Ha as <-.
    pose proof Ha1 as Hfirst.
    apply first_firing_Some in Ha1 as (before & after & Hord & Hf & _).
    pose proof (fires_not_current_injector _ _ _ _ Hf) as Hne.
    destruct c; cbn [injector_recorded] in Ha2.
    + left. rewrite (recorded_injection_control _ _ _ _ Ha2 Ha0), Ha0. congruence.
    + right. injection Ha2 as <-. split; [reflexivity |]. eauto 6.
    + left. rewrite (recorded_injection_control _ _ _ _ Ha2 Ha0), Ha0. congruence.
    + right. injection Ha2 as <-. split; [reflexivity |]. eauto 6.
    + exfalso. unfold injector_priority in Hord.
      destruct before as [|b1 [|b2 [|b3 [|b4 [|b5 before]]]]]; discriminate Hord.
  - apply checkIndividualConstraints_false in Ha as ->. left.
    rewrite checkGroupConstraints_cases in H. inv_bind H.
    unfold follows_group, parent_group_verdict, set_group_control in *.
    rewrite Hrole in *. inv_bind Ha. injection Ha as <-.
    destruct (bool_decide (a0 = InjectorCMode.GRUP)) eqn:E; [discriminate |].
    apply bool_decide_eq_false in E.
    inv_bind H. destruct (fst (fst a)); [| discriminate].
    inv_bind H. inv_bind H. injection H as <- _.
    match goal with
    | Hs : scaleWellRates _ _ _ = Ok _, Hg : set_currentInjectionControl _ _ _ = Ok _,
      Hcur : currentInjectionControl _ _ = Ok _ |- _ =>
        apply scaleWellRates_controls in Hs as [Hc _];
        pose proof (recorded_injection_control _ _ _ _ Hg Hcur) as R;
        unfold currentInjectionControl in *; rewrite Hc, R, Hcur; congruence
    end.
Qed.

End RecordedMode.

(** C1, evaluated on the code. An injector on RATE control whose reservoir
    rate exceeds the RESV limit: [checkConstraints] returns [true] and the
    well state comes back unchanged, the injection control still RATE. The
    same with the THP limit exceeded. The BHP branch of the same function
    does record the mode: with the BHP limit exceeded the control becomes
    BHP. *)
Theorem checkConstraints_injector_RESV_THP_mode_not_recorded :
  (checkConstraints (ext_reporting false 1) injector_RESV injector_RESV_state tt tt tt []
   = Ok (true, injector_RESV_state, [])
   /\ currentInjectionControl injector_RESV_state 0 = Ok InjectorCMode.RATE)
  /\ (checkConstraints (ext_reporting false 1) injector_RESV injector_THP_state tt tt tt []
      = Ok (true, injector_THP_state, [])
      /\ currentInjectionControl injector_THP_state 0 = Ok InjectorCMode.RATE)
  /\ (exists well_state',
        checkConstraints (ext_reporting false 1) injector_RESV injector_BHP_RATE_state
          tt tt tt [] = Ok (true, well_state', [])
        /\ currentInjectionControl injector_BHP_RATE_state 0 = Ok InjectorCMode.GRUP
        /\ currentInjectionControl well_state' 0 = Ok InjectorCMode.BHP).
Proof.
  split; [| split].
  - split; reflexivity.
  - split; reflexivity.
  - eexists. split; [reflexivity |]. split; reflexivity.
Qed.

(** ** C4: the minimum-rate limits close the well and end the evaluation *)

Section RateLimitProofs.
Context {SummaryState GuideRate : Type}.
Variable this : WellInterfaceFluidSystem SummaryState GuideRate.

Lemma readable_at (v : list float) (phase : BlackoilPhases) :
  readable this v phase = true ->
  FluidSystem_phaseIsActive this phase = true
  /\ at_ v (phase_pos (phaseUsage this) phase) = Ok (rate_of this v phase).
Proof.
  unfold readable, rate_of. intros H. apply andb_prop in H as [H1 H2].
  split; [assumption |].
  destruct (at_ v (phase_pos (phaseUsage this) phase)); [reflexivity | discriminate].
Qed.

(** [checkRateEconLimits] returns [true], with the logger untouched, when a
    configured minimum rate is violated. *)
Lemma checkRateEconLimits_violated (v : list float) (deferred_logger : DeferredLogger) :
  min_rate_limits_evaluable this v = true ->
  any_min_rate_violated this v = true ->
  checkRateEconLimits this (Well.getEconLimits (well_ecl_ this)) v deferred_logger
  = Ok (true, deferred_logger).
Proof.
  unfold min_rate_limits_evaluable, any_min_rate_violated, checkRateEconLimits.
  cbv zeta. intros He Hv.
  apply andb_prop in He as [He Hliq]. apply andb_prop in He as [Hoil Hgas].
  destruct (WellEconProductionLimits.onMinOilRate _).
  { cbn [implb] in Hoil. apply readable_at in Hoil as [-> ->]. cbn [assert bind and_then].
    cbn [andb orb] in Hv.
    destruct (flt (abs (rate_of this v Oil)) _) eqn:E1; [reflexivity |].
    cbn [orb bind] in Hv |- *.
    destruct (WellEconProductionLimits.onMinGasRate _).
    { cbn [implb] in Hgas. apply readable_at in Hgas as [-> ->]. cbn [assert bind and_then].
      cbn [andb] in Hv.
      destruct (flt (abs (rate_of this v Gas)) _) eqn:E2; [reflexivity |].
      cbn [orb bind] in Hv |- *.
      destruct (WellEconProductionLimits.onMinLiquidRate _); [| discriminate].
      cbn [implb andb] in Hliq, Hv. apply andb_prop in Hliq as [_ Hw].
      apply readable_at in Hw as [-> ->]. cbn [assert bind and_then].
      rewrite Hv. reflexivity. }
    cbn [andb orb bind] in Hv |- *.
    destruct (WellEconProductionLimits.onMinLiquidRate _); [| discriminate].
    cbn [implb andb] in Hliq, Hv. apply andb_prop in Hliq as [_ Hw].
    apply readable_at in Hw as [-> ->]. cbn [assert bind and_then].
    rewrite Hv. reflexivity. }
  cbn [andb orb bind and_then] in Hv |- *.
  destruct (WellEconProductionLimits.onMinGasRate _).
  { cbn [implb] in Hgas. apply readable_at in Hgas as [-> ->]. cbn [assert bind and_then].
    cbn [andb] in Hv.
    destruct (flt (abs (rate_of this v Gas)) _) eqn:E2; [reflexivity |].
    cbn [orb bind] in Hv |- *.
    destruct (WellEconProductionLimits.onMinLiquidRate _); [| discriminate].
    cbn [implb andb] in Hliq, Hv. apply andb_prop in Hliq as [Ho Hw].
    apply readable_at in Ho as [-> ->]. apply readable_at in Hw as [-> ->].
    cbn [assert bind and_then]. rewrite Hv. reflexivity. }
  cbn [andb orb bind] in Hv |- *.
  destruct (WellEconProductionLimits.onMinLiquidRate _); [| discriminate].
  cbn [implb andb] in Hliq, Hv. apply andb_prop in Hliq as [Ho Hw].
  apply readable_at in Ho as [-> ->]. apply readable_at in Hw as [-> ->].
  cbn [assert bind and_then]. rewrite Hv. reflexivity.
Qed.

(** C4. For a well that is not stopped and has a rate limit in effect: when
    one of its configured minimum oil, gas or liquid rates is violated on the
    vector chosen by the quantity-limit mode (the potentials under POTN, the
    instantaneous rates otherwise), [updateWellTestStateEconomic] closes the
    well in the ledger with reason ECONOMIC and returns. The ledger returned
    is the one passed with that closure and nothing else: no completion is
    recorded, whatever the ratio limits and the perforation rates are, and
    the logger holds the messages of the rate closure only. *)
Theorem updateWellTestStateEconomic_rate_limit_closes_well
  (well_state : WellState) (simulation_time : float) (write_message_to_opmlog : bool)
  (well_test_state : WellTestState) (deferred_logger : DeferredLogger) (v : list float) :
  wellIsStopped this = false ->
  WellEconProductionLimits.onAnyEffectiveLimit (Well.getEconLimits (well_ecl_ this)) = true ->
  WellEconProductionLimits.onAnyRateLimit (Well.getEconLimits (well_ecl_ this)) = true ->
  rates_or_potentials this well_state = Ok v ->
  min_rate_limits_evaluable this v = true ->
  any_min_rate_violated this v = true ->
  updateWellTestStateEconomic this well_state simulation_time write_message_to_opmlog
    well_test_state deferred_logger
  = Ok (closeWell (name this) Reason.ECONOMIC simulation_time well_test_state,
        log_after_rate_closure this write_message_to_opmlog deferred_logger)
  /\ hasWellClosed (name this) Reason.ECONOMIC
       (closeWell (name this) Reason.ECONOMIC simulation_time well_test_state) = true
  /\ completions (closeWell (name this) Reason.ECONOMIC simulation_time well_test_state)
     = completions well_test_state.
Proof.
  intros Hstop Heff Hrate Hv Heval Hviol.
  split; [| split].
  - unfold updateWellTestStateEconomic, log_after_rate_closure.
    rewrite Hstop, Heff, Hrate. cbv zeta. cbn [negb].
    unfold rates_or_potentials in Hv.
    assert (E : (match WellEconProductionLimits.quantityLimit
                         (Well.getEconLimits (well_ecl_ this)) with
                 | QuantityLimit.POTN =>
                     potentials <- ptr_at (ws_wellPotentials well_state)
                                     (index_of_well_ this * Z.of_nat (number_of_phases_ this)) ;;
                     checkRateEconLimits this (Well.getEconLimits (well_ecl_ this))
                       potentials deferred_logger
                 | _ =>
                     rates <- wellRates well_state (index_of_well_ this) ;;
                     checkRateEconLimits this (Well.getEconLimits (well_ecl_ this))
                       rates deferred_logger
                 end) = Ok (true, deferred_logger)).
    { destruct (WellEconProductionLimits.quantityLimit _); rewrite Hv; cbn [bind];
        apply checkRateEconLimits_violated; assumption. }
    rewrite E. reflexivity.
  - unfold hasWellClosed, closeWell. cbn [wells]. rewrite lookup_insert_eq. reflexivity.
  - reflexivity.
Qed.

End RateLimitProofs.

Lemma updateWellTestStateEconomic_rate_limit_closes_well_witness :
  updateWellTestStateEconomic producer_min_oil producer_min_oil_state 10 true
    empty_ledger []
  = Ok (closeWell "W1" Reason.ECONOMIC 10 empty_ledger,
        [LogInfo "well W1 will be shut due to rate economic limit"])
  /\ (exists report,
        checkRatioEconLimits producer_min_oil min_oil_and_water_cut producer_min_oil_state
          RatioLimitCheckReport_init [] = Ok (report, [])
        /\ ratio_limit_violated report = true).
Proof.
  split.
  - exact (proj1 (updateWellTestStateEconomic_rate_limit_closes_well producer_min_oil
                    producer_min_oil_state 10 true empty_ledger [] [-20; -5; 0]%float
                    eq_refl eq_refl eq_refl eq_refl eq_refl eq_refl)).
  - eexists. split; reflexivity.
Defined.

(** ** C3: all completions closed means the well is closed *)

Section LedgerProofs.
Context {SummaryState GuideRate : Type}.
Variable this : WellInterfaceFluidSystem SummaryState GuideRate.

Lemma hasWellClosed_closeWell (n : string) (r : Reason.t) (t : float) (s : WellTestState) :
  hasWellClosed n r (closeWell n r t s) = true.
Proof.
  unfold hasWellClosed, closeWell. cbn [wells]. rewrite lookup_insert_eq. cbn.
  apply bool_decide_eq_true. reflexivity.
Qed.

Lemma hasCompletion_closeWell (n n' : string) (c : Z) (r : Reason.t) (t : float)
  (s : WellTestState) :
  hasCompletion n c (closeWell n' r t s) = hasCompletion n c s.
Proof. reflexivity. Qed.

Lemma hasCompletion_addClosedCompletion (n : string) (c : Z) (t : float) (s : WellTestState) :
  hasCompletion n c (addClosedCompletion n c t s) = true.
Proof.
  unfold hasCompletion, addClosedCompletion. cbn [completions].
  rewrite lookup_insert_eq. reflexivity.
Qed.

(** The loop over the connections finds no open connection outside the
    closed completions exactly when there is none. *)
Lemma allCompletionsClosed_iff (well_test_state : WellTestState) :
  allCompletionsClosed this well_test_state = true
  <-> all_open_connections_closed this well_test_state.
Proof.
  unfold allCompletionsClosed, all_open_connections_closed.
  generalize (Well.getConnections (well_ecl_ this)). intros l.
  assert (G : forall acc,
    foldl (fun acc connection =>
             if bool_decide (Connection.state connection = ConnectionState.OPEN)
                && negb (hasCompletion (name this) (Connection.complnum connection)
                           well_test_state)
             then false else acc) acc l = true
    <-> acc = true
        /\ forall connection, connection ∈ l ->
             Connection.state connection = ConnectionState.OPEN ->
             hasCompletion (name this) (Connection.complnum connection) well_test_state
             = true).
  { induction l as [|c l IH]; intros acc; cbn [foldl].
    - split; [intros ->; split; [reflexivity | intros ? Hin; inversion Hin] | intros [-> _]; reflexivity].
    - rewrite IH. split.
      + intros [Hacc Hl].
        destruct (bool_decide (Connection.state c = ConnectionState.OPEN)) eqn:Eo;
          destruct (hasCompletion (name this) (Connection.complnum c) well_test_state) eqn:Ec;
          cbn [andb negb] in Hacc; try discriminate; (split; [assumption |]);
          intros c' Hin Hopen; apply elem_of_cons in Hin as [-> | Hin]; auto;
          apply bool_decide_eq_false in Eo; contradiction.
      + intros [-> Hl]. split.
        * destruct (bool_decide (Connection.state c = ConnectionState.OPEN)) eqn:Eo;
            [| reflexivity].
          apply bool_decide_eq_true in Eo.
          rewrite (Hl c (list_elem_of_here _ _) Eo). reflexivity.
        * intros c' Hin. apply Hl. apply list_elem_of_further. assumption. }
  rewrite G. split; [intros [_ H]; exact H | intros H; split; [reflexivity | exact H]].
Qed.

Lemma ledger_invariant_closeWell (t : float) (s : WellTestState) :
  ledger_invariant this (closeWell (name this) Reason.ECONOMIC t s).
Proof. intros _. apply hasWellClosed_closeWell. Qed.

Lemma ledger_invariant_after_CON (worst : Z) (t : float) (s : WellTestState) :
  ledger_invariant this (ledger_after_CON this worst t s).
Proof.
  unfold ledger_after_CON. cbv zeta.
  destruct (allCompletionsClosed this (addClosedCompletion (name this) worst t s)) eqn:E.
  - apply ledger_invariant_closeWell.
  - intros H. apply allCompletionsClosed_iff in H. congruence.
Qed.

(** C3. Under the CON workover, when the ratio check reports a violation,
    [updateWellTestStateEconomic] records the worst-offending completion as
    closed and then, if every connection of the well whose state is OPEN
    belongs to a completion recorded closed, closes the well with reason
    ECONOMIC; so in the ledger it returns, all completions closed implies the
    well closed. More generally every call that returns preserves that
    implication, whatever path it takes. *)
Theorem all_completions_closed_closes_well :
  (forall (well_state : WellState) (simulation_time : float)
     (write_message_to_opmlog : bool) (well_test_state : WellTestState)
     (deferred_logger log1 log2 : DeferredLogger) (report : RatioLimitCheckReport),
     wellIsStopped this = false ->
     WellEconProductionLimits.onAnyEffectiveLimit (Well.getEconLimits (well_ecl_ this))
     = true ->
     rate_limit_stage this well_state deferred_logger = Ok (false, log1) ->
     WellEconProductionLimits.onAnyRatioLimit (Well.getEconLimits (well_ecl_ this)) = true ->
     checkRatioEconLimits this (Well.getEconLimits (well_ecl_ this)) well_state
       RatioLimitCheckReport_init log1 = Ok (report, log2) ->
     ratio_limit_violated report = true ->
     WellEconProductionLimits.workover (Well.getEconLimits (well_ecl_ this))
     = EconWorkover.CON ->
     let ledger :=
       ledger_after_CON this (worst_offending_completion report) simulation_time
         well_test_state in
     (exists log3,
        updateWellTestStateEconomic this well_state simulation_time
          write_message_to_opmlog well_test_state deferred_logger = Ok (ledger, log3))
     /\ hasCompletion (name this) (worst_offending_completion report) ledger = true
     /\ (all_open_connections_closed this ledger ->
         hasWellClosed (name this) Reason.ECONOMIC ledger = true))
  /\ (forall (well_state : WellState) (simulation_time : float)
        (write_message_to_opmlog : bool) (well_test_state ledger : WellTestState)
        (deferred_logger log' : DeferredLogger),
        updateWellTestStateEconomic this well_state simulation_time
          write_message_to_opmlog well_test_state deferred_logger = Ok (ledger, log') ->
        ledger_invariant this well_test_state ->
        ledger_invariant this ledger).
Proof.
  split.
  - intros ws t b wts log log1 log2 report Hstop Heff Hrate Hratio Hcheck Hviol Hwork ledger.
    split; [| split].
    + unfold updateWellTestStateEconomic. rewrite Hstop, Heff. cbv zeta. cbn [negb].
      unfold rate_limit_stage, rates_or_potentials in Hrate.
      destruct (WellEconProductionLimits.onAnyRateLimit _);
        [destruct (WellEconProductionLimits.quantityLimit _) |];
        rewrite Hrate; cbn [bind fst snd]; rewrite Hratio; cbn [negb];
        rewrite Hcheck; cbn [bind fst snd]; rewrite Hviol, Hwork;
        subst ledger; unfold ledger_after_CON; cbv zeta;
        destruct (allCompletionsClosed this _); eexists; reflexivity.
    + subst ledger. unfold ledger_after_CON. cbv zeta.
      destruct (allCompletionsClosed this _);
        rewrite ?hasCompletion_closeWell; apply hasCompletion_addClosedCompletion.
    + apply ledger_invariant_after_CON.
  - intros ws t b wts ledger log log' H Hinv.
    unfold updateWellTestStateEconomic in H.
    destruct (wellIsStopped this); [injection H as <- <-; exact Hinv |].
    destruct (negb _); [injection H as <- <-; exact Hinv |].
    cbv zeta in H. inv_bind H. destruct a as [[|] log1]; cbn [fst snd] in H.
    { injection H as <- <-. apply ledger_invariant_closeWell. }
    destruct (negb _); [injection H as <- <-; exact Hinv |].
    inv_bind H. destruct a as [report log2]. cbn [fst snd] in H.
    destruct (ratio_limit_violated report); [| injection H as <- <-; exact Hinv].
    destruct (WellEconProductionLimits.workover _).
    + injection H as <- <-. exact Hinv.
    + pose proof (ledger_invariant_after_CON (worst_offending_completion report) t wts)
        as L. unfold ledger_after_CON in L. cbv zeta in L.
      destruct (allCompletionsClosed this _); injection H as <- <-; exact L.
    + injection H as <- <-. exact Hinv.
    + injection H as <- <-. apply ledger_invariant_closeWell.
    + injection H as <- <-. exact Hinv.
Qed.

End LedgerProofs.

Lemma all_completions_closed_closes_well_witness :
  (exists log3,
     updateWellTestStateEconomic two_completion_producer second_closure_state 20 true
       (addClosedCompletion "W1" 1 10 empty_ledger) []
     = Ok (ledger_after_CON two_completion_producer 2 20
             (addClosedCompletion "W1" 1 10 empty_ledger), log3))
  /\ hasWellClosed "W1" Reason.ECONOMIC
       (ledger_after_CON two_completion_producer 2 20
          (addClosedCompletion "W1" 1 10 empty_ledger)) = true
  /\ hasWellClosed "W1" Reason.ECONOMIC
       (ledger_after_CON two_completion_producer 1 10 empty_ledger) = false.
Proof.
  pose proof (proj1 (all_completions_closed_closes_well two_completion_producer)
                second_closure_state 20%float true
                (addClosedCompletion "W1" 1 10 empty_ledger)
                [] [] []
                {| ratio_limit_violated := true;
                   worst_offending_completion := 2;
                   violation_extent := 1.2 |}
                eq_refl eq_refl eq_refl eq_refl eq_refl eq_refl eq_refl) as (H1 & _ & H3).
  split; [exact H1 |]. split; [| reflexivity].
  apply H3. apply allCompletionsClosed_iff. reflexivity.
Defined.

(** ** The rates of a completion *)

Section CompletionRates.
Context {SummaryState GuideRate : Type}.
Variable this : WellInterfaceFluidSystem SummaryState GuideRate.
Variable perf_phase_rates : list float.

Lemma perforation_rates_read (c : Z) (p : nat) (x : float) :
  0 <= c ->
  perforation_rates this perf_phase_rates c !! p = Some x ->
  at_ perf_phase_rates (c * Z.of_nat (number_of_phases_ this) + Z.of_nat p) = Ok x.
Proof.
  unfold perforation_rates. intros Hc H. apply lookup_take_Some in H as [H Hp].
  rewrite lookup_drop in H. apply at_Ok. split; [lia |].
  replace (Z.to_nat (c * Z.of_nat (number_of_phases_ this) + Z.of_nat p))
    with (Z.to_nat (c * Z.of_nat (number_of_phases_ this)) + p)%nat by lia.
  exact H.
Qed.

(** The loop over the phases for one connection, from the phase after the
    entries [acc] already updated. *)
Lemma add_perforation_loop (c : Z) (todo stodo acc sacc : list float) :
  0 <= c ->
  length stodo = length todo ->
  length sacc = length acc ->
  perforation_rates this perf_phase_rates c = sacc ++ stodo ->
  foldM (fun p completion_rates =>
           connection_rate <-
             at_ perf_phase_rates (c * Z.of_nat (number_of_phases_ this) + p) ;;
           old <- at_ completion_rates p ;;
           set_at completion_rates p (old + connection_rate)%float)
    (Z.of_nat <$> seq (length acc) (length todo)) (acc ++ todo)
  = Ok (acc ++ zip_with PrimFloat.add todo stodo).
Proof.
  intros Hc. revert stodo acc sacc.
  induction todo as [|x todo IH]; intros stodo acc sacc Hl Hla Hs.
  - reflexivity.
  - destruct stodo as [|y stodo]; [discriminate |].
    cbn [length seq fmap list_fmap foldM zip_with].
    rewrite (perforation_rates_read c (length acc) y Hc)
      by (rewrite Hs, <- Hla, lookup_app_r, Nat.sub_diag by lia; reflexivity).
    cbn [bind].
    rewrite (at_lookup (acc ++ x :: todo) (length acc) x)
      by (rewrite lookup_app_r, Nat.sub_diag by lia; reflexivity).
    cbn [bind].
    rewrite (set_at_lookup (acc ++ x :: todo) (length acc) (x + y)%float x)
      by (rewrite lookup_app_r, Nat.sub_diag by lia; reflexivity).
    cbn [bind].
    rewrite insert_app_r_alt, Nat.sub_diag by lia. cbn [insert list_insert].
    replace (S (length acc)) with (length (acc ++ [(x + y)%float]))
      by (rewrite length_app; cbn [length]; lia).
    replace (acc ++ (x + y)%float :: todo) with ((acc ++ [(x + y)%float]) ++ todo)
      by (rewrite <- app_assoc; reflexivity).
    rewrite (IH stodo (acc ++ [(x + y)%float]) (sacc ++ [y])).
    + rewrite <- app_assoc. reflexivity.
    + cbn [length] in Hl. lia.
    + rewrite !length_app. cbn [length]. lia.
    + rewrite <- app_assoc. exact Hs.
Qed.

Lemma add_perforation (c : Z) (completion_rates : list float) :
  in_table this perf_phase_rates c ->
  length completion_rates = number_of_phases_ this ->
  for_upto (number_of_phases_ this)
    (fun p completion_rates =>
       connection_rate <-
         at_ perf_phase_rates (c * Z.of_nat (number_of_phases_ this) + p) ;;
       old <- at_ completion_rates p ;;
       set_at completion_rates p (old + connection_rate)%float) completion_rates
  = Ok (zip_with PrimFloat.add completion_rates
          (perforation_rates this perf_phase_rates c)).
Proof.
  intros [Hc Hin] Hlen. unfold for_upto.
  pose proof (add_perforation_loop c completion_rates
                (perforation_rates this perf_phase_rates c) [] [] Hc) as L.
  cbn [length app] in L. rewrite Hlen in L. apply L; [| reflexivity | reflexivity].
  unfold perforation_rates. rewrite length_take, length_drop. lia.
Qed.

(** [completionRates] adds up, phase by phase, the rates of the perforations
    of the completion, and then sums over the processes. *)
Lemma completionRates_sum (conns : list Z) :
  Forall (in_table this perf_phase_rates) conns ->
  completionRates this perf_phase_rates conns
  = Ok (communication_sum (parallel_well_info_ this)
          (sum_over_connections this perf_phase_rates conns)).
Proof.
  unfold completionRates, sum_over_connections. cbv zeta. intros H.
  assert (G : forall acc,
    length acc = number_of_phases_ this ->
    foldM (fun c completion_rates =>
             for_upto (number_of_phases_ this)
               (fun p completion_rates =>
                  connection_rate <-
                    at_ perf_phase_rates (c * Z.of_nat (number_of_phases_ this) + p) ;;
                  old <- at_ completion_rates p ;;
                  set_at completion_rates p (old + connection_rate)%float)
               completion_rates) conns acc
    = Ok (foldl (zip_with PrimFloat.add) acc
            (perforation_rates this perf_phase_rates <$> conns))).
  { induction H as [|c conns Hc _ IH]; intros acc Hlen; cbn [foldM fmap list_fmap foldl].
    - reflexivity.
    - rewrite (add_perforation c acc Hc Hlen). cbn [bind]. apply IH.
      rewrite length_zip_with, Hlen. unfold perforation_rates.
      rewrite length_take, length_drop. destruct Hc as [_ Hc]. lia. }
  rewrite G by apply length_replicate. reflexivity.
Qed.

End CompletionRates.

(** ** C5 and C10: the worst-offender selector *)

Section SelectorProofs.
Context {SummaryState GuideRate : Type}.
Variable this : WellInterfaceFluidSystem SummaryState GuideRate.
Variable perf_phase_rates : list float.
Variable ratioFunc : list float -> PhaseUsage -> Result float.

(** One turn of the scan keeps the candidate unless the ratio of the
    completion is strictly greater than the running maximum. *)
Lemma scanCompletion_step (completion : Z * list Z) (st st' : Z * float) :
  scanCompletion this perf_phase_rates ratioFunc completion st = Ok st' ->
  exists r,
    completion_ratio this perf_phase_rates ratioFunc completion = Ok r
    /\ st' = if fgt r (snd st) then (fst completion, r) else st.
Proof.
  unfold scanCompletion, completion_ratio. cbv zeta. intros H.
  inv_bind H. inv_bind H. rewrite Ha. cbn [bind]. exists a0. split; [assumption |].
  destruct (fgt a0 (snd st)); [congruence |]. destruct st. cbn in *. congruence.
Qed.

(** The scan ends on its initial candidate or on a completion of the list
    whose ratio is strictly greater than the initial one, and no completion
    of the list has a ratio that exceeds the final one. *)
Lemma scan_selects_maximum (l : list (Z * list Z)) (st st' : Z * float) :
  foldM (scanCompletion this perf_phase_rates ratioFunc) l st = Ok st' ->
  (forall c r, c ∈ l -> completion_ratio this perf_phase_rates ratioFunc c = Ok r ->
               fgt r (snd st') = false)
  /\ (st' = st
      \/ (fgt (snd st') (snd st) = true
          /\ exists c, c ∈ l
               /\ completion_ratio this perf_phase_rates ratioFunc c = Ok (snd st')
               /\ fst st' = fst c)).
Proof.
  revert st. induction l as [|c l IH]; intros st H; cbn [foldM] in H.
  - injection H as <-. split; [intros c r Hin; inversion Hin | left; reflexivity].
  - inv_bind H. apply scanCompletion_step in Ha as (r & Hr & Ha).
    apply IH in H as [Hmax Hsel].
    assert (Hr' : fgt r (snd a) = false).
    { subst a. destruct (fgt r (snd st)) eqn:E; [apply fgt_irrefl | exact E]. }
    assert (Hc : fgt r (snd st') = false).
    { destruct Hsel as [-> | [Hgt _]]; [exact Hr' | eapply not_fgt_mono; eassumption]. }
    split.
    + intros c' r' Hin Hr'0. apply elem_of_cons in Hin as [-> | Hin].
      * congruence.
      * eapply Hmax; eassumption.
    + destruct (fgt r (snd st)) eqn:E; subst a.
      * right. destruct Hsel as [-> | [Hgt (c' & Hin & Hc' & Hf)]].
        -- split; [exact E |]. exists c. split; [apply list_elem_of_here |].
           split; [exact Hr | reflexivity].
        -- split; [eapply fgt_trans; eassumption |].
           exists c'. split; [apply list_elem_of_further; exact Hin |]. auto.
      * destruct Hsel as [-> | [Hgt (c' & Hin & Hc' & Hf)]]; [left; reflexivity |].
        right. split; [exact Hgt |].
        exists c'. split; [apply list_elem_of_further; exact Hin |]. auto.
Qed.

(** Completions whose ratios do not exceed the running maximum, an equal
    ratio included, leave the candidate as it is. *)
Lemma scan_keeps_candidate (l : list (Z * list Z)) (st : Z * float) :
  Forall (fun c => exists r,
            completion_ratio this perf_phase_rates ratioFunc c = Ok r
            /\ fgt r (snd st) = false) l ->
  foldM (scanCompletion this perf_phase_rates ratioFunc) l st = Ok st.
Proof.
  induction 1 as [|c l (r & Hr & Hle) _ IH]; cbn [foldM]; [reflexivity |].
  unfold scanCompletion at 1. unfold completion_ratio in Hr. cbv zeta.
  inv_bind Hr. rewrite Ha. cbn [bind]. rewrite Hr. cbn [bind]. rewrite Hle.
  destruct st. exact IH.
Qed.

(** The first completion that strictly exceeds everything before it keeps
    the slot against later completions that do not strictly exceed it. *)
Lemma scan_first_maximum (before after : list (Z * list Z)) (c : Z * list Z)
  (st0 st1 : Z * float) (r : float) :
  foldM (scanCompletion this perf_phase_rates ratioFunc) before st0 = Ok st1 ->
  completion_ratio this perf_phase_rates ratioFunc c = Ok r ->
  fgt r (snd st1) = true ->
  Forall (fun c' => exists r',
            completion_ratio this perf_phase_rates ratioFunc c' = Ok r'
            /\ fgt r' r = false) after ->
  foldM (scanCompletion this perf_phase_rates ratioFunc) (before ++ c :: after) st0
  = Ok (fst c, r).
Proof.
  intros Hb Hr Hgt Ha. rewrite foldM_app, Hb. cbn [bind foldM].
  unfold scanCompletion at 1. unfold completion_ratio in Hr. cbv zeta.
  inv_bind Hr. rewrite Ha0. cbn [bind]. rewrite Hr. cbn [bind]. rewrite Hgt.
  apply scan_keeps_candidate. exact Ha.
Qed.

End SelectorProofs.

Section ReportProofs.
Context {SummaryState GuideRate : Type}.
Variable this : WellInterfaceFluidSystem SummaryState GuideRate.

(** [checkMaxRatioLimitCompletions] on the outcome of the scan: the three
    assertions, then the report overwritten only by a strictly greater
    violation extent. *)
Lemma checkMaxRatioLimitCompletions_report
  (well_state : WellState) (max_ratio_limit : float)
  (ratioFunc : list float -> PhaseUsage -> Result float)
  (report : RatioLimitCheckReport) (st : Z * float) :
  scan_completions this well_state ratioFunc = Ok st ->
  checkMaxRatioLimitCompletions this well_state max_ratio_limit ratioFunc report
  = if fgt (snd st) max_ratio_limit
       && bool_decide (fst st <> INVALIDCOMPLETION)
       && fgt (snd st / max_ratio_limit)%float 1%float
    then Ok (if fgt (snd st / max_ratio_limit)%float (violation_extent report)
             then {| ratio_limit_violated := ratio_limit_violated report;
                     worst_offending_completion := fst st;
                     violation_extent := (snd st / max_ratio_limit)%float |}
             else report)
    else Abort AssertionFailed.
Proof.
  unfold scan_completions, checkMaxRatioLimitCompletions. cbv zeta. intros H.
  inv_bind H. rewrite Ha. cbn [bind]. rewrite H. cbn [bind].
  destruct (fgt (snd st) max_ratio_limit); [| reflexivity].
  destruct (bool_decide (fst st <> INVALIDCOMPLETION)); [| reflexivity].
  destruct (fgt (snd st / max_ratio_limit)%float 1%float); [| reflexivity].
  cbn [assert bind andb].
  destruct (fgt (snd st / max_ratio_limit)%float (violation_extent report)); reflexivity.
Qed.

(** A ratio check that returns has merged the proposal of its kind into the
    report, and the extent of a proposal it accepted exceeds 1. *)
Lemma checkMaxRatioLimit_proposal
  (max_ratio_limit : float) (ratioFunc : list float -> PhaseUsage -> Result float)
  (well_state : WellState) (report report' : RatioLimitCheckReport) :
  checkMaxRatioLimit this max_ratio_limit ratioFunc well_state report = Ok report' ->
  exists proposal,
    worst_offender this well_state max_ratio_limit ratioFunc = Ok proposal
    /\ report' = more_violated report proposal
    /\ forall c e, proposal = Some (c, e) -> fgt e 1%float = true.
Proof.
  unfold checkMaxRatioLimit, worst_offender. intros H. inv_bind H. inv_bind H.
  rewrite Ha0. cbn [bind]. destruct a0.
  - destruct (scan_completions this well_state ratioFunc) as [st|f] eqn:Hs.
    + rewrite (checkMaxRatioLimitCompletions_report _ _ _ _ _ Hs) in H.
      cbn [ratio_limit_violated worst_offending_completion violation_extent] in H.
      destruct (fgt (snd st) max_ratio_limit); [| discriminate].
      destruct (bool_decide (fst st <> INVALIDCOMPLETION)); [| discriminate].
      destruct (fgt (snd st / max_ratio_limit)%float 1%float) eqn:E1; [| discriminate].
      cbn [andb] in H. injection H as <-. eexists. split; [reflexivity |].
      split; [reflexivity |]. intros c e [= <- <-]. exact E1.
    + exfalso. unfold checkMaxRatioLimitCompletions, scan_completions in *.
      cbv zeta in H. inv_bind H. rewrite Ha1 in Hs. cbn [bind] in Hs.
      inv_bind H. congruence.
  - injection H as <-. exists None. split; [reflexivity |].
    split; [reflexivity | discriminate].
Qed.

Lemma more_violated_keeps_bound (report : RatioLimitCheckReport)
  (proposal : option (Z * float)) (e0 : float) :
  fgt e0 (violation_extent report) = false ->
  fgt e0 (violation_extent (more_violated report proposal)) = false.
Proof.
  intros H. destruct proposal as [[c e]|]; cbn [more_violated]; [| exact H].
  destruct (fgt e (violation_extent report)) eqn:E; cbn [violation_extent]; [| exact H].
  eapply not_fgt_mono; eassumption.
Qed.

Lemma more_violated_bounds (report : RatioLimitCheckReport) (c : Z) (e : float) :
  fgt e (violation_extent (more_violated report (Some (c, e)))) = false.
Proof.
  cbn [more_violated].
  destruct (fgt e (violation_extent report)) eqn:E; cbn [violation_extent];
    [apply fgt_irrefl | exact E].
Qed.

(** On a tie, and on any extent that is not strictly greater, the report
    keeps its worst offender. *)
Lemma more_violated_tie (report : RatioLimitCheckReport) (c : Z) (e : float) :
  fgt e (violation_extent report) = false ->
  worst_offending_completion (more_violated report (Some (c, e)))
  = worst_offending_completion report
  /\ violation_extent (more_violated report (Some (c, e))) = violation_extent report.
Proof. intros H. cbn [more_violated]. rewrite H. split; reflexivity. Qed.

(** [checkRatioEconLimits] merges the proposals of the water-cut, the
    gas-oil ratio and the water-gas ratio, in this order. *)
Lemma checkRatioEconLimits_proposals
  (econ : WellEconProductionLimits.t) (well_state : WellState)
  (report report' : RatioLimitCheckReport) (log log' : DeferredLogger) :
  checkRatioEconLimits this econ well_state report log = Ok (report', log') ->
  exists p_wc p_gor p_wgr,
    proposal_of this (WellEconProductionLimits.onMaxWaterCut econ) well_state
      (WellEconProductionLimits.maxWaterCut econ) waterCut = Ok p_wc
    /\ proposal_of this (WellEconProductionLimits.onMaxGasOilRatio econ) well_state
         (WellEconProductionLimits.maxGasOilRatio econ) gor = Ok p_gor
    /\ proposal_of this (WellEconProductionLimits.onMaxWaterGasRatio econ) well_state
         (WellEconProductionLimits.maxWaterGasRatio econ) wgr = Ok p_wgr
    /\ report' = more_violated (more_violated (more_violated report p_wc) p_gor) p_wgr
    /\ (forall p c e, p ∈ [p_wc; p_gor; p_wgr] -> p = Some (c, e) -> fgt e 1%float = true)
    /\ (ratio_limit_violated report' = true ->
        worst_offending_completion report' <> INVALIDCOMPLETION
        /\ fgt (violation_extent report') 1%float = true).
Proof.
  unfold checkRatioEconLimits, proposal_of. intros H.
  inv_bind H. inv_bind H. inv_bind H. cbv zeta in H. inv_bind H.
  injection H as <- <-.
  assert (exists p, (if WellEconProductionLimits.onMaxWaterCut econ
                     then worst_offender this well_state
                            (WellEconProductionLimits.maxWaterCut econ) waterCut
                     else Ok None) = Ok p
                    /\ a = more_violated report p
                    /\ forall c e, p = Some (c, e) -> fgt e 1%float = true)
    as (p1 & -> & -> & B1).
  { destruct (WellEconProductionLimits.onMaxWaterCut econ).
    - unfold checkMaxWaterCutLimit in Ha. inv_bind Ha. inv_bind Ha.
      apply checkMaxRatioLimit_proposal in Ha. exact Ha.
    - injection Ha as <-. exists None. repeat split; discriminate. }
  assert (exists p, (if WellEconProductionLimits.onMaxGasOilRatio econ
                     then worst_offender this well_state
                            (WellEconProductionLimits.maxGasOilRatio econ) gor
                     else Ok None) = Ok p
                    /\ a0 = more_violated (more_violated report p1) p
                    /\ forall c e, p = Some (c, e) -> fgt e 1%float = true)
    as (p2 & -> & -> & B2).
  { destruct (WellEconProductionLimits.onMaxGasOilRatio econ).
    - unfold checkMaxGORLimit in Ha0. inv_bind Ha0. inv_bind Ha0.
      apply checkMaxRatioLimit_proposal in Ha0. exact Ha0.
    - injection Ha0 as <-. exists None. repeat split; discriminate. }
  assert (exists p, (if WellEconProductionLimits.onMaxWaterGasRatio econ
                     then worst_offender this well_state
                            (WellEconProductionLimits.maxWaterGasRatio econ) wgr
                     else Ok None) = Ok p
                    /\ a1 = more_violated (more_violated (more_violated report p1) p2) p
                    /\ forall c e, p = Some (c, e) -> fgt e 1%float = true)
    as (p3 & -> & -> & B3).
  { destruct (WellEconProductionLimits.onMaxWaterGasRatio econ).
    - unfold checkMaxWGRLimit in Ha1. inv_bind Ha1. inv_bind Ha1.
      apply checkMaxRatioLimit_proposal in Ha1. exact Ha1.
    - injection Ha1 as <-. exists None. repeat split; discriminate. }
  exists p1, p2, p3. repeat split; try reflexivity.
  - intros p c e Hin ->. rewrite !elem_of_cons in Hin.
    destruct Hin as [<- | [<- | [<- | Hin]]]; [eapply B1 | eapply B2 | eapply B3 | inversion Hin];
      reflexivity.
  - destruct (ratio_limit_violated _); [| discriminate].
    inv_bind Ha2. apply assert_Ok in Ha3. apply bool_decide_eq_true in Ha3. exact Ha3.
  - destruct (ratio_limit_violated _); [| discriminate].
    inv_bind Ha2. apply assert_Ok in Ha2. exact Ha2.
Qed.

Lemma extent_exceeds_zero (e : float) : fgt e 1%float = true -> fgt e 0%float = true.
Proof. intros H. eapply fgt_trans; [exact H | reflexivity]. Qed.

(** After the three kinds, a report started from the initial one holds one of
    the proposals, if any was made. *)
Lemma merged_report_is_a_proposal (p1 p2 p3 : option (Z * float)) :
  (forall p c e, p ∈ [p1; p2; p3] -> p = Some (c, e) -> fgt e 1%float = true) ->
  let report :=
    more_violated (more_violated (more_violated RatioLimitCheckReport_init p1) p2) p3 in
  ratio_limit_violated report = true ->
  Some (worst_offending_completion report, violation_extent report) ∈ [p1; p2; p3].
Proof.
  intros B report. subst report.
  assert (Z1 : forall c e, p1 = Some (c, e) -> fgt e 0%float = true).
  { intros c e ->. apply extent_exceeds_zero. eapply (B _ c e); [| reflexivity]. set_solver. }
  assert (Z2 : forall c e, p2 = Some (c, e) -> fgt e 0%float = true).
  { intros c e ->. apply extent_exceeds_zero. eapply (B _ c e); [| reflexivity]. set_solver. }
  assert (Z3 : forall c e, p3 = Some (c, e) -> fgt e 0%float = true).
  { intros c e ->. apply extent_exceeds_zero. eapply (B _ c e); [| reflexivity]. set_solver. }
  destruct p1 as [[c1 e1]|], p2 as [[c2 e2]|], p3 as [[c3 e3]|];
    cbn [more_violated RatioLimitCheckReport_init violation_extent];
    rewrite ?(Z1 _ _ eq_refl); cbn [violation_extent];
    repeat match goal with
           | |- context [if fgt ?a ?b then _ else _] =>
               first [ rewrite (Z2 _ _ eq_refl) | rewrite (Z3 _ _ eq_refl)
                     | destruct (fgt a b) eqn:? ]
           end;
    cbn [ratio_limit_violated worst_offending_completion violation_extent];
    intros Hv; try discriminate Hv; set_solver.
Qed.

Lemma more_violated_violated (report : RatioLimitCheckReport) (c : Z) (e : float) :
  ratio_limit_violated (more_violated report (Some (c, e))) = true.
Proof. cbn [more_violated]. destruct (fgt e _); reflexivity. Qed.

Lemma more_violated_stays_violated (report : RatioLimitCheckReport)
  (p : option (Z * float)) :
  ratio_limit_violated report = true ->
  ratio_limit_violated (more_violated report p) = true.
Proof.
  intros H. destruct p as [[c e]|]; [apply more_violated_violated | exact H].
Qed.

(** C5. The rates of a completion are the perforation rates of its
    connections added up phase by phase and then summed over the processes,
    and its ratio is the ratio function on them. The selector scans the
    completions of the well from "no completion identified" and the ratio 0:
    no completion has a ratio that exceeds the
    ratio it ends on, and it ends on a completion of the well with that
    ratio unless it ends where it started. With the assertions of the source
    holding on the outcome of the scan (the maximum exceeds the limit, a
    completion was identified, the extent exceeds 1), the violation extent is
    the maximum completion ratio divided by the limit, and it replaces the
    extent of the report when strictly greater. After [checkRatioEconLimits]
    the report, started from the initial one, is the merge of the proposals
    of the configured ratio kinds; no proposal has a violation extent that
    exceeds the one reported; and a report that marks a violation has an
    extent that exceeds 1 and holds the completion and the extent of one of
    the proposals. *)
Theorem worst_offender_selection :
  (forall (well_state : WellState) (ratioFunc : list float -> PhaseUsage -> Result float)
     (perf_phase_rates : list float) (st : Z * float),
     ptr_at (ws_perfPhaseRates well_state)
       (first_perf_ this * Z.of_nat (number_of_phases_ this)) = Ok perf_phase_rates ->
     scan_completions this well_state ratioFunc = Ok st ->
     (forall c r, c ∈ completions_ this ->
                  completion_ratio this perf_phase_rates ratioFunc c = Ok r ->
                  fgt r (snd st) = false)
     /\ (st = (INVALIDCOMPLETION, 0%float)
         \/ exists c, c ∈ completions_ this
              /\ completion_ratio this perf_phase_rates ratioFunc c = Ok (snd st)
              /\ fst st = fst c))
  /\ (forall (well_state : WellState) (max_ratio_limit : float)
        (ratioFunc : list float -> PhaseUsage -> Result float)
        (report : RatioLimitCheckReport) (st : Z * float),
        scan_completions this well_state ratioFunc = Ok st ->
        checkMaxRatioLimitCompletions this well_state max_ratio_limit ratioFunc report
        = if fgt (snd st) max_ratio_limit
             && bool_decide (fst st <> INVALIDCOMPLETION)
             && fgt (snd st / max_ratio_limit)%float 1%float
          then Ok (if fgt (snd st / max_ratio_limit)%float (violation_extent report)
                   then {| ratio_limit_violated := ratio_limit_violated report;
                           worst_offending_completion := fst st;
                           violation_extent := (snd st / max_ratio_limit)%float |}
                   else report)
          else Abort AssertionFailed)
  /\ (forall (econ : WellEconProductionLimits.t) (well_state : WellState)
        (report : RatioLimitCheckReport) (log log' : DeferredLogger),
        checkRatioEconLimits this econ well_state RatioLimitCheckReport_init log
        = Ok (report, log') ->
        exists p_wc p_gor p_wgr,
          proposal_of this (WellEconProductionLimits.onMaxWaterCut econ) well_state
            (WellEconProductionLimits.maxWaterCut econ) waterCut = Ok p_wc
          /\ proposal_of this (WellEconProductionLimits.onMaxGasOilRatio econ) well_state
               (WellEconProductionLimits.maxGasOilRatio econ) gor = Ok p_gor
          /\ proposal_of this (WellEconProductionLimits.onMaxWaterGasRatio econ) well_state
               (WellEconProductionLimits.maxWaterGasRatio econ) wgr = Ok p_wgr
          /\ (forall p c e, p ∈ [p_wc; p_gor; p_wgr] -> p = Some (c, e) ->
                ratio_limit_violated report = true
                /\ fgt e (violation_extent report) = false)
          /\ (ratio_limit_violated report = true ->
              fgt (violation_extent report) 1%float = true
              /\ Some (worst_offending_completion report, violation_extent report)
                 ∈ [p_wc; p_gor; p_wgr]))
  /\ (forall (perf_phase_rates : list float) (conns : list Z),
        Forall (in_table this perf_phase_rates) conns ->
        completionRates this perf_phase_rates conns
        = Ok (communication_sum (parallel_well_info_ this)
                (sum_over_connections this perf_phase_rates conns))).
Proof.
  split; [| split; [| split]]; [| | | apply completionRates_sum].
  - intros ws f perf st Hp Hs. unfold scan_completions in Hs. rewrite Hp in Hs.
    cbn [bind] in Hs. apply scan_selects_maximum in Hs as [Hmax Hsel].
    split; [exact Hmax |].
    destruct Hsel as [-> | [_ Hc]]; [left; reflexivity | right; exact Hc].
  - intros. apply checkMaxRatioLimitCompletions_report. assumption.
  - intros econ ws report log log' H.
    apply checkRatioEconLimits_proposals in H
      as (p1 & p2 & p3 & H1 & H2 & H3 & -> & B & V).
    exists p1, p2, p3. repeat split; try assumption.
    + rewrite !elem_of_cons in H. destruct H as [-> | [-> | [-> | Hin]]];
        [| | | inversion Hin]; subst.
      * do 2 apply more_violated_stays_violated. apply more_violated_violated.
      * apply more_violated_stays_violated. apply more_violated_violated.
      * apply more_violated_violated.
    + rewrite !elem_of_cons in H. destruct H as [-> | [-> | [-> | Hin]]];
        [| | | inversion Hin]; subst.
      * do 2 apply more_violated_keeps_bound. apply more_violated_bounds.
      * apply more_violated_keeps_bound. apply more_violated_bounds.
      * apply more_violated_bounds.
    + apply V. assumption.
    + apply merged_report_is_a_proposal; assumption.
Qed.

(** C10. A turn of the scan replaces the candidate only with a completion
    whose ratio is strictly greater than the running maximum, so the first
    completion that strictly exceeds all those before it keeps the slot
    against later completions with an equal or smaller ratio.
    [checkMaxRatioLimitCompletions] overwrites the report only with a
    violation extent strictly greater than the recorded one, and
    [checkRatioEconLimits] merges the kinds in the order water-cut, gas-oil
    ratio, water-gas ratio, so on equal extents the earlier kind keeps the
    slot. *)
Theorem worst_offender_tie_breaking :
  (forall (perf_phase_rates : list float)
     (ratioFunc : list float -> PhaseUsage -> Result float)
     (completion : Z * list Z) (st st' : Z * float),
     scanCompletion this perf_phase_rates ratioFunc completion st = Ok st' ->
     exists r,
       completion_ratio this perf_phase_rates ratioFunc completion = Ok r
       /\ st' = if fgt r (snd st) then (fst completion, r) else st)
  /\ (forall (perf_phase_rates : list float)
        (ratioFunc : list float -> PhaseUsage -> Result float)
        (before after : list (Z * list Z)) (c : Z * list Z) (st0 st1 : Z * float)
        (r : float),
        foldM (scanCompletion this perf_phase_rates ratioFunc) before st0 = Ok st1 ->
        completion_ratio this perf_phase_rates ratioFunc c = Ok r ->
        fgt r (snd st1) = true ->
        Forall (fun c' => exists r',
                  completion_ratio this perf_phase_rates ratioFunc c' = Ok r'
                  /\ fgt r' r = false) after ->
        foldM (scanCompletion this perf_phase_rates ratioFunc) (before ++ c :: after) st0
        = Ok (fst c, r))
  /\ (forall (well_state : WellState) (max_ratio_limit : float)
        (ratioFunc : list float -> PhaseUsage -> Result float)
        (report report' : RatioLimitCheckReport) (st : Z * float),
        scan_completions this well_state ratioFunc = Ok st ->
        checkMaxRatioLimitCompletions this well_state max_ratio_limit ratioFunc report
        = Ok report' ->
        report' = if fgt (snd st / max_ratio_limit)%float (violation_extent report)
                  then {| ratio_limit_violated := ratio_limit_violated report;
                          worst_offending_completion := fst st;
                          violation_extent := (snd st / max_ratio_limit)%float |}
                  else report)
  /\ (forall (econ : WellEconProductionLimits.t) (well_state : WellState)
        (report report' : RatioLimitCheckReport) (log log' : DeferredLogger),
        checkRatioEconLimits this econ well_state report log = Ok (report', log') ->
        exists p_wc p_gor p_wgr,
          proposal_of this (WellEconProductionLimits.onMaxWaterCut econ) well_state
            (WellEconProductionLimits.maxWaterCut econ) waterCut = Ok p_wc
          /\ proposal_of this (WellEconProductionLimits.onMaxGasOilRatio econ) well_state
               (WellEconProductionLimits.maxGasOilRatio econ) gor = Ok p_gor
          /\ proposal_of this (WellEconProductionLimits.onMaxWaterGasRatio econ) well_state
               (WellEconProductionLimits.maxWaterGasRatio econ) wgr = Ok p_wgr
          /\ report'
             = more_violated (more_violated (more_violated report p_wc) p_gor) p_wgr)
  /\ (forall (report : RatioLimitCheckReport) (c : Z) (e : float),
        fgt e (violation_extent report) = false ->
        worst_offending_completion (more_violated report (Some (c, e)))
        = worst_offending_completion report
        /\ violation_extent (more_violated report (Some (c, e)))
           = violation_extent report).
Proof.
  split; [| split; [| split; [| split]]].
  - intros. eapply scanCompletion_step; eassumption.
  - intros. eapply scan_first_maximum; eassumption.
  - intros ws limit f report report' st Hs H.
    rewrite (checkMaxRatioLimitCompletions_report _ _ _ _ _ Hs) in H.
    destruct (_ && _ && _); [| discriminate]. congruence.
  - intros econ ws report report' log log' H.
    apply checkRatioEconLimits_proposals in H
      as (p1 & p2 & p3 & H1 & H2 & H3 & -> & _).
    exists p1, p2, p3. auto.
  - intros. apply more_violated_tie. assumption.
Qed.

End ReportProofs.

Lemma worst_offender_selection_witness :
  checkRatioEconLimits (producer_water_cut EconWorkover.CON three_connections)
    (water_cut_limit EconWorkover.CON) producer_water_cut_state
    RatioLimitCheckReport_init []
  = Ok ({| ratio_limit_violated := true;
           worst_offending_completion := 2;
           violation_extent := 1.8 |}, [])
  /\ (completion_ratio (producer_water_cut EconWorkover.CON three_connections)
        (ws_perfPhaseRates producer_water_cut_state) waterCut (1, [0]) = Ok 0.3%float
      /\ completion_ratio (producer_water_cut EconWorkover.CON three_connections)
           (ws_perfPhaseRates producer_water_cut_state) waterCut (2, [1]) = Ok 0.9%float
      /\ completion_ratio (producer_water_cut EconWorkover.CON three_connections)
           (ws_perfPhaseRates producer_water_cut_state) waterCut (3, [2]) = Ok 0.6%float)
  /\ (0.9 / 0.5)%float = 1.8%float
  /\ fgt 1.8%float 1%float = true
  /\ fgt 0.6%float 0.9%float = false.
Proof.
  split; [reflexivity |]. split; [repeat split; reflexivity |]. split; [reflexivity |].
  destruct (proj1 (proj2 (proj2 (worst_offender_selection
                                   (producer_water_cut EconWorkover.CON three_connections))))
              (water_cut_limit EconWorkover.CON) producer_water_cut_state
              {| ratio_limit_violated := true;
                 worst_offending_completion := 2;
                 violation_extent := 1.8 |} [] [] eq_refl)
    as (p_wc & p_gor & p_wgr & _ & _ & _ & _ & V).
  split; [exact (proj1 (V eq_refl)) |].
  refine (proj1 (proj1 (worst_offender_selection
                          (producer_water_cut EconWorkover.CON three_connections))
                   producer_water_cut_state waterCut
                   (ws_perfPhaseRates producer_water_cut_state) (2, 0.9%float)
                   eq_refl eq_refl)
            (3, [2]) 0.6%float _ eq_refl).
  apply list_elem_of_further, list_elem_of_further, list_elem_of_here.
Defined.

Lemma worst_offender_tie_breaking_witness :
  foldM (scanCompletion (producer_water_cut EconWorkover.CON three_connections)
           (ws_perfPhaseRates tied_completions_state) waterCut)
    ([] ++ (1, [0]) :: [(2, [1]); (3, [2])]) (INVALIDCOMPLETION, 0%float)
  = Ok (1, 0.9%float)
  /\ completion_ratio (producer_water_cut EconWorkover.CON three_connections)
       (ws_perfPhaseRates tied_completions_state) waterCut (2, [1]) = Ok 0.9%float
  /\ proposal_of tied_kinds_producer true tied_kinds_state 0.5 waterCut
     = Ok (Some (1, 1.8%float))
  /\ proposal_of tied_kinds_producer true tied_kinds_state 0.5 gor
     = Ok (Some (2, 1.8%float))
  /\ checkRatioEconLimits tied_kinds_producer water_cut_and_gor_limits tied_kinds_state
       RatioLimitCheckReport_init []
     = Ok ({| ratio_limit_violated := true;
              worst_offending_completion := 1;
              violation_extent := 1.8 |}, [])
  /\ worst_offending_completion
       (more_violated {| ratio_limit_violated := true;
                         worst_offending_completion := 1;
                         violation_extent := 1.8 |} (Some (2, 1.8%float))) = 1.
Proof.
  split.
  - refine (proj1 (proj2 (worst_offender_tie_breaking
                            (producer_water_cut EconWorkover.CON three_connections)))
              (ws_perfPhaseRates tied_completions_state) waterCut
              [] [(2, [1]); (3, [2])] (1, [0]) (INVALIDCOMPLETION, 0%float)
              (INVALIDCOMPLETION, 0%float) 0.9%float eq_refl eq_refl eq_refl _).
    repeat constructor.
    + exists 0.9%float. split; reflexivity.
    + exists 0.6%float. split; reflexivity.
  - split; [reflexivity |]. split; [reflexivity |]. split; [reflexivity |].
    split; [reflexivity |].
    exact (proj1 (proj2 (proj2 (proj2 (proj2 (worst_offender_tie_breaking
                                                tied_kinds_producer))))
                    {| ratio_limit_violated := true;
                       worst_offending_completion := 1;
                       violation_extent := 1.8 |} 2 1.8%float eq_refl)).
Defined.

(** * Further properties of the source *)

(** ** Loops that copy a vector *)

Lemma foldM_ext {A S : Type} (f g : A -> S -> Result S) (l : list A) (s : S) :
  (forall x t, f x t = g x t) -> foldM f l s = foldM g l s.
Proof.
  intros E. revert s. induction l as [|x l IH]; intros s; cbn [foldM]; [reflexivity |].
  rewrite E. destruct (g x s); cbn [bind]; [apply IH | reflexivity].
Qed.

(** The loop [for (p) v[p] = src[p]], from the index after the entries [acc]
    already copied. *)
Lemma copy_loop {A : Type} (src todo stodo acc sacc rest : list A) :
  src = sacc ++ stodo ++ rest ->
  length sacc = length acc ->
  length stodo = length todo ->
  foldM (fun p v => r <- at_ src p ;; set_at v p r)
    (Z.of_nat <$> seq (length acc) (length todo)) (acc ++ todo)
  = Ok (acc ++ stodo).
Proof.
  revert stodo acc sacc. induction todo as [|x todo IH]; intros stodo acc sacc Hs Ha Hl.
  - destruct stodo; [reflexivity | discriminate].
  - destruct stodo as [|y stodo]; [discriminate |].
    cbn [length seq fmap list_fmap foldM].
    rewrite (at_lookup src (length acc) y)
      by (rewrite Hs, <- Ha, lookup_app_r, Nat.sub_diag by lia; reflexivity).
    cbn [bind].
    rewrite (set_at_lookup (acc ++ x :: todo) (length acc) y x)
      by (rewrite lookup_app_r, Nat.sub_diag by lia; reflexivity).
    cbn [bind]. rewrite insert_app_r_alt, Nat.sub_diag by lia. cbn [insert list_insert].
    replace (S (length acc)) with (length (acc ++ [y]))
      by (rewrite length_app; cbn [length]; lia).
    replace (acc ++ y :: todo) with ((acc ++ [y]) ++ todo)
      by (rewrite <- app_assoc; reflexivity).
    rewrite (IH stodo (acc ++ [y]) (sacc ++ [y])).
    + rewrite <- app_assoc. reflexivity.
    + rewrite Hs, <- !app_assoc. reflexivity.
    + rewrite !length_app. cbn [length]. lia.
    + cbn [length] in Hl. lia.
Qed.

(** Copying the first [n] entries of a vector into a fresh vector of size
    [n] gives those entries. *)
Lemma copy_prefix {A : Type} (src : list A) (n : nat) (x0 : A) :
  (n <= length src)%nat ->
  for_upto n (fun p v => r <- at_ src p ;; set_at v p r) (replicate n x0)
  = Ok (take n src).
Proof.
  intros Hn. unfold for_upto.
  pose proof (copy_loop src (replicate n x0) (take n src) [] [] (drop n src)) as L.
  cbn [length app] in L. rewrite length_replicate in L. apply L.
  - symmetry. apply take_drop.
  - reflexivity.
  - rewrite length_take. lia.
Qed.

Section ReservoirRates.
Context {SummaryState GuideRate : Type}.
Variable this : WellInterfaceFluidSystem SummaryState GuideRate.

Lemma at_index_of_well (A : Type) (v : list A) (x : A) :
  0 <= index_of_well_ this ->
  v !! Z.to_nat (index_of_well_ this) = Some x ->
  at_ v (index_of_well_ this) = Ok x.
Proof. intros Hi E. apply at_Ok. auto. Qed.

Lemma set_at_index_of_well (A : Type) (v : list A) (x y : A) :
  0 <= index_of_well_ this ->
  v !! Z.to_nat (index_of_well_ this) = Some y ->
  set_at v (index_of_well_ this) x = Ok (<[Z.to_nat (index_of_well_ this) := x]> v).
Proof.
  intros Hi E. unfold set_at. destruct (Z.ltb_spec (index_of_well_ this) 0); [lia |].
  rewrite E. reflexivity.
Qed.

(** The loop that writes the voidage rates into the reservoir rates of the
    well, from the phase after the entries [acc] already written. *)
Lemma write_reservoir_loop (well_state : WellState) (voidage : list float)
  (todo vtodo acc vacc tail vrest : list float) (rows : list (list float)) :
  0 <= index_of_well_ this ->
  rows !! Z.to_nat (index_of_well_ this) = Some (acc ++ todo ++ tail) ->
  voidage = vacc ++ vtodo ++ vrest ->
  length vacc = length acc ->
  length vtodo = length todo ->
  foldM (fun p well_state =>
           v <- at_ voidage p ;;
           set_wellReservoirRate well_state (index_of_well_ this) p v)
    (Z.of_nat <$> seq (length acc) (length todo))
    (with_wellReservoirRates well_state rows)
  = Ok (with_wellReservoirRates well_state
          (<[Z.to_nat (index_of_well_ this) := acc ++ vtodo ++ tail]> rows)).
Proof.
  intros Hi. revert vtodo acc vacc rows.
  induction todo as [|x todo IH]; intros vtodo acc vacc rows Hrow Hv Ha Hl.
  - destruct vtodo; [| discriminate]. cbn [length seq fmap list_fmap foldM].
    rewrite list_insert_id by assumption. reflexivity.
  - destruct vtodo as [|y vtodo]; [discriminate |].
    cbn [length seq fmap list_fmap foldM].
    rewrite (at_lookup voidage (length acc) y)
      by (rewrite Hv, <- Ha, lookup_app_r, Nat.sub_diag by lia; reflexivity).
    cbn [bind]. unfold set_wellReservoirRate at 1, wellReservoirRates at 1.
    cbn [ws_wellReservoirRates with_wellReservoirRates].
    rewrite (at_index_of_well _ _ _ Hi Hrow). cbn [bind].
    rewrite (set_at_lookup (acc ++ (x :: todo) ++ tail) (length acc) y x)
      by (rewrite lookup_app_r, Nat.sub_diag by lia; reflexivity).
    cbn [bind]. unfold set_wellReservoirRates at 1.
    cbn [ws_wellReservoirRates with_wellReservoirRates].
    rewrite (set_at_index_of_well _ _ _ _ Hi Hrow). cbn [bind].
    change (with_wellReservoirRates (with_wellReservoirRates well_state rows) ?v)
      with (with_wellReservoirRates well_state v).
    rewrite insert_app_r_alt, Nat.sub_diag by lia. cbn [insert list_insert app].
    replace (S (length acc)) with (length (acc ++ [y]))
      by (rewrite length_app; cbn [length]; lia).
    rewrite (IH vtodo (acc ++ [y]) (vacc ++ [y])).
    + rewrite list_insert_insert_eq, <- app_assoc. reflexivity.
    + rewrite list_lookup_insert_eq by (eapply lookup_lt_Some; eassumption).
      rewrite <- app_assoc. reflexivity.
    + rewrite Hv, <- !app_assoc. reflexivity.
    + rewrite !length_app. cbn [length]. lia.
    + cbn [length] in Hl. lia.
Qed.

End ReservoirRates.

(** ** [calculateReservoirRates] *)

Section ReservoirRatesResult.
Context {SummaryState GuideRate : Type}.
Variable this : WellInterfaceFluidSystem SummaryState GuideRate.

Lemma calculateReservoirRates_result (well_state : WellState) (rates row : list float) :
  wellRates well_state (index_of_well_ this) = Ok rates ->
  wellReservoirRates well_state (index_of_well_ this) = Ok row ->
  (number_of_phases_ this <= length rates)%nat ->
  (number_of_phases_ this <= length row)%nat ->
  (number_of_phases_ this <= length (converted_rates this rates))%nat ->
  calculateReservoirRates this well_state = Ok (with_converted_rates this well_state rates row).
Proof.
  intros Hr Hrow Hn Hm Hv. unfold calculateReservoirRates. cbv zeta.
  assert (L1 : for_upto (number_of_phases_ this)
                 (fun p surface_rates =>
                    rates <- wellRates well_state (index_of_well_ this) ;;
                    r <- at_ rates p ;; set_at surface_rates p r)
                 (replicate (number_of_phases_ this) 0%float)
               = Ok (take (number_of_phases_ this) rates)).
  { unfold for_upto.
    rewrite (foldM_ext _ (fun p v => r <- at_ rates p ;; set_at v p r))
      by (intros; rewrite Hr; reflexivity).
    exact (copy_prefix rates (number_of_phases_ this) 0%float Hn). }
  rewrite L1. cbn [bind]. fold (converted_rates this rates).
  apply at_Ok in Hrow as [Hi Hrow]. unfold for_upto.
  pose proof (write_reservoir_loop this well_state (converted_rates this rates)
                (take (number_of_phases_ this) row)
                (take (number_of_phases_ this) (converted_rates this rates))
                [] [] (drop (number_of_phases_ this) row)
                (drop (number_of_phases_ this) (converted_rates this rates))
                (ws_wellReservoirRates well_state) Hi) as L.
  assert (E : length (take (number_of_phases_ this) row) = number_of_phases_ this)
    by (rewrite length_take; lia).
  cbn [length app] in L. rewrite E in L.
  replace (with_wellReservoirRates well_state (ws_wellReservoirRates well_state))
    with well_state in L by (destruct well_state; reflexivity).
  rewrite L; [reflexivity | | | reflexivity |].
  - rewrite take_drop. exact Hrow.
  - symmetry. apply take_drop.
  - rewrite length_take. lia.
Qed.

(** X1. When the rate vectors of the well and the output of the converter
    have at least [number_of_phases_] entries, [calculateReservoirRates]
    returns the state in which the first [number_of_phases_] reservoir rates
    of the well are the rates the converter gives, for region 0 and the PVT
    region of the well, on the first [number_of_phases_] surface rates of
    the well; the entries after them and all the rest of the state are
    untouched. *)
Theorem calculateReservoirRates_writes_converted_rates
  (well_state : WellState) (rates row : list float) :
  wellRates well_state (index_of_well_ this) = Ok rates ->
  wellReservoirRates well_state (index_of_well_ this) = Ok row ->
  (number_of_phases_ this <= length rates)%nat ->
  (number_of_phases_ this <= length row)%nat ->
  (number_of_phases_ this <= length (converted_rates this rates))%nat ->
  calculateReservoirRates this well_state
  = Ok (with_converted_rates this well_state rates row)
  /\ wellReservoirRates (with_converted_rates this well_state rates row)
       (index_of_well_ this)
     = Ok (take (number_of_phases_ this) (converted_rates this rates)
           ++ drop (number_of_phases_ this) row)
  /\ wellRates (with_converted_rates this well_state rates row) (index_of_well_ this)
     = Ok rates.
Proof.
  intros Hr Hrow Hn Hm Hv.
  split; [apply calculateReservoirRates_result; assumption |].
  split; [| exact Hr].
  apply at_Ok in Hrow as [Hi Hrow]. unfold wellReservoirRates, with_converted_rates.
  cbn [ws_wellReservoirRates with_wellReservoirRates]. apply at_Ok.
  split; [assumption |]. apply list_lookup_insert_eq. eapply lookup_lt_Some; eassumption.
Qed.

(** X2. [calculateReservoirRates] is idempotent: a second call on the state the
    first call returned returns that state again, since the surface rates it
    converts are those of the first call. *)
Theorem calculateReservoirRates_idempotent
  (well_state : WellState) (rates row : list float) :
  wellRates well_state (index_of_well_ this) = Ok rates ->
  wellReservoirRates well_state (index_of_well_ this) = Ok row ->
  (number_of_phases_ this <= length rates)%nat ->
  (number_of_phases_ this <= length row)%nat ->
  (number_of_phases_ this <= length (converted_rates this rates))%nat ->
  (well_state' <- calculateReservoirRates this well_state ;;
   calculateReservoirRates this well_state')
  = calculateReservoirRates this well_state.
Proof.
  intros Hr Hrow Hn Hm Hv.
  rewrite (calculateReservoirRates_result well_state rates row) by assumption.
  cbn [bind].
  pose proof Hrow as Hrow'. apply at_Ok in Hrow' as [Hi Hrow'].
  set (row' := take (number_of_phases_ this) (converted_rates this rates)
               ++ drop (number_of_phases_ this) row).
  assert (Hl : length (take (number_of_phases_ this) (converted_rates this rates))
               = number_of_phases_ this) by (rewrite length_take; lia).
  rewrite (calculateReservoirRates_result (with_converted_rates this well_state rates row)
             rates row').
  - unfold with_converted_rates. cbn [ws_wellReservoirRates with_wellReservoirRates].
    change (with_wellReservoirRates (with_wellReservoirRates well_state ?a) ?v)
      with (with_wellReservoirRates well_state v).
    rewrite list_insert_insert_eq. subst row'.
    rewrite drop_app_length' by (symmetry; exact Hl). reflexivity.
  - exact Hr.
  - unfold wellReservoirRates, with_converted_rates.
    cbn [ws_wellReservoirRates with_wellReservoirRates]. apply at_Ok.
    split; [assumption |]. apply list_lookup_insert_eq. eapply lookup_lt_Some; eassumption.
  - assumption.
  - subst row'. rewrite length_app, Hl. lia.
  - assumption.
Qed.

End ReservoirRatesResult.

Lemma calculateReservoirRates_writes_converted_rates_witness :
  calculateReservoirRates injector_RESV stale_reservoir_state
  = Ok (with_converted_rates injector_RESV stale_reservoir_state
          [120; 0; 0]%float [50; 30; 40]%float)
  /\ wellReservoirRates
       (with_converted_rates injector_RESV stale_reservoir_state
          [120; 0; 0]%float [50; 30; 40]%float) 0
     = Ok [120; 0; 0]%float.
Proof.
  pose proof (calculateReservoirRates_writes_converted_rates injector_RESV
                stale_reservoir_state [120; 0; 0]%float [50; 30; 40]%float
                eq_refl eq_refl (le_n 3) (le_n 3) (le_n 3)) as (H1 & H2 & _).
  split; [exact H1 | exact H2].
Defined.

Lemma calculateReservoirRates_idempotent_witness :
  (well_state' <- calculateReservoirRates injector_RESV stale_reservoir_state ;;
   calculateReservoirRates injector_RESV well_state')
  = calculateReservoirRates injector_RESV stale_reservoir_state.
Proof.
  exact (calculateReservoirRates_idempotent injector_RESV stale_reservoir_state
           [120; 0; 0]%float [50; 30; 40]%float
           eq_refl eq_refl (le_n 3) (le_n 3) (le_n 3)).
Defined.

(** ** [checkRateEconLimits] *)

Section RateLimitDecision.
Context {SummaryState GuideRate : Type}.
Variable this : WellInterfaceFluidSystem SummaryState GuideRate.

(** X3. When the phases of the configured minimum-rate limits are active and
    have a rate in the vector, [checkRateEconLimits] returns [true] exactly
    when a configured minimum oil, gas or liquid rate is violated, and leaves
    the logger untouched then; otherwise it returns [false], and a configured
    minimum reservoir-fluid rate only adds the warning
    NOT_SUPPORTING_MIN_RESERVOIR_FLUID_RATE to the logger: it never closes
    the well. *)
Theorem checkRateEconLimits_decides (v : list float) (deferred_logger : DeferredLogger) :
  min_rate_limits_evaluable this v = true ->
  checkRateEconLimits this (Well.getEconLimits (well_ecl_ this)) v deferred_logger
  = Ok (any_min_rate_violated this v,
        if any_min_rate_violated this v then deferred_logger
        else if WellEconProductionLimits.onMinReservoirFluidRate
                  (Well.getEconLimits (well_ecl_ this))
             then warning "NOT_SUPPORTING_MIN_RESERVOIR_FLUID_RATE"
                    "Minimum reservoir fluid production rate limit is not supported yet"
                    deferred_logger
             else deferred_logger).
Proof.
  intros He. destruct (any_min_rate_violated this v) eqn:Hv.
  { apply checkRateEconLimits_violated; assumption. }
  unfold min_rate_limits_evaluable, any_min_rate_violated, checkRateEconLimits in *.
  cbv zeta in *.
  destruct (WellEconProductionLimits.onMinOilRate _),
    (WellEconProductionLimits.onMinGasRate _),
    (WellEconProductionLimits.onMinLiquidRate _);
    cbn [implb andb orb] in He, Hv;
    repeat match goal with
           | H : _ && _ = true |- _ => apply andb_prop in H as [? ?]
           | H : _ || _ = false |- _ => apply orb_false_elim in H as [? ?]
           end;
    repeat match goal with
           | H : readable this v _ = true |- _ =>
               apply readable_at in H as [? ?]
           end;
    repeat match goal with
           | H : FluidSystem_phaseIsActive this _ = true |- _ => rewrite H; clear H
           | H : at_ v _ = Ok _ |- _ => rewrite H; clear H
           end;
    cbn [assert bind and_then];
    repeat match goal with
           | H : flt _ _ = false |- _ => rewrite H; clear H
           end;
    cbn [assert bind and_then]; reflexivity.
Qed.

End RateLimitDecision.

Lemma checkRateEconLimits_decides_witness :
  checkRateEconLimits producer_min_oil min_oil_and_water_cut [-20; -5; 0]%float []
  = Ok (true, [])
  /\ checkRateEconLimits producer_min_oil min_oil_and_water_cut [-20; -50; 0]%float []
     = Ok (false, []).
Proof.
  split.
  - exact (checkRateEconLimits_decides producer_min_oil [-20; -5; 0]%float [] eq_refl).
  - exact (checkRateEconLimits_decides producer_min_oil [-20; -50; 0]%float [] eq_refl).
Defined.

(** ** The water-cut and the water-gas ratio *)

(** Two rates equal to zero add up to a rate equal to zero. *)
Lemma zero_rates_add (a b : float) :
  PrimFloat.eqb a 0 = true -> PrimFloat.eqb b 0 = true ->
  PrimFloat.eqb (a + b) 0 = true.
Proof.
  rewrite !FloatAxioms.eqb_spec, FloatAxioms.add_spec.
  change (Prim2SF 0) with (S754_zero false).
  destruct (Prim2SF a) as [sa|sa| |sa ma ea]; try (destruct sa; discriminate); try discriminate.
  destruct (Prim2SF b) as [sb|sb| |sb mb eb]; try (destruct sb; discriminate); try discriminate.
  intros _ _. destruct sa, sb; reflexivity.
Qed.

(** X4. For rates read at the oil and water slots: the water-cut is
    water/(oil+water) when the two rates have the same direction (their
    product is not negative) and the liquid rate differs from zero; it is 0
    when the liquid rate equals zero, in particular when both rates equal
    zero, where no precondition is needed; and the evaluation fails on its
    assertion when the product of the two rates is not greater than or equal
    to zero. *)
Theorem waterCut_cases
  (rates : list float) (pu : PhaseUsage) (oil_rate water_rate : float) :
  at_ rates (phase_pos pu Oil) = Ok oil_rate ->
  at_ rates (phase_pos pu Water) = Ok water_rate ->
  (fge (oil_rate * water_rate)%float 0%float = true ->
   PrimFloat.eqb (oil_rate + water_rate) 0 = false ->
   waterCut rates pu = Ok (water_rate / (oil_rate + water_rate))%float)
  /\ (fge (oil_rate * water_rate)%float 0%float = true ->
      PrimFloat.eqb (oil_rate + water_rate) 0 = true ->
      waterCut rates pu = Ok 0%float)
  /\ (PrimFloat.eqb oil_rate 0 = true -> PrimFloat.eqb water_rate 0 = true ->
      waterCut rates pu = Ok 0%float)
  /\ (fge (oil_rate * water_rate)%float 0%float = false ->
      waterCut rates pu = Abort AssertionFailed).
Proof.
  intros Ho Hw. unfold waterCut. rewrite Ho, Hw. cbn [bind]. unfold fne.
  split; [| split; [| split]].
  - intros -> ->. reflexivity.
  - intros -> ->. reflexivity.
  - intros Hoil Hwat. rewrite (zero_rates_same_direction _ _ Hoil Hwat).
    cbn [assert bind]. rewrite (zero_rates_add _ _ Hoil Hwat). reflexivity.
  - intros ->. reflexivity.
Qed.

Lemma waterCut_cases_witness :
  waterCut [-9; -1; 0]%float pu3 = Ok 0.9%float
  /\ waterCut [0; 0; 0]%float pu3 = Ok 0%float
  /\ waterCut [5; -1; 0]%float pu3 = Abort AssertionFailed.
Proof.
  split; [| split].
  - exact (proj1 (waterCut_cases [-9; -1; 0]%float pu3 (-1) (-9) eq_refl eq_refl)
             eq_refl eq_refl).
  - exact (proj1 (proj2 (proj2 (waterCut_cases [0; 0; 0]%float pu3 0 0 eq_refl eq_refl)))
             eq_refl eq_refl).
  - exact (proj2 (proj2 (proj2 (waterCut_cases [5; -1; 0]%float pu3 (-1) 5
                                  eq_refl eq_refl))) eq_refl).
Defined.

(** X5. For rates read at the water and gas slots: with a gas rate equal to
    zero and a water rate different from zero the water-gas ratio is the
    sentinel 1e100, which exceeds 1e50; with both rates equal to zero it is
    0; with a gas rate different from zero it is the quotient water/gas. The
    first and the third case are under the precondition the evaluator asserts
    (the product of the two rates is not negative), and the evaluation fails
    on that assertion otherwise. *)
Theorem wgr_cases
  (rates : list float) (pu : PhaseUsage) (water_rate gas_rate : float) :
  at_ rates (phase_pos pu Water) = Ok water_rate ->
  at_ rates (phase_pos pu Gas) = Ok gas_rate ->
  (PrimFloat.eqb gas_rate 0 = true -> PrimFloat.eqb water_rate 0 = false ->
   fge (water_rate * gas_rate)%float 0%float = true ->
   wgr rates pu = Ok 1e100%float /\ fgt 1e100%float 1e50%float = true)
  /\ (PrimFloat.eqb gas_rate 0 = true -> PrimFloat.eqb water_rate 0 = true ->
      wgr rates pu = Ok 0%float)
  /\ (PrimFloat.eqb gas_rate 0 = false ->
      fge (water_rate * gas_rate)%float 0%float = true ->
      wgr rates pu = Ok (water_rate / gas_rate)%float)
  /\ (fge (water_rate * gas_rate)%float 0%float = false ->
      wgr rates pu = Abort AssertionFailed).
Proof.
  intros Hw Hg. unfold wgr. rewrite Hw, Hg. cbn [bind]. unfold fne.
  split; [| split; [| split]].
  - intros Hgas Hwat ->. cbn [assert bind]. rewrite Hgas, Hwat. split; reflexivity.
  - intros Hgas Hwat. rewrite (zero_rates_same_direction _ _ Hwat Hgas).
    cbn [assert bind]. rewrite Hgas, Hwat. reflexivity.
  - intros Hgas ->. cbn [assert bind]. rewrite Hgas. reflexivity.
  - intros ->. reflexivity.
Qed.

Lemma wgr_cases_witness :
  (wgr [5; 0; 0]%float pu3 = Ok 1e100%float /\ fgt 1e100%float 1e50%float = true)
  /\ wgr [0; 0; 0]%float pu3 = Ok 0%float
  /\ wgr [5; 0; 2]%float pu3 = Ok 2.5%float
  /\ wgr [5; 0; -2]%float pu3 = Abort AssertionFailed.
Proof.
  split; [| split; [| split]].
  - exact (proj1 (wgr_cases [5; 0; 0]%float pu3 5 0 eq_refl eq_refl)
             eq_refl eq_refl eq_refl).
  - exact (proj1 (proj2 (wgr_cases [0; 0; 0]%float pu3 0 0 eq_refl eq_refl))
             eq_refl eq_refl).
  - exact (proj1 (proj2 (proj2 (wgr_cases [5; 0; 2]%float pu3 5 2 eq_refl eq_refl)))
             eq_refl eq_refl).
  - exact (proj2 (proj2 (proj2 (wgr_cases [5; 0; -2]%float pu3 5 (-2) eq_refl eq_refl)))
             eq_refl).
Defined.

(** ** The consistency assertion of the selector and the growth of the report *)

Lemma fgt_asym (a b : float) : fgt a b = true -> fgt b a = false.
Proof.
  intros H. destruct (fgt b a) eqn:E; [| reflexivity].
  pose proof (fgt_trans _ _ _ H E) as F. rewrite fgt_irrefl in F. discriminate.
Qed.

Section SelectorEdges.
Context {SummaryState GuideRate : Type}.
Variable this : WellInterfaceFluidSystem SummaryState GuideRate.

(** X6. [checkMaxRatioLimitWell] decides on the first [number_of_phases_]
    surface rates of the well: it returns whether the ratio function on them
    exceeds the limit, and fails as the ratio function does. *)
Theorem checkMaxRatioLimitWell_on_well_rates
  (well_state : WellState) (max_ratio_limit : float)
  (ratioFunc : list float -> PhaseUsage -> Result float) (rates : list float) :
  wellRates well_state (index_of_well_ this) = Ok rates ->
  (number_of_phases_ this <= length rates)%nat ->
  checkMaxRatioLimitWell this well_state max_ratio_limit ratioFunc
  = (well_ratio <- ratioFunc (take (number_of_phases_ this) rates) (phaseUsage this) ;;
     Ok (fgt well_ratio max_ratio_limit)).
Proof.
  intros Hr Hn. unfold checkMaxRatioLimitWell. cbv zeta.
  assert (L : for_upto (number_of_phases_ this)
                (fun p well_rates =>
                   rates <- wellRates well_state (index_of_well_ this) ;;
                   r <- at_ rates p ;; set_at well_rates p r)
                (replicate (number_of_phases_ this) 0%float)
              = Ok (take (number_of_phases_ this) rates)).
  { unfold for_upto.
    rewrite (foldM_ext _ (fun p v => r <- at_ rates p ;; set_at v p r))
      by (intros; rewrite Hr; reflexivity).
    exact (copy_prefix rates (number_of_phases_ this) 0%float Hn). }
  rewrite L. reflexivity.
Qed.

(** X7. The consistency check of the selector: when the ratio of the well
    exceeds a positive limit but the scan of the completions ends without a
    completion whose ratio exceeds the limit, the ratio check fails on its
    assertion instead of reporting; this is so in particular for a well
    without completions. *)
Theorem checkMaxRatioLimit_without_offender_fails
  (well_state : WellState) (max_ratio_limit : float)
  (ratioFunc : list float -> PhaseUsage -> Result float)
  (report : RatioLimitCheckReport) (perf_phase_rates : list float) :
  fgt max_ratio_limit 0%float = true ->
  checkMaxRatioLimitWell this well_state max_ratio_limit ratioFunc = Ok true ->
  ptr_at (ws_perfPhaseRates well_state)
    (first_perf_ this * Z.of_nat (number_of_phases_ this)) = Ok perf_phase_rates ->
  (forall st, scan_completions this well_state ratioFunc = Ok st ->
              (forall c r, c ∈ completions_ this ->
                 completion_ratio this perf_phase_rates ratioFunc c = Ok r ->
                 fgt r max_ratio_limit = false) ->
              checkMaxRatioLimit this max_ratio_limit ratioFunc well_state report
              = Abort AssertionFailed)
  /\ (completions_ this = [] ->
      checkMaxRatioLimit this max_ratio_limit ratioFunc well_state report
      = Abort AssertionFailed).
Proof.
  intros Hlim Hwell Hp.
  assert (G : forall st, scan_completions this well_state ratioFunc = Ok st ->
                         fgt (snd st) max_ratio_limit = false ->
                         checkMaxRatioLimit this max_ratio_limit ratioFunc well_state report
                         = Abort AssertionFailed).
  { intros st Hs Hle. unfold checkMaxRatioLimit. rewrite Hlim, Hwell. cbn [assert bind].
    rewrite (checkMaxRatioLimitCompletions_report _ _ _ _ _ _ Hs), Hle. reflexivity. }
  split.
  - intros st Hs Hall. apply (G st Hs).
    pose proof Hs as Hs'. unfold scan_completions in Hs'. rewrite Hp in Hs'.
    cbn [bind] in Hs'. apply scan_selects_maximum in Hs' as [_ [-> | [_ (c & Hin & Hc & _)]]].
    + apply fgt_asym. exact Hlim.
    + eapply Hall; eassumption.
  - intros He. apply (G (INVALIDCOMPLETION, 0%float)).
    + unfold scan_completions. rewrite Hp, He. reflexivity.
    + apply fgt_asym. exact Hlim.
Qed.

(** X8. [checkRatioEconLimits] only adds to the report it is given: a
    violation already marked stays marked, the violation extent returned is
    not exceeded by the one passed, and a report that comes back without a
    violation marked is the report passed. *)
Theorem checkRatioEconLimits_report_grows
  (econ : WellEconProductionLimits.t) (well_state : WellState)
  (report report' : RatioLimitCheckReport) (log log' : DeferredLogger) :
  checkRatioEconLimits this econ well_state report log = Ok (report', log') ->
  (ratio_limit_violated report = true -> ratio_limit_violated report' = true)
  /\ fgt (violation_extent report) (violation_extent report') = false
  /\ (ratio_limit_violated report' = false -> report' = report).
Proof.
  intros H. apply checkRatioEconLimits_proposals in H
    as (p1 & p2 & p3 & _ & _ & _ & -> & _).
  split; [| split].
  - intros Hv. do 3 apply more_violated_stays_violated. exact Hv.
  - do 3 apply more_violated_keeps_bound. apply fgt_irrefl.
  - destruct p3 as [[c3 e3]|]; [rewrite more_violated_violated; discriminate |].
    change (more_violated ?r None) with r.
    destruct p2 as [[c2 e2]|]; [rewrite more_violated_violated; discriminate |].
    change (more_violated ?r None) with r.
    destruct p1 as [[c1 e1]|]; [rewrite more_violated_violated; discriminate |].
    reflexivity.
Qed.

End SelectorEdges.

Lemma checkMaxRatioLimitWell_on_well_rates_witness :
  checkMaxRatioLimitWell (producer_water_cut EconWorkover.CON three_connections)
    producer_water_cut_state 0.5 waterCut
  = (well_ratio <- waterCut [-18; -12; 0]%float pu3 ;; Ok (fgt well_ratio 0.5)).
Proof.
  exact (checkMaxRatioLimitWell_on_well_rates
           (producer_water_cut EconWorkover.CON three_connections)
           producer_water_cut_state 0.5 waterCut [-18; -12; 0]%float eq_refl (le_n 3)).
Defined.

Lemma checkMaxRatioLimit_without_offender_fails_witness :
  checkMaxRatioLimit producer_without_completions 0.5 waterCut producer_water_cut_state
    RatioLimitCheckReport_init = Abort AssertionFailed
  /\ checkMaxRatioLimit (producer_water_cut EconWorkover.CON three_connections) 0.5
       waterCut inconsistent_state RatioLimitCheckReport_init = Abort AssertionFailed.
Proof.
  split.
  - exact (proj2 (checkMaxRatioLimit_without_offender_fails producer_without_completions
                    producer_water_cut_state 0.5 waterCut RatioLimitCheckReport_init
                    (ws_perfPhaseRates producer_water_cut_state) eq_refl eq_refl eq_refl)
             eq_refl).
  - refine (proj1 (checkMaxRatioLimit_without_offender_fails
                     (producer_water_cut EconWorkover.CON three_connections)
                     inconsistent_state 0.5 waterCut RatioLimitCheckReport_init
                     (ws_perfPhaseRates inconsistent_state) eq_refl eq_refl eq_refl)
              (3, 0.5%float) eq_refl _).
    intros c r Hin Hr. cbn in Hin. rewrite !elem_of_cons in Hin.
    destruct Hin as [-> | [-> | [-> | Hin]]]; [| | | inversion Hin];
      vm_compute in Hr; injection Hr as <-; reflexivity.
Defined.

Lemma checkRatioEconLimits_report_grows_witness :
  fgt 0%float 1.8%float = false.
Proof.
  exact (proj1 (proj2 (checkRatioEconLimits_report_grows
                         (producer_water_cut EconWorkover.CON three_connections)
                         (water_cut_limit EconWorkover.CON) producer_water_cut_state
                         RatioLimitCheckReport_init
                         {| ratio_limit_violated := true;
                            worst_offending_completion := 2;
                            violation_extent := 1.8 |} [] [] eq_refl))).
Defined.

(** ** The stages of [updateWellTestStateEconomic] *)

Section EvaluatorStages.
Context {SummaryState GuideRate : Type}.
Variable this : WellInterfaceFluidSystem SummaryState GuideRate.

(** [updateWellTestStateEconomic] is the evaluator by stages: the early
    returns, the stage of the minimum-rate limits and the closure it
    decides, and then, only when no rate limit is violated and a ratio limit
    is on, the ratio check and the outcome of the workover. Failures of the
    stages are failures of the evaluator. *)
Lemma updateWellTestStateEconomic_stages
  (well_state : WellState) (simulation_time : float) (write_message_to_opmlog : bool)
  (well_test_state : WellTestState) (deferred_logger : DeferredLogger) :
  updateWellTestStateEconomic this well_state simulation_time write_message_to_opmlog
    well_test_state deferred_logger
  = evaluator_by_stages this well_state simulation_time write_message_to_opmlog
      well_test_state deferred_logger.
Proof.
  unfold updateWellTestStateEconomic, evaluator_by_stages, rate_limit_stage,
    rates_or_potentials, workover_outcome, ledger_after_CON, log_after_CON,
    log_after_ratio_closure, log_after_rate_closure.
  cbv zeta.
  destruct (wellIsStopped this); [reflexivity |].
  destruct (WellEconProductionLimits.onAnyEffectiveLimit _); [| reflexivity].
  cbn [negb orb].
  assert (E : forall (m : Result (bool * DeferredLogger))
                (k : bool * DeferredLogger -> Result (WellTestState * DeferredLogger)),
             m = m -> bind m k = bind m k) by reflexivity.
  destruct (WellEconProductionLimits.onAnyRateLimit _).
  - destruct (WellEconProductionLimits.quantityLimit _).
    + destruct (wellRates well_state (index_of_well_ this)) as [v|f]; [| reflexivity].
      cbn [bind].
      destruct (checkRateEconLimits this _ v deferred_logger) as [[[|] log1]|f];
        cbn [bind fst snd]; try reflexivity.
      destruct (WellEconProductionLimits.onAnyRatioLimit _); cbn [negb]; [| reflexivity].
      destruct (checkRatioEconLimits this _ well_state _ log1) as [[report log2]|f];
        cbn [bind fst snd]; [| reflexivity].
      destruct (ratio_limit_violated report); [| reflexivity].
      destruct (WellEconProductionLimits.workover _); try reflexivity.
      destruct (allCompletionsClosed this _), write_message_to_opmlog; reflexivity.
    + destruct (ptr_at (ws_wellPotentials well_state) _) as [v|f]; [| reflexivity].
      cbn [bind].
      destruct (checkRateEconLimits this _ v deferred_logger) as [[[|] log1]|f];
        cbn [bind fst snd]; try reflexivity.
      destruct (WellEconProductionLimits.onAnyRatioLimit _); cbn [negb]; [| reflexivity].
      destruct (checkRatioEconLimits this _ well_state _ log1) as [[report log2]|f];
        cbn [bind fst snd]; [| reflexivity].
      destruct (ratio_limit_violated report); [| reflexivity].
      destruct (WellEconProductionLimits.workover _); try reflexivity.
      destruct (allCompletionsClosed this _), write_message_to_opmlog; reflexivity.
  - cbn [bind fst snd].
    destruct (WellEconProductionLimits.onAnyRatioLimit _); cbn [negb]; [| reflexivity].
    destruct (checkRatioEconLimits this _ well_state _ deferred_logger)
      as [[report log2]|f]; cbn [bind fst snd]; [| reflexivity].
    destruct (ratio_limit_violated report); [| reflexivity].
    destruct (WellEconProductionLimits.workover _); try reflexivity.
    destruct (allCompletionsClosed this _), write_message_to_opmlog; reflexivity.
Qed.

(** *** The ledger only grows, and only for this well *)

Lemma ledger_extends_refl (s : WellTestState) : ledger_extends this s s.
Proof. repeat split; auto. Qed.

Lemma ledger_extends_trans (s1 s2 s3 : WellTestState) :
  ledger_extends this s1 s2 -> ledger_extends this s2 s3 -> ledger_extends this s1 s3.
Proof.
  intros (A1 & B1 & C1 & D1) (A2 & B2 & C2 & D2). repeat split.
  - intros n Hn. rewrite A2, A1; auto.
  - intros n c Hn. rewrite B2, B1; auto.
  - auto.
  - auto.
Qed.

Lemma ledger_extends_closeWell (r : Reason.t) (t : float) (s : WellTestState) :
  ledger_extends this s (closeWell (name this) r t s).
Proof.
  repeat split.
  - intros n Hn. unfold closeWell. cbn [wells]. apply lookup_insert_ne. congruence.
  - intros n Hn. unfold recorded_closed, closeWell. cbn [wells].
    destruct (decide (name this = n)) as [->|Hne].
    + rewrite lookup_insert_eq. reflexivity.
    + rewrite lookup_insert_ne by exact Hne. exact Hn.
  - intros n c Hn. exact Hn.
Qed.

Lemma ledger_extends_addClosedCompletion (c : Z) (t : float) (s : WellTestState) :
  ledger_extends this s (addClosedCompletion (name this) c t s).
Proof.
  repeat split.
  - intros n c' Hn. unfold addClosedCompletion. cbn [completions].
    apply lookup_insert_ne. congruence.
  - intros n Hn. exact Hn.
  - intros n c' Hn. unfold hasCompletion, addClosedCompletion in *. cbn [completions].
    destruct (decide ((name this, c) = (n, c'))) as [->|Hne].
    + rewrite lookup_insert_eq. reflexivity.
    + rewrite lookup_insert_ne by exact Hne. exact Hn.
Qed.

Lemma ledger_extends_workover_outcome (t : float) (w : bool) (s : WellTestState)
  (report : RatioLimitCheckReport) (log : DeferredLogger) :
  ledger_extends this s (fst (workover_outcome this t w s report log)).
Proof.
  unfold workover_outcome. cbv zeta.
  destruct (ratio_limit_violated report); [| apply ledger_extends_refl].
  destruct (WellEconProductionLimits.workover _); cbn [fst];
    try apply ledger_extends_refl.
  - unfold ledger_after_CON. cbv zeta.
    destruct (allCompletionsClosed this _).
    + eapply ledger_extends_trans;
        [apply ledger_extends_addClosedCompletion | apply ledger_extends_closeWell].
    + apply ledger_extends_addClosedCompletion.
  - apply ledger_extends_closeWell.
Qed.

(** The evaluator by stages only extends the ledger. *)
Lemma evaluator_by_stages_ledger_extends
  (well_state : WellState) (simulation_time : float) (write_message_to_opmlog : bool)
  (well_test_state well_test_state' : WellTestState)
  (deferred_logger deferred_logger' : DeferredLogger) :
  evaluator_by_stages this well_state simulation_time write_message_to_opmlog
    well_test_state deferred_logger = Ok (well_test_state', deferred_logger') ->
  ledger_extends this well_test_state well_test_state'.
Proof.
  unfold evaluator_by_stages. cbv zeta.
  intros H.
  destruct (wellIsStopped this || _).
  { injection H as <- _. apply ledger_extends_refl. }
  inv_bind H. destruct a as [b log1]. cbn [fst snd] in H. destruct b.
  { injection H as <- _. apply ledger_extends_closeWell. }
  destruct (WellEconProductionLimits.onAnyRatioLimit _).
  - inv_bind H. injection H as H. 
    pose proof (ledger_extends_workover_outcome simulation_time write_message_to_opmlog
                  well_test_state (fst a) (snd a)) as L.
    rewrite H in L. exact L.
  - injection H as <- _. apply ledger_extends_refl.
Qed.

(** X9. [updateWellTestStateEconomic] never reopens anything and touches
    the entries of its own well only: in the ledger it returns, the entries
    of every other well and of the completions of every other well are those
    of the ledger it was given, and every well and every completion recorded
    closed before the call is recorded closed after it. *)
Theorem updateWellTestStateEconomic_ledger_extends
  (well_state : WellState) (simulation_time : float) (write_message_to_opmlog : bool)
  (well_test_state well_test_state' : WellTestState)
  (deferred_logger deferred_logger' : DeferredLogger) :
  updateWellTestStateEconomic this well_state simulation_time write_message_to_opmlog
    well_test_state deferred_logger = Ok (well_test_state', deferred_logger') ->
  ledger_extends this well_test_state well_test_state'.
Proof.
  rewrite updateWellTestStateEconomic_stages.
  apply evaluator_by_stages_ledger_extends.
Qed.

(** *** The log only grows *)

Lemma log_extends_refl (infos : bool) (log : DeferredLogger) : log_extends infos log log.
Proof. exists []. split; [symmetry; apply app_nil_r | reflexivity]. Qed.

Lemma log_extends_trans (infos : bool) (l1 l2 l3 : DeferredLogger) :
  log_extends infos l1 l2 -> log_extends infos l2 l3 -> log_extends infos l1 l3.
Proof.
  intros (a1 & -> & W1) (a2 & -> & W2). exists (a1 ++ a2). split.
  - symmetry. apply app_assoc.
  - intros Hi. rewrite forallb_app, W1, W2 by exact Hi. reflexivity.
Qed.

Lemma log_extends_warning (infos : bool) (tag message : string) (log : DeferredLogger) :
  log_extends infos log (warning tag message log).
Proof. exists [LogWarning tag message]. split; reflexivity. Qed.

Lemma log_extends_info (message : string) (log : DeferredLogger) :
  log_extends true log (info message log).
Proof. exists [LogInfo message]. split; [reflexivity | discriminate]. Qed.

Lemma log_extends_if_warning (infos c : bool) (tag message : string)
  (log : DeferredLogger) :
  log_extends infos log (if c then warning tag message log else log).
Proof. destruct c; [apply log_extends_warning | apply log_extends_refl]. Qed.

(** Case analysis on the head of a computation that is known to return. *)
Ltac run_hyp H :=
  repeat first
    [ discriminate H
    | progress cbn [bind and_then] in H
    | lazymatch type of H with
      | Ok _ = Ok _ => fail
      | ?l = Ok _ => head_of l ltac:(fun h => destruct h eqn:?)
      end ].

Lemma checkRateEconLimits_log (infos : bool) (v : list float)
  (deferred_logger log1 : DeferredLogger) (b : bool) :
  checkRateEconLimits this (Well.getEconLimits (well_ecl_ this)) v deferred_logger
  = Ok (b, log1) ->
  log_extends infos deferred_logger log1.
Proof.
  unfold checkRateEconLimits. cbv zeta. intros H.
  run_hyp H; injection H as _ <-;
    first [apply log_extends_refl | apply log_extends_if_warning].
Qed.

Lemma rate_limit_stage_log (infos : bool) (well_state : WellState)
  (deferred_logger log1 : DeferredLogger) (b : bool) :
  rate_limit_stage this well_state deferred_logger = Ok (b, log1) ->
  log_extends infos deferred_logger log1.
Proof.
  unfold rate_limit_stage. intros H.
  destruct (WellEconProductionLimits.onAnyRateLimit _).
  - inv_bind H. eapply checkRateEconLimits_log, H.
  - injection H as _ <-. apply log_extends_refl.
Qed.

Lemma checkRatioEconLimits_log (infos : bool) (well_state : WellState)
  (report report' : RatioLimitCheckReport) (deferred_logger log1 : DeferredLogger) :
  checkRatioEconLimits this (Well.getEconLimits (well_ecl_ this)) well_state report
    deferred_logger = Ok (report', log1) ->
  log_extends infos deferred_logger log1.
Proof.
  unfold checkRatioEconLimits. cbv zeta. intros H.
  repeat inv_bind H. injection H as _ <-. apply log_extends_if_warning.
Qed.

Lemma log_after_rate_closure_log (w : bool) (log : DeferredLogger) :
  log_extends w log (log_after_rate_closure this w log).
Proof.
  unfold log_after_rate_closure. cbv zeta.
  destruct (WellEconProductionLimits.endRun _),
    (WellEconProductionLimits.validFollowonWell _), w;
    try destruct (Well.getAutomaticShutIn (well_ecl_ this)).
  all: repeat first
         [ apply log_extends_refl
         | eapply log_extends_trans;
           [| first [apply log_extends_warning | apply log_extends_info]] ].
Qed.

Lemma workover_outcome_log (t : float) (w : bool) (s : WellTestState)
  (report : RatioLimitCheckReport) (log : DeferredLogger) :
  log_extends w log (snd (workover_outcome this t w s report log)).
Proof.
  unfold workover_outcome. cbv zeta.
  destruct (ratio_limit_violated report); [| apply log_extends_refl].
  destruct (WellEconProductionLimits.workover _); cbn [snd];
    try apply log_extends_refl; try apply log_extends_warning.
  - unfold log_after_CON. cbv zeta.
    destruct w; rewrite ?andb_false_r, ?andb_true_r; [| apply log_extends_refl].
    destruct (worst_offending_completion report <? 0), (allCompletionsClosed this _);
      try destruct (Well.getAutomaticShutIn (well_ecl_ this)).
    all: repeat first
           [ apply log_extends_refl
           | eapply log_extends_trans; [| apply log_extends_info] ].
  - unfold log_after_ratio_closure.
    destruct w; [| apply log_extends_refl].
    destruct (Well.getAutomaticShutIn (well_ecl_ this)); apply log_extends_info.
Qed.

(** The evaluator by stages only extends the log. *)
Lemma evaluator_by_stages_log_extends
  (well_state : WellState) (simulation_time : float) (write_message_to_opmlog : bool)
  (well_test_state well_test_state' : WellTestState)
  (deferred_logger deferred_logger' : DeferredLogger) :
  evaluator_by_stages this well_state simulation_time write_message_to_opmlog
    well_test_state deferred_logger = Ok (well_test_state', deferred_logger') ->
  log_extends write_message_to_opmlog deferred_logger deferred_logger'.
Proof.
  unfold evaluator_by_stages. cbv zeta.
  intros H.
  destruct (wellIsStopped this || _).
  { injection H as _ <-. apply log_extends_refl. }
  inv_bind H. destruct a as [b log1]. cbn [fst snd] in H.
  apply (rate_limit_stage_log write_message_to_opmlog) in Ha.
  eapply log_extends_trans; [exact Ha |].
  destruct b.
  { injection H as _ <-. apply log_after_rate_closure_log. }
  destruct (WellEconProductionLimits.onAnyRatioLimit _).
  - inv_bind H. destruct a as [report log2]. cbn [fst snd] in H.
    apply (checkRatioEconLimits_log write_message_to_opmlog) in Ha0.
    eapply log_extends_trans; [exact Ha0 |].
    injection H as H.
    pose proof (workover_outcome_log simulation_time write_message_to_opmlog
                  well_test_state report log2) as L.
    rewrite H in L. exact L.
  - injection H as _ <-. apply log_extends_refl.
Qed.

(** X10. [updateWellTestStateEconomic] only appends to the deferred logger:
    the log it returns is the log it was given followed by the entries of
    this call, and without [write_message_to_opmlog] every entry it adds is
    a warning (of a limit, a follow-on action or a workover that is not
    supported), never an information message. *)
Theorem updateWellTestStateEconomic_log_extends
  (well_state : WellState) (simulation_time : float) (write_message_to_opmlog : bool)
  (well_test_state well_test_state' : WellTestState)
  (deferred_logger deferred_logger' : DeferredLogger) :
  updateWellTestStateEconomic this well_state simulation_time write_message_to_opmlog
    well_test_state deferred_logger = Ok (well_test_state', deferred_logger') ->
  log_extends write_message_to_opmlog deferred_logger deferred_logger'.
Proof.
  rewrite updateWellTestStateEconomic_stages.
  apply evaluator_by_stages_log_extends.
Qed.

(** *** The workovers other than CON *)

(** X11. When no minimum-rate limit is violated and the ratio check returns
    a report: without a violation the ledger is the one given; with a
    violation, the WELL workover closes the well with reason ECONOMIC and
    closes no completion, the NONE workover changes neither the ledger nor
    the log, and the workovers CONP and PLUG change nothing in the ledger
    and append the warning NOT_SUPPORTED_WORKOVER_TYPE. *)
Theorem updateWellTestStateEconomic_ratio_workover
  (well_state : WellState) (simulation_time : float) (write_message_to_opmlog : bool)
  (well_test_state : WellTestState) (deferred_logger log1 log2 : DeferredLogger)
  (report : RatioLimitCheckReport) :
  let econ := Well.getEconLimits (well_ecl_ this) in
  let result :=
    updateWellTestStateEconomic this well_state simulation_time write_message_to_opmlog
      well_test_state deferred_logger in
  wellIsStopped this = false ->
  WellEconProductionLimits.onAnyEffectiveLimit econ = true ->
  rate_limit_stage this well_state deferred_logger = Ok (false, log1) ->
  WellEconProductionLimits.onAnyRatioLimit econ = true ->
  checkRatioEconLimits this econ well_state RatioLimitCheckReport_init log1
  = Ok (report, log2) ->
  (ratio_limit_violated report = false -> result = Ok (well_test_state, log2))
  /\ (ratio_limit_violated report = true ->
      WellEconProductionLimits.workover econ = EconWorkover.WELL ->
      exists ledger,
        result = Ok (ledger, log_after_ratio_closure this write_message_to_opmlog log2)
        /\ hasWellClosed (name this) Reason.ECONOMIC ledger = true
        /\ completions ledger = completions well_test_state)
  /\ (ratio_limit_violated report = true ->
      WellEconProductionLimits.workover econ = EconWorkover.NONE ->
      result = Ok (well_test_state, log2))
  /\ (ratio_limit_violated report = true ->
      WellEconProductionLimits.workover econ = EconWorkover.CONP
      \/ WellEconProductionLimits.workover econ = EconWorkover.PLUG ->
      result
      = Ok (well_test_state,
            warning "NOT_SUPPORTED_WORKOVER_TYPE"
              ("not supporting workover type "
               +:+ EconWorkover2String (WellEconProductionLimits.workover econ))
              log2)).
Proof.
  intros econ result Hstop Heff Hrate Hratio Hcheck. subst result econ.
  rewrite updateWellTestStateEconomic_stages. unfold evaluator_by_stages. cbv zeta.
  rewrite Hstop, Heff, Hrate. cbn [orb negb bind fst snd].
  rewrite Hratio, Hcheck. cbn [bind fst snd].
  unfold workover_outcome. cbv zeta.
  repeat split.
  - intros ->. reflexivity.
  - intros -> ->. eexists. split; [reflexivity |]. split.
    + apply hasWellClosed_closeWell.
    + reflexivity.
  - intros -> ->. reflexivity.
  - intros -> [-> | ->]; reflexivity.
Qed.

(** *** The completion a call closes *)

Lemma checkRatioEconLimits_violated (well_state : WellState)
  (report report' : RatioLimitCheckReport) (deferred_logger log1 : DeferredLogger) :
  checkRatioEconLimits this (Well.getEconLimits (well_ecl_ this)) well_state report
    deferred_logger = Ok (report', log1) ->
  ratio_limit_violated report' = true ->
  worst_offending_completion report' <> INVALIDCOMPLETION
  /\ fgt (violation_extent report') 1 = true.
Proof.
  unfold checkRatioEconLimits. cbv zeta. intros H Hv.
  repeat inv_bind H. injection H as -> _.
  match goal with
  | A : (if ratio_limit_violated report' then _ else _) = Ok _ |- _ =>
      rewrite Hv in A; inv_bind A;
      match goal with
      | B : assert (bool_decide _) = Ok _ |- _ =>
          apply assert_Ok, bool_decide_eq_true in B; split; [exact B |]
      end;
      apply assert_Ok in A; exact A
  end.
Qed.

(** X12. A call of [updateWellTestStateEconomic] closes at most one
    completion, a completion of its own well whose number is not the
    sentinel INVALIDCOMPLETION: the completions of the ledger it returns are
    those of the ledger it was given, or those with one such completion
    recorded closed at the simulation time. *)
Theorem updateWellTestStateEconomic_closes_one_completion
  (well_state : WellState) (simulation_time : float) (write_message_to_opmlog : bool)
  (well_test_state well_test_state' : WellTestState)
  (deferred_logger deferred_logger' : DeferredLogger) :
  updateWellTestStateEconomic this well_state simulation_time write_message_to_opmlog
    well_test_state deferred_logger = Ok (well_test_state', deferred_logger') ->
  completions well_test_state' = completions well_test_state
  \/ exists c : Z,
       c <> INVALIDCOMPLETION
       /\ WellEconProductionLimits.workover (Well.getEconLimits (well_ecl_ this))
          = EconWorkover.CON
       /\ completions well_test_state'
          = <[(name this, c) :=
                {| completion_closed := true; completion_last_test := simulation_time |}]>
              (completions well_test_state).
Proof.
  rewrite updateWellTestStateEconomic_stages. unfold evaluator_by_stages. cbv zeta.
  intros H.
  destruct (wellIsStopped this || _).
  { injection H as <- _. left. reflexivity. }
  inv_bind H. destruct a as [b log1]. cbn [fst snd] in H. destruct b.
  { injection H as <- _. left. reflexivity. }
  destruct (WellEconProductionLimits.onAnyRatioLimit _).
  2: { injection H as <- _. left. reflexivity. }
  inv_bind H. destruct a as [report log2]. cbn [fst snd] in H.
  injection H as H. unfold workover_outcome in H. cbv zeta in H.
  destruct (ratio_limit_violated report) eqn:Hv.
  2: { injection H as <- _. left. reflexivity. }
  apply checkRatioEconLimits_violated in Ha0 as [Hc _]; [| exact Hv].
  destruct (WellEconProductionLimits.workover _); injection H as <- _;
    try (left; reflexivity).
  right. exists (worst_offending_completion report).
  split; [exact Hc |]. split; [reflexivity |].
  unfold ledger_after_CON. cbv zeta.
  destruct (allCompletionsClosed this _); reflexivity.
Qed.

End EvaluatorStages.

Lemma updateWellTestStateEconomic_ledger_extends_witness :
  exists log',
    updateWellTestStateEconomic two_completion_producer second_closure_state 20 true
      ledger_with_other_well []
    = Ok (ledger_after_CON two_completion_producer 2 20 ledger_with_other_well, log')
    /\ ledger_extends two_completion_producer ledger_with_other_well
         (ledger_after_CON two_completion_producer 2 20 ledger_with_other_well).
Proof.
  eexists. split.
  - vm_compute. reflexivity.
  - apply (updateWellTestStateEconomic_ledger_extends two_completion_producer
             second_closure_state 20%float true ledger_with_other_well _ []
             [LogInfo "Completion 2 for well W1 will be closed due to economic limit";
              LogInfo "W1 will be shut due to last completion closed"]).
    vm_compute. reflexivity.
Defined.

Lemma updateWellTestStateEconomic_log_extends_witness :
  log_extends true [LogInfo "earlier"]
    [LogInfo "earlier";
     LogInfo "Completion 2 for well W1 will be closed due to economic limit";
     LogInfo "W1 will be shut due to last completion closed"].
Proof.
  apply (updateWellTestStateEconomic_log_extends two_completion_producer
           second_closure_state 20%float true ledger_with_other_well
           (ledger_after_CON two_completion_producer 2 20 ledger_with_other_well)).
  vm_compute. reflexivity.
Defined.

Lemma updateWellTestStateEconomic_ratio_workover_witness :
  exists ledger,
    updateWellTestStateEconomic (producer_water_cut EconWorkover.WELL three_connections)
      producer_water_cut_state 20 true ledger_with_other_well []
    = Ok (ledger,
          log_after_ratio_closure (producer_water_cut EconWorkover.WELL three_connections)
            true [])
    /\ hasWellClosed "W1" Reason.ECONOMIC ledger = true
    /\ completions ledger = completions ledger_with_other_well.
Proof.
  refine (proj1 (proj2 (updateWellTestStateEconomic_ratio_workover
            (producer_water_cut EconWorkover.WELL three_connections)
            producer_water_cut_state 20%float true ledger_with_other_well
            [] [] []
            {| ratio_limit_violated := true;
               worst_offending_completion := 2;
               violation_extent := 1.8 |}
            eq_refl eq_refl eq_refl eq_refl _)) eq_refl eq_refl).
  vm_compute. reflexivity.
Defined.

Lemma updateWellTestStateEconomic_closes_one_completion_witness :
  completions (ledger_after_CON two_completion_producer 2 20 ledger_with_other_well)
  = completions ledger_with_other_well
  \/ exists c : Z,
       c <> INVALIDCOMPLETION
       /\ EconWorkover.CON = EconWorkover.CON
       /\ completions (ledger_after_CON two_completion_producer 2 20 ledger_with_other_well)
          = <[("W1", c) := {| completion_closed := true; completion_last_test := 20 |}]>
              (completions ledger_with_other_well).
Proof.
  apply (updateWellTestStateEconomic_closes_one_completion two_completion_producer
           second_closure_state 20%float true ledger_with_other_well _ []
           [LogInfo "Completion 2 for well W1 will be closed due to economic limit";
            LogInfo "W1 will be shut due to last completion closed"]).
  vm_compute. reflexivity.
Defined.

(** ** [updateWellTestState] *)

Section WellTestStateUpdaterProofs.
Context {SummaryState GuideRate : Type}.
Variable this : WellInterfaceFluidSystem SummaryState GuideRate.
Variable underPredictionMode : bool.
Variable updateWellTestStatePhysical :
  WellState -> float -> bool -> WellTestState -> DeferredLogger ->
  Result (WellTestState * DeferredLogger).

(** X13. [updateWellTestState] returns the ledger and the logger as they
    were passed for an injector and outside the prediction mode, whatever the
    physical update is, even one that would fail or rewrite the ledger: it
    is not called. For a producer in the prediction mode a failure of the
    physical update is the failure of the whole update, and when the
    physical update returns, the result is the economic update on the ledger
    and the logger it returned, which extends that ledger for this well only
    and that log; so if this call of the physical update only extended the
    ledger and the log it was given, the whole update did too. *)
Theorem updateWellTestState_composition
  (well_state : WellState) (simulationTime : float) (writeMessageToOPMLog : bool)
  (wellTestState : WellTestState) (deferred_logger : DeferredLogger) :
  let result :=
    updateWellTestState this underPredictionMode updateWellTestStatePhysical
      well_state simulationTime writeMessageToOPMLog wellTestState deferred_logger in
  let physical :=
    updateWellTestStatePhysical well_state simulationTime writeMessageToOPMLog
      wellTestState deferred_logger in
  (Well.isInjector (well_ecl_ this) = true \/ underPredictionMode = false ->
   result = Ok (wellTestState, deferred_logger))
  /\ (Well.isInjector (well_ecl_ this) = false -> underPredictionMode = true ->
      (forall f, physical = Abort f -> result = Abort f)
      /\ (forall s1 l1, physical = Ok (s1, l1) ->
            result
            = updateWellTestStateEconomic this well_state simulationTime
                writeMessageToOPMLog s1 l1)
      /\ (forall s1 l1 wellTestState' deferred_logger',
            physical = Ok (s1, l1) ->
            result = Ok (wellTestState', deferred_logger') ->
            ledger_extends this s1 wellTestState'
            /\ log_extends writeMessageToOPMLog l1 deferred_logger'
            /\ (ledger_extends this wellTestState s1 ->
                ledger_extends this wellTestState wellTestState')
            /\ (log_extends writeMessageToOPMLog deferred_logger l1 ->
                log_extends writeMessageToOPMLog deferred_logger deferred_logger'))).
Proof.
  intros result physical. subst result physical. unfold updateWellTestState.
  split.
  - intros [-> | ->]; [reflexivity |].
    destruct (Well.isInjector (well_ecl_ this)); reflexivity.
  - intros -> ->. cbn [negb]. split; [| split].
    + intros f ->. reflexivity.
    + intros s1 l1 ->. reflexivity.
    + intros s1 l1 s2 l2 -> H. cbn [bind fst snd] in H.
      rewrite updateWellTestStateEconomic_stages in H.
      pose proof (evaluator_by_stages_ledger_extends _ _ _ _ _ _ _ _ H) as L.
      pose proof (evaluator_by_stages_log_extends _ _ _ _ _ _ _ _ H) as G.
      split; [exact L |]. split; [exact G |]. split.
      * intros L1. eapply ledger_extends_trans; [exact L1 | exact L].
      * intros G1. eapply log_extends_trans; [exact G1 | exact G].
Qed.

End WellTestStateUpdaterProofs.

Lemma updateWellTestState_composition_witness :
  updateWellTestState multi_injector true physical_wipe
    multi_injector_state 20 true ledger_with_other_well [LogInfo "earlier"]
  = Ok (ledger_with_other_well, [LogInfo "earlier"])
  /\ updateWellTestState two_completion_producer false physical_wipe
       second_closure_state 20 true ledger_with_other_well [LogInfo "earlier"]
     = Ok (ledger_with_other_well, [LogInfo "earlier"])
  /\ updateWellTestState two_completion_producer true physical_failure
       second_closure_state 20 true ledger_with_other_well [] = Abort OutOfRange
  /\ ledger_extends two_completion_producer ledger_with_other_well
       (ledger_after_CON two_completion_producer 2 20
          (closeWell "W1" Reason.PHYSICAL 20 ledger_with_other_well))
  /\ log_extends true []
       [LogWarning "PHYSICAL" "well closed on a physical limit";
        LogInfo "Completion 2 for well W1 will be closed due to economic limit";
        LogInfo "W1 will be shut due to last completion closed"].
Proof.
  split; [| split; [| split]].
  - apply (proj1 (updateWellTestState_composition multi_injector true physical_wipe
                    multi_injector_state 20%float true ledger_with_other_well
                    [LogInfo "earlier"])).
    left. reflexivity.
  - apply (proj1 (updateWellTestState_composition two_completion_producer false
                    physical_wipe second_closure_state 20%float true
                    ledger_with_other_well [LogInfo "earlier"])).
    right. reflexivity.
  - apply (proj1 (proj2 (updateWellTestState_composition two_completion_producer true
                           physical_failure second_closure_state 20%float true
                           ledger_with_other_well []) eq_refl eq_refl)).
    reflexivity.
  - pose proof (proj2 (proj2 (proj2 (updateWellTestState_composition
                  two_completion_producer true (physical_closure two_completion_producer)
                  second_closure_state 20%float true ledger_with_other_well [])
                  eq_refl eq_refl))
                  (closeWell "W1" Reason.PHYSICAL 20 ledger_with_other_well)
                  [LogWarning "PHYSICAL" "well closed on a physical limit"]
                  (ledger_after_CON two_completion_producer 2 20
                     (closeWell "W1" Reason.PHYSICAL 20 ledger_with_other_well))
                  [LogWarning "PHYSICAL" "well closed on a physical limit";
                   LogInfo "Completion 2 for well W1 will be closed due to economic limit";
                   LogInfo "W1 will be shut due to last completion closed"]
                  eq_refl) as H.
    destruct H as (_ & _ & L & G); [vm_compute; reflexivity |].
    split.
    + apply L. apply (ledger_extends_closeWell two_completion_producer).
    + apply G.
      apply (log_extends_warning true "PHYSICAL" "well closed on a physical limit" []).
Defined.

(** ** Injectors of a type other than WATER, OIL and GAS *)

Section UnknownInjectorType.
Context {SummaryState Schedule GroupState Group GuideRate : Type}.
Variable ext : Externals SummaryState Schedule GroupState Group GuideRate.
Variable this : WellInterfaceFluidSystem SummaryState GuideRate.

(** X14. For an injector whose type is none of WATER, OIL and GAS:
    [checkGroupConstraintsInj] throws before it reads anything, so the check
    against the group throws whenever the well is not under group control;
    [checkIndividualConstraints] throws when it comes to the RATE limit, that
    is when RATE is configured and not the current control and the BHP limit
    does not fire; and [checkConstraints] can only return with an individual
    constraint found, unless the well is under group control. *)
Theorem unknown_injector_type_throws
  (well_state : WellState) (group_state : GroupState) (schedule : Schedule)
  (summaryState : SummaryState) (deferred_logger : DeferredLogger)
  (currentControl : InjectorCMode.t) :
  let controls := Well.injectionControls (well_ecl_ this) summaryState in
  Well.role (well_ecl_ this) = Injector ->
  InjectionControls.injector_type controls = InjectorType.MULTI ->
  currentInjectionControl well_state (index_of_well_ this) = Ok currentControl ->
  (forall group efficiencyFactor,
     checkGroupConstraintsInj ext this group well_state group_state efficiencyFactor
       schedule summaryState deferred_logger
     = Abort (Thrown ("Expected WATER, OIL or GAS as type for injector " +:+ name this)))
  /\ (currentControl <> InjectorCMode.GRUP ->
      checkGroupConstraints ext this well_state group_state schedule summaryState
        deferred_logger
      = Abort (Thrown ("Expected WATER, OIL or GAS as type for injector " +:+ name this)))
  /\ (InjectionControls.hasControl controls InjectorCMode.RATE = true ->
      currentControl <> InjectorCMode.RATE ->
      injector_fires this well_state summaryState currentControl InjectorCMode.BHP
      = Ok false ->
      checkIndividualConstraints this well_state summaryState
      = Abort (Thrown ("Expected WATER, OIL or GAS as type for injectors "
                       +:+ name this)))
  /\ (currentControl <> InjectorCMode.GRUP ->
      forall broken well_state' deferred_logger',
        checkConstraints ext this well_state group_state schedule summaryState
          deferred_logger = Ok (broken, well_state', deferred_logger') ->
        broken = true).
Proof.
  intros controls Hrole Htype Hcur. subst controls.
  assert (A : forall group efficiencyFactor,
     checkGroupConstraintsInj ext this group well_state group_state efficiencyFactor
       schedule summaryState deferred_logger
     = Abort (Thrown ("Expected WATER, OIL or GAS as type for injector " +:+ name this))).
  { intros group eff. unfold checkGroupConstraintsInj. cbv zeta. rewrite Htype.
    reflexivity. }
  assert (B : currentControl <> InjectorCMode.GRUP ->
      checkGroupConstraints ext this well_state group_state schedule summaryState
        deferred_logger
      = Abort (Thrown ("Expected WATER, OIL or GAS as type for injector " +:+ name this))).
  { intros Hne. unfold checkGroupConstraints. cbv zeta.
    unfold Well.isInjector. rewrite Hrole, Hcur. cbn [bind].
    unfold inj_ne. rewrite bool_decide_eq_true_2 by exact Hne.
    rewrite A. reflexivity. }
  split; [exact A |]. split; [exact B |]. split.
  - intros Hrate Hne Hbhp.
    rewrite checkIndividualConstraints_by_priority.
    unfold individual_constraints_by_priority. rewrite Hrole, Hcur.
    cbn [bind injector_priority first_firing]. rewrite Hbhp. cbn [bind].
    unfold injector_fires at 1. rewrite Hrate. unfold inj_ne.
    rewrite bool_decide_eq_true_2 by exact Hne. cbn [andb].
    unfold injector_limit_exceeded. cbv zeta. rewrite Htype. reflexivity.
  - intros Hne broken well_state' deferred_logger' H.
    unfold checkConstraints in H. inv_bind H. destruct a as [[|] ws1]; cbn [fst snd] in H.
    + injection H as <- _ _. reflexivity.
    + apply checkIndividualConstraints_false in Ha. subst ws1.
      rewrite B in H by exact Hne. discriminate H.
Qed.

(** X15. When no control other than the current one is configured,
    [checkIndividualConstraints] returns [false] and the well state as it
    is, without reading a rate or a pressure of the well: it does so
    whatever the well state holds besides the current control. *)
Theorem checkIndividualConstraints_only_current_control
  (well_state : WellState) (summaryState : SummaryState) :
  match Well.role (well_ecl_ this) with
  | Injector =>
      exists currentControl,
        currentInjectionControl well_state (index_of_well_ this) = Ok currentControl
        /\ forall c,
             InjectionControls.hasControl
               (Well.injectionControls (well_ecl_ this) summaryState) c = true ->
             c = currentControl
  | Producer =>
      exists currentControl,
        currentProductionControl well_state (index_of_well_ this) = Ok currentControl
        /\ forall c,
             ProductionControls.hasControl
               (Well.productionControls (well_ecl_ this) summaryState) c = true ->
             c = currentControl
  end ->
  checkIndividualConstraints this well_state summaryState = Ok (false, well_state).
Proof.
  rewrite checkIndividualConstraints_by_priority.
  unfold individual_constraints_by_priority.
  destruct (Well.role (well_ecl_ this)); intros (cur & Hcur & Honly); rewrite Hcur;
    cbn [bind].
  - assert (E : first_firing (injector_fires this well_state summaryState cur)
                  injector_priority = Ok None).
    { apply first_firing_None, Forall_forall. intros c _.
      unfold injector_fires.
      destruct (InjectionControls.hasControl _ c) eqn:Hc; [| reflexivity].
      apply Honly in Hc. subst c. unfold inj_ne.
      rewrite bool_decide_eq_false_2 by (intros N; apply N; reflexivity).
      reflexivity. }
    rewrite E. reflexivity.
  - assert (E : first_firing (producer_fires this well_state summaryState cur)
                  producer_priority = Ok None).
    { apply first_firing_None, Forall_forall. intros c _.
      unfold producer_fires.
      destruct (ProductionControls.hasControl _ c) eqn:Hc; [| reflexivity].
      apply Honly in Hc. subst c. unfold prod_ne.
      rewrite bool_decide_eq_false_2 by (intros N; apply N; reflexivity).
      reflexivity. }
    rewrite E. reflexivity.
Qed.

End UnknownInjectorType.

Lemma unknown_injector_type_throws_witness :
  checkIndividualConstraints multi_injector multi_injector_state tt
  = Abort (Thrown "Expected WATER, OIL or GAS as type for injectors W1")
  /\ checkGroupConstraints (ext_reporting true 0.5) multi_injector multi_injector_state tt tt tt []
     = Abort (Thrown "Expected WATER, OIL or GAS as type for injector W1").
Proof.
  pose proof (unknown_injector_type_throws (ext_reporting true 0.5) multi_injector
                multi_injector_state tt tt tt [] InjectorCMode.BHP
                eq_refl eq_refl eq_refl) as (_ & B & C & _).
  split.
  - apply C; [reflexivity | discriminate | reflexivity].
  - apply B. discriminate.
Defined.

Lemma checkIndividualConstraints_only_current_control_witness :
  checkIndividualConstraints producer_only_ORAT state_without_rates tt
  = Ok (false, state_without_rates).
Proof.
  apply (checkIndividualConstraints_only_current_control producer_only_ORAT
           state_without_rates tt).
  exists ProducerCMode.ORAT. split; [reflexivity |].
  intros c Hc. apply bool_decide_eq_true in Hc. exact Hc.
Defined.

(** ** The verdict of [checkConstraints] *)

Section Verdict.
Context {SummaryState Schedule GroupState Group GuideRate : Type}.
Variable ext : Externals SummaryState Schedule GroupState Group GuideRate.
Variable this : WellInterfaceFluidSystem SummaryState GuideRate.

(** X16. For a producer the verdict of [checkConstraints] tells exactly
    whether the recorded control of the well has changed: [true] comes with
    a current production control other than the one before the call, and
    [false] with the well state as it was. *)
Theorem checkConstraints_verdict_is_control_change
  (well_state well_state' : WellState) (group_state : GroupState) (schedule : Schedule)
  (summaryState : SummaryState) (deferred_logger deferred_logger' : DeferredLogger)
  (broken : bool) :
  Well.role (well_ecl_ this) = Producer ->
  checkConstraints ext this well_state group_state schedule summaryState deferred_logger
  = Ok (broken, well_state', deferred_logger') ->
  (broken = true
   <-> currentProductionControl well_state' (index_of_well_ this)
       <> currentProductionControl well_state (index_of_well_ this))
  /\ (broken = false -> well_state' = well_state).
Proof.
  intros Hrole H. destruct broken.
  - split; [| discriminate]. split; [| reflexivity]. intros _.
    eapply checkConstraints_true_producer; [exact Hrole | exact H].
  - apply checkConstraints_false_unchanged in H. subst well_state'.
    split; [| reflexivity]. split; [discriminate |]. intros N. exfalso. apply N.
    reflexivity.
Qed.

End Verdict.

Lemma checkConstraints_verdict_is_control_change_witness :
  exists well_state',
    checkConstraints (ext_reporting true 0.5) producer_ok producer_ok_state tt tt tt []
    = Ok (true, well_state', [])
    /\ currentProductionControl well_state' 0
       <> currentProductionControl producer_ok_state 0.
Proof.
  eexists. split.
  - vm_compute. reflexivity.
  - refine (proj1 (proj1 (checkConstraints_verdict_is_control_change
                            (ext_reporting true 0.5) producer_ok producer_ok_state _
                            tt tt tt [] [] true eq_refl _)) eq_refl).
    vm_compute. reflexivity.
Defined.

(** ** C7: the early return reads the stop flag, not the ledger *)

Section SecondCall.
Context {SummaryState GuideRate : Type}.
Variable this : WellInterfaceFluidSystem SummaryState GuideRate.





End SecondCall.


